(** * railscompat.rubycore.marshal: the Ruby Marshal 4.8 decoder

    A shallow embedding of [python/src/railscompat/rubycore/marshal.py]
    and the properties of its specification.

    Python integers are unbounded, so they are [Z]; the buffer is a
    [list byte]; a Python [str] is the list of its code points; a
    [Marshal] instance is a record of its three attributes, threaded
    explicitly through every method; a raised exception is the [Raise]
    outcome of the method. *)

From Stdlib Require Import ZArith List Bool Lia.
From Stdlib Require Import Strings.Byte.
From Stdlib Require Strings.String Strings.Ascii.
From Stdlib Require Numbers.DecimalString Numbers.DecimalZ Numbers.DecimalPos.
Import ListNotations.
Local Open Scope Z_scope.
Set Warnings "-register-all".

(** ** Python values *)

(** A Python [str]: its code points. *)
Definition pystr := list Z.

(** [class RubyType(Enum)], members in definition order. *)
Inductive RubyType :=
| NONE | HASH | ARRAY | SYMBOL | SYMBOL_LINK | IVARS | STRING | INT
| BIGNUM | NIL | TRUE | FALSE | USR_MARSHAL | EXTENDED | USERDEF | LINK
| OBJECT.

Module RubyTypeM.

Definition members : list RubyType :=
  [NONE; HASH; ARRAY; SYMBOL; SYMBOL_LINK; IVARS; STRING; INT; BIGNUM; NIL;
   TRUE; FALSE; USR_MARSHAL; EXTENDED; USERDEF; LINK; OBJECT].

Definition value (t : RubyType) : Z :=
  match t with
  | NONE => 0 | HASH => 123 | ARRAY => 91 | SYMBOL => 58 | SYMBOL_LINK => 59
  | IVARS => 73 | STRING => 34 | INT => 105 | BIGNUM => 108 | NIL => 48
  | TRUE => 84 | FALSE => 70 | USR_MARSHAL => 85 | EXTENDED => 101
  | USERDEF => 117 | LINK => 64 | OBJECT => 111
  end.

(** [for ruby_type in cls: if ruby_type.value == byte_val: return ruby_type]
    and [None] when the loop ends. *)
Definition from_byte (byte_val : Z) : option RubyType :=
  find (fun ruby_type => value ruby_type =? byte_val) members.

End RubyTypeM.

(** What the decoder returns: [None], [bool], [int], [str] (strings and
    symbols alike, a symbol starting with [":"]), [list], [dict] (in
    insertion order) and the [ObjectWrapper] dataclass. *)
Inductive pyvalue :=
| VNone
| VBool (b : bool)
| VInt (z : Z)
| VStr (s : pystr)
| VList (items : list pyvalue)
| VDict (items : list (pyvalue * pyvalue))
| VObjectWrapper (ruby_type : RubyType) (obj : pyvalue)
                 (children : list pyvalue).

(** ** Exceptions *)

(** The messages of the [RuntimeError]s the module raises. *)
Inductive message :=
| UnexpectedEndOfData (position : Z)
| NotEnoughData (need have : Z)
| UnsupportedMarshalVersion
| NotAManagedType (type_byte : Z)
| ExpectingSymbol (type_byte : Z)
| InvalidSymbolLink (link : Z).

(** Every exception a call can end with: the module's own
    [RuntimeError]s, and those Python raises by itself. [RecursionError]
    is raised when the nesting of [_read] calls exceeds the depth the
    interpreter allows. *)
Inductive exn :=
| RuntimeError (m : message)
| UnicodeDecodeError
| BinasciiError
| IndexError
| TypeError
| RecursionError.

(** ** The instance and the outcome of a method *)

Record Marshal := mkMarshal {
  _data : list byte;
  _position : Z;
  _symbols : list pystr
}.

(** [Marshal.__init__] *)
Definition __init__ (data : list byte) : Marshal :=
  {| _data := data; _position := 0; _symbols := [] |}.

Inductive outcome (A : Type) :=
| Return (a : A) (self : Marshal)
| Raise (e : exn).
Arguments Return {A} a self.
Arguments Raise {A} e.

Definition M (A : Type) := Marshal -> outcome A.

Definition ret {A} (a : A) : M A := fun self => Return a self.
Definition raise {A} (e : exn) : M A := fun _ => Raise e.
Definition bind {A B} (c : M A) (k : A -> M B) : M B :=
  fun self =>
    match c self with
    | Return a self' => k a self'
    | Raise e => Raise e
    end.

Declare Scope py_scope.
Delimit Scope py_scope with py.
Notation "x <- c ;; k" := (bind c (fun x => k))
  (at level 61, c at next level, right associativity) : py_scope.
Notation "c ;; k" := (bind c (fun _ => k))
  (at level 61, right associativity) : py_scope.
Local Open Scope py_scope.

(** ** Python sequences *)

Definition len {A} (l : list A) : Z := Z.of_nat (length l).

(** [l[i]]: a negative index counts from the end; [None] is
    [IndexError]. *)
Definition py_getitem {A} (l : list A) (i : Z) : option A :=
  if 0 <=? i then nth_error l (Z.to_nat i)
  else if 0 <=? len l + i then nth_error l (Z.to_nat (len l + i))
  else None.

(** How a slice bound is clamped into [0 .. len]. *)
Definition slice_bound (n i : Z) : Z :=
  if i <? 0 then Z.max (i + n) 0 else Z.min i n.

(** [l[start:stop]] *)
Definition py_slice {A} (l : list A) (start stop : Z) : list A :=
  let lo := slice_bound (len l) start in
  let hi := slice_bound (len l) stop in
  firstn (Z.to_nat (hi - lo)) (skipn (Z.to_nat lo) l).

(** The value of a byte of a [bytes] object, 0..255. *)
Definition byte_val (b : byte) : Z := Z.of_N (Byte.to_N b).

(** ** The byte cursor *)

(** [Marshal._read_byte] *)
Definition _read_byte : M Z := fun self =>
  if _position self >=? len (_data self) then
    Raise (RuntimeError (UnexpectedEndOfData (_position self)))
  else
    match py_getitem (_data self) (_position self) with
    | None => Raise IndexError
    | Some b =>
        let byte_val := byte_val b in
        Return (if byte_val <? 128 then byte_val else byte_val - 256)
               {| _data := _data self;
                  _position := _position self + 1;
                  _symbols := _symbols self |}
    end.

(** [Marshal._read_bytes] *)
Definition _read_bytes (count : Z) : M (list byte) := fun self =>
  if _position self + count >? len (_data self) then
    Raise (RuntimeError
             (NotEnoughData count (len (_data self) - _position self)))
  else
    Return (py_slice (_data self) (_position self) (_position self + count))
           {| _data := _data self;
              _position := _position self + count;
              _symbols := _symbols self |}.

(** ** The integer codec *)

(** The loop of the multi-byte positive branch, from index [i], for [n]
    more rounds. *)
Fixpoint read_int_positive (n : nat) (i : Z) (x : Z) : M Z :=
  match n with
  | O => ret x
  | S n' =>
      byte_val <- _read_byte ;;
      let unsigned_byte := if byte_val >=? 0 then byte_val else byte_val + 256 in
      read_int_positive n' (i + 1) (Z.lor x (Z.shiftl unsigned_byte (8 * i)))
  end.

(** The loop of the multi-byte negative branch. *)
Fixpoint read_int_negative (n : nat) (i : Z) (x : Z) : M Z :=
  match n with
  | O => ret x
  | S n' =>
      let a := Z.lnot (Z.shiftl 255 (8 * i)) in
      b <- _read_byte ;;
      let b := Z.shiftl b (8 * i) in
      read_int_negative n' (i + 1) (Z.lor (Z.land x a) b)
  end.

(** [Marshal._read_int] *)
Definition _read_int : M Z :=
  c <- _read_byte ;;
  if c =? 0 then ret 0
  else if c >? 4 then ret (c - 5)
  else if c <? -4 then ret (c + 5)
  else if c >? 0 then read_int_positive (Z.to_nat c) 0 0
  else read_int_negative (Z.to_nat (- c)) 0 (-1).

(** ** Text *)

Definition is_continuation (c : Z) : bool := (128 <=? c) && (c <=? 191).

(** [bytes.decode('utf-8')], strict: [None] is [UnicodeDecodeError].
    Overlong forms, the surrogates U+D800..U+DFFF and code points above
    U+10FFFF are refused, as Python refuses them. *)
Fixpoint decode_utf8 (bs : list byte) : option pystr :=
  match bs with
  | [] => Some []
  | b0 :: t0 =>
      let c0 := byte_val b0 in
      if c0 <? 128 then option_map (cons c0) (decode_utf8 t0)
      else if (194 <=? c0) && (c0 <=? 223) then
        match t0 with
        | b1 :: t1 =>
            let c1 := byte_val b1 in
            if is_continuation c1
            then option_map (cons ((c0 - 192) * 64 + (c1 - 128)))
                            (decode_utf8 t1)
            else None
        | _ => None
        end
      else if (224 <=? c0) && (c0 <=? 239) then
        match t0 with
        | b1 :: b2 :: t2 =>
            let c1 := byte_val b1 in
            let c2 := byte_val b2 in
            if ((if c0 =? 224 then 160 else 128) <=? c1)
               && (c1 <=? (if c0 =? 237 then 159 else 191))
               && is_continuation c2
            then option_map
                   (cons ((c0 - 224) * 4096 + (c1 - 128) * 64 + (c2 - 128)))
                   (decode_utf8 t2)
            else None
        | _ => None
        end
      else if (240 <=? c0) && (c0 <=? 244) then
        match t0 with
        | b1 :: b2 :: b3 :: t3 =>
            let c1 := byte_val b1 in
            let c2 := byte_val b2 in
            let c3 := byte_val b3 in
            if ((if c0 =? 240 then 144 else 128) <=? c1)
               && (c1 <=? (if c0 =? 244 then 143 else 191))
               && is_continuation c2 && is_continuation c3
            then option_map
                   (cons ((c0 - 240) * 262144 + (c1 - 128) * 4096
                          + (c2 - 128) * 64 + (c3 - 128)))
                   (decode_utf8 t3)
            else None
        | _ => None
        end
      else None
  end.

(** [data_bytes.decode('utf-8')] as a step of a method. *)
Definition decode (data_bytes : list byte) : M pystr :=
  match decode_utf8 data_bytes with
  | Some s => ret s
  | None => raise UnicodeDecodeError
  end.

(** The one-character string [":"]. *)
Definition colon : pystr := [58].

(** ** Dictionaries *)

(** What [hash(key)] accepts: lists, dicts and [ObjectWrapper] (a
    dataclass with [eq] and without [frozen]) are unhashable. *)
Definition hashable (key : pyvalue) : bool :=
  match key with
  | VNone | VBool _ | VInt _ | VStr _ => true
  | _ => false
  end.

(** [k1 == k2] on hashable values: [True == 1] and [False == 0]. *)
Definition key_eqb (k1 k2 : pyvalue) : bool :=
  match k1, k2 with
  | VNone, VNone => true
  | VBool a, VBool b => Bool.eqb a b
  | VBool a, VInt z | VInt z, VBool a => (if a then 1 else 0) =? z
  | VInt a, VInt b => a =? b
  | VStr a, VStr b => if list_eq_dec Z.eq_dec a b then true else false
  | _, _ => false
  end.

(** The entries after [result[key] = value] on a hashable key: an equal
    key already present keeps its place (and its own key object) and
    takes the new value; a new key goes last. *)
Fixpoint dict_store (result : list (pyvalue * pyvalue)) (key value : pyvalue)
  : list (pyvalue * pyvalue) :=
  match result with
  | [] => [(key, value)]
  | (k, v) :: rest =>
      if key_eqb k key then (k, value) :: rest
      else (k, v) :: dict_store rest key value
  end.

(** [result[key] = value]; [None] is [TypeError: unhashable type]. *)
Definition dict_setitem (result : list (pyvalue * pyvalue))
  (key value : pyvalue) : option (list (pyvalue * pyvalue)) :=
  if hashable key then Some (dict_store result key value) else None.

(** ** Symbols *)

(** [self._symbols.append(symbol)] *)
Definition symbols_append (symbol : pystr) : M unit := fun self =>
  Return tt {| _data := _data self;
               _position := _position self;
               _symbols := _symbols self ++ [symbol] |}.

(** [Marshal._read_symbol] *)
Definition _read_symbol : M pystr :=
  size <- _read_int ;;
  symbol <- (if size =? 0 then ret colon
             else data_bytes <- _read_bytes size ;;
                  text <- decode data_bytes ;;
                  ret (colon ++ text)) ;;
  symbols_append symbol ;;
  ret symbol.

(** [Marshal._read_symbol_link] *)
Definition _read_symbol_link : M pystr :=
  link <- _read_int ;;
  fun self =>
    if link >=? len (_symbols self) then
      Raise (RuntimeError (InvalidSymbolLink link))
    else
      match py_getitem (_symbols self) link with
      | Some symbol => Return symbol self
      | None => Raise IndexError
      end.

(** The block [_read_object], [_read_userdef] and [_read_usr_marshal]
    each start with: a type byte that has to be SYMBOL or SYMBOL_LINK,
    then the symbol. *)
Definition read_class_symbol : M pystr :=
  type_byte <- _read_byte ;;
  match RubyTypeM.from_byte type_byte with
  | Some SYMBOL => _read_symbol
  | Some SYMBOL_LINK => _read_symbol_link
  | _ => raise (RuntimeError (ExpectingSymbol type_byte))
  end.

(** ** Leaf productions *)

(** The loop of [_read_bignum] over [enumerate(data_bytes)]. *)
Fixpoint bignum_loop (data_bytes : list byte) (i : Z) (result : Z) : Z :=
  match data_bytes with
  | [] => result
  | b :: rest =>
      let byte_val := byte_val b in
      let unsigned_byte := if byte_val >=? 0 then byte_val else byte_val + 256 in
      bignum_loop rest (i + 1) (result + Z.shiftl unsigned_byte (i * 8))
  end.

(** [Marshal._read_bignum] *)
Definition _read_bignum : M Z :=
  _read_byte ;;
  length <- _read_int ;;
  data_bytes <- _read_bytes (length * 2) ;;
  ret (bignum_loop data_bytes 0 0).

(** [Marshal._read_string] *)
Definition _read_string : M pystr :=
  size <- _read_int ;;
  data_bytes <- _read_bytes size ;;
  decode data_bytes.

(** [Marshal._read_link] *)
Definition _read_link : M pyvalue :=
  link <- _read_int ;;
  ret (VObjectWrapper LINK (VInt link) []).

(** [Marshal._read_extended] *)
Definition _read_extended : M pyvalue :=
  ret (VObjectWrapper EXTENDED VNone []).

(** [Marshal._read_userdef] *)
Definition _read_userdef : M pyvalue :=
  symbol <- read_class_symbol ;;
  size <- _read_int ;;
  data_bytes <- _read_bytes size ;;
  text <- decode data_bytes ;;
  ret (VObjectWrapper USERDEF (VStr symbol) [VStr text]).

(** ** Productions that decode nested values *)

Section Productions.

(** [self._read], one level of nesting further down. *)
Variable read : M pyvalue.

(** [for _ in range(size): result.append(self._read())] *)
Fixpoint array_loop (n : nat) (result : list pyvalue) : M (list pyvalue) :=
  match n with
  | O => ret result
  | S n' => item <- read ;; array_loop n' (result ++ [item])
  end.

(** [Marshal._read_array]; [range(size)] is empty for a negative
    [size]. *)
Definition _read_array : M pyvalue :=
  size <- _read_int ;;
  result <- array_loop (Z.to_nat size) [] ;;
  ret (VList result).

(** The loop of [_read_hash]. *)
Fixpoint hash_loop (n : nat) (result : list (pyvalue * pyvalue))
  : M (list (pyvalue * pyvalue)) :=
  match n with
  | O => ret result
  | S n' =>
      key <- read ;;
      value <- read ;;
      match dict_setitem result key value with
      | Some result' => hash_loop n' result'
      | None => raise TypeError
      end
  end.

(** [Marshal._read_hash] *)
Definition _read_hash : M pyvalue :=
  size <- _read_int ;;
  result <- hash_loop (Z.to_nat size) [] ;;
  ret (VDict result).

(** The loop of [_read_ivar]. *)
Fixpoint ivar_loop (n : nat) (attachments : list pyvalue)
  : M (list pyvalue) :=
  match n with
  | O => ret attachments
  | S n' =>
      sym <- read ;;
      value <- read ;;
      ivar_loop n' ((attachments ++ [sym]) ++ [value])
  end.

(** [Marshal._read_ivar] *)
Definition _read_ivar : M pyvalue :=
  result <- read ;;
  size <- _read_int ;;
  ivar_loop (Z.to_nat size) [] ;;
  ret result.

(** The loop of [_read_object]: [wrapper.add] appends to the children. *)
Fixpoint object_loop (n : nat) (children : list pyvalue)
  : M (list pyvalue) :=
  match n with
  | O => ret children
  | S n' =>
      key <- read ;;
      value <- read ;;
      object_loop n' ((children ++ [key]) ++ [value])
  end.

(** [Marshal._read_object] *)
Definition _read_object : M pyvalue :=
  symbol <- read_class_symbol ;;
  size <- _read_int ;;
  children <- object_loop (Z.to_nat size) [] ;;
  ret (VObjectWrapper OBJECT (VStr symbol) children).

(** [Marshal._read_usr_marshal] *)
Definition _read_usr_marshal : M pyvalue :=
  symbol <- read_class_symbol ;;
  obj <- read ;;
  ret (VObjectWrapper USR_MARSHAL (VStr symbol) [obj]).

(** The body of [Marshal._read]. *)
Definition read_body : M pyvalue :=
  type_byte <- _read_byte ;;
  match RubyTypeM.from_byte type_byte with
  | None => raise (RuntimeError (NotAManagedType type_byte))
  | Some NIL => ret VNone
  | Some TRUE => ret (VBool true)
  | Some FALSE => ret (VBool false)
  | Some INT => z <- _read_int ;; ret (VInt z)
  | Some BIGNUM => z <- _read_bignum ;; ret (VInt z)
  | Some HASH => _read_hash
  | Some ARRAY => _read_array
  | Some STRING => s <- _read_string ;; ret (VStr s)
  | Some IVARS => _read_ivar
  | Some SYMBOL => s <- _read_symbol ;; ret (VStr s)
  | Some SYMBOL_LINK => s <- _read_symbol_link ;; ret (VStr s)
  | Some USR_MARSHAL => _read_usr_marshal
  | Some EXTENDED => _read_extended
  | Some USERDEF => _read_userdef
  | Some LINK => _read_link
  | Some OBJECT => _read_object
  | Some NONE => raise (RuntimeError (NotAManagedType type_byte))
  end.

End Productions.

(** [Marshal._read], with the depth of nesting the interpreter still
    allows. *)
Fixpoint _read (depth : nat) : M pyvalue :=
  match depth with
  | O => raise RecursionError
  | S depth' => read_body (_read depth')
  end.

(** [Marshal._load]: [and] does not read the second byte when the first
    is not 4. *)
Definition _load (depth : nat) : M pyvalue :=
  major <- _read_byte ;;
  if major =? 4 then
    minor <- _read_byte ;;
    if minor =? 8 then _read depth
    else raise (RuntimeError UnsupportedMarshalVersion)
  else raise (RuntimeError UnsupportedMarshalVersion).

(** What the caller of a class method gets: the instance is dropped. *)
Inductive result :=
| Value (v : pyvalue)
| Error (e : exn).

Definition returned (o : outcome pyvalue) : result :=
  match o with
  | Return v _ => Value v
  | Raise e => Error e
  end.

(** [Marshal.load] *)
Definition load (depth : nat) (data : list byte) : result :=
  returned (_load depth (__init__ data)).

(** What [base64.b64decode] does with a [str]: it gives the bytes, or
    raises [binascii.Error] for text that is no base64, or, for a text
    with a character that is not ASCII, a [ValueError] that is no
    [binascii.Error]. *)
Inductive b64decoded :=
| Decoded (data : list byte)
| NotBase64
| NotAscii.

(** What the caller of [load_b64] gets: what [load] gives, or the
    [ValueError] of [base64.b64decode]. *)
Inductive b64_result :=
| Loaded (r : result)
| ValueError.

Section Base64.

(** [base64.b64decode] of the standard library. *)
Variable b64decode : pystr -> b64decoded.

(** [Marshal.load_b64] *)
Definition load_b64 (depth : nat) (b64_data : pystr) : b64_result :=
  match b64decode b64_data with
  | Decoded data => Loaded (returned (_load depth (__init__ data)))
  | NotBase64 => Loaded (Error BinasciiError)
  | NotAscii => ValueError
  end.

End Base64.

(** ** Notions the properties are stated with *)

(** The instance with its cursor moved by [n]. *)
Definition advance (n : Z) (self : Marshal) : Marshal :=
  {| _data := _data self;
     _position := _position self + n;
     _symbols := _symbols self |}.

(** The signed reading of a stored byte, -128..127. *)
Definition signed (b : byte) : Z :=
  if byte_val b <? 128 then byte_val b else byte_val b - 256.

(** The bytes [bs] are what the buffer holds from index [p] on. *)
Definition holds_at (data : list byte) (p : Z) (bs : list byte) : Prop :=
  exists before after, data = before ++ bs ++ after /\ len before = p.

(** Sum of [byte_i * 256^i], the bytes taken unsigned. *)
Fixpoint little_endian (bs : list byte) : Z :=
  match bs with
  | [] => 0
  | b :: rest => byte_val b + 256 * little_endian rest
  end.

(** The reconstruction of a negative number as the specification words
    it: from the accumulator, for each byte [b] taken unsigned, clear the
    byte window [i] with the mask [~(0xFF << 8*i)], then OR in
    [b << 8*i]. *)
Fixpoint window_fill (bs : list byte) (i : Z) (acc : Z) : Z :=
  match bs with
  | [] => acc
  | b :: rest =>
      window_fill rest (i + 1)
        (Z.lor (Z.land acc (Z.lnot (Z.shiftl 255 (8 * i))))
               (Z.shiftl (byte_val b) (8 * i)))
  end.

(** The packed fixnum as the specification gives it: the five rules in
    order, on the leading signed byte [c] and the bytes after it. *)
Definition packed_fixnum (c : Z) (payload : list byte) : Z :=
  if c =? 0 then 0
  else if c >? 4 then c - 5
  else if c <? -4 then c + 5
  else if c >? 0 then little_endian payload
  else window_fill payload 0 (-1).

(** How many bytes follow the leading byte [c]. *)
Definition payload_length (c : Z) : nat :=
  if (c =? 0) || (c >? 4) || (c <? -4) then O else Z.to_nat (Z.abs c).

(** ** The error kinds of the specification *)

(** The six error kinds of the specification. *)
Inductive error_kind :=
| UnexpectedEndOfInput
| UnsupportedVersion
| UnsupportedType
| UnexpectedType
| InvalidSymbolLinkKind
| InvalidEncoding.

(** The kind an exception of the module stands for, if any: the
    [RuntimeError]s by their message, the two decoding errors of the
    standard library as [InvalidEncoding]. *)
Definition kind_of (e : exn) : option error_kind :=
  match e with
  | RuntimeError (UnexpectedEndOfData _) => Some UnexpectedEndOfInput
  | RuntimeError (NotEnoughData _ _) => Some UnexpectedEndOfInput
  | RuntimeError UnsupportedMarshalVersion => Some UnsupportedVersion
  | RuntimeError (NotAManagedType _) => Some UnsupportedType
  | RuntimeError (ExpectingSymbol _) => Some UnexpectedType
  | RuntimeError (InvalidSymbolLink _) => Some InvalidSymbolLinkKind
  | UnicodeDecodeError => Some InvalidEncoding
  | BinasciiError => Some InvalidEncoding
  | IndexError => None
  | TypeError => None
  | RecursionError => None
  end.

(** ** The stream of a hash and the dict it is stored in *)

(** The alternating key/value stream of a hash body as the
    specification describes the Mapping: [n] pairs, accumulated
    positionally. *)
Fixpoint stream_pairs (read : M pyvalue) (n : nat)
  (acc : list (pyvalue * pyvalue)) : M (list (pyvalue * pyvalue)) :=
  match n with
  | O => ret acc
  | S n' =>
      key <- read ;;
      value <- read ;;
      stream_pairs read n' (acc ++ [(key, value)])
  end.

(** [result.get(key)]: the value stored under an equal key. *)
Definition dict_get (result : list (pyvalue * pyvalue)) (key : pyvalue)
  : option pyvalue :=
  option_map snd (find (fun kv => key_eqb (fst kv) key) result).

(** The value of the last pair of the stream whose key equals [key]. *)
Definition last_written (pairs : list (pyvalue * pyvalue)) (key : pyvalue)
  : option pyvalue :=
  dict_get (rev pairs) key.

(** No key of the entries equals a later one. *)
Fixpoint distinct_keys (result : list (pyvalue * pyvalue)) : Prop :=
  match result with
  | [] => True
  | (k, _) :: rest =>
      (forall kv, In kv rest -> key_eqb k (fst kv) = false)
      /\ distinct_keys rest
  end.

(** The entries after storing the pairs one after the other. *)
Definition dict_of_pairs (pairs : list (pyvalue * pyvalue))
  : list (pyvalue * pyvalue) :=
  fold_left (fun result kv => dict_store result (fst kv) (snd kv)) pairs [].

(** ** Calls in a process *)

(** The objects of the module that change while a process runs: the
    instances of [Marshal], and the lists their [_symbols] refer to. An
    attribute that holds a list holds a reference to it, the address of
    the list in the store of the process; two instances with the same
    address in [_symbols] would share one symbol table. *)
Module Process.

Definition address := nat.

Inductive object :=
| Instance (data : list byte) (position : Z) (symbols : address)
| Symbols (items : list pystr).

Definition store := list object.

(** How a method ends on a store: it returns, or it raises, and the
    store stays as the method left it; [Wrong] stands for the use of a
    reference that holds no object of the kind expected, which does not
    happen in Python. *)
Inductive outcome (A : Type) :=
| Return (a : A) (st : store)
| Raise (e : exn) (st : store)
| Wrong.
Arguments Return {A} a st.
Arguments Raise {A} e st.
Arguments Wrong {A}.

Definition M (A : Type) := store -> outcome A.

Definition ret {A} (a : A) : M A := fun st => Return a st.
Definition raise {A} (e : exn) : M A := fun st => Raise e st.
Definition bind {A B} (c : M A) (k : A -> M B) : M B :=
  fun st =>
    match c st with
    | Return a st' => k a st'
    | Raise e st' => Raise e st'
    | Wrong => Wrong
    end.

Declare Scope process_scope.
Notation "x <- c ;; k" := (bind c (fun x => k))
  (at level 61, c at next level, right associativity) : process_scope.
Notation "c ;; k" := (bind c (fun _ => k))
  (at level 61, right associativity) : process_scope.
Local Open Scope process_scope.

(** The store with the object at [a] replaced. *)
Fixpoint update (st : store) (a : address) (o : object) : store :=
  match st, a with
  | [], _ => []
  | _ :: rest, O => o :: rest
  | x :: rest, S a' => x :: update rest a' o
  end.

(** A new object, at the first free address. *)
Definition allocate (o : object) : M address :=
  fun st => Return (length st) (st ++ [o]).

(** [self._data], [self._position] and [self._symbols] *)
Definition attributes (self : address) : M (list byte * Z * address) :=
  fun st =>
    match nth_error st self with
    | Some (Instance data position symbols) =>
        Return (data, position, symbols) st
    | _ => Wrong
    end.

(** [self._position = position] *)
Definition set_position (self : address) (position : Z) : M unit :=
  fun st =>
    match nth_error st self with
    | Some (Instance data _ symbols) =>
        Return tt (update st self (Instance data position symbols))
    | _ => Wrong
    end.

(** The items of the list at [l]. *)
Definition items_of (l : address) : M (list pystr) :=
  fun st =>
    match nth_error st l with
    | Some (Symbols items) => Return items st
    | _ => Wrong
    end.

(** [l.append(x)] *)
Definition append (l : address) (x : pystr) : M unit :=
  fun st =>
    match nth_error st l with
    | Some (Symbols items) => Return tt (update st l (Symbols (items ++ [x])))
    | _ => Wrong
    end.

(** [data_bytes.decode('utf-8')] *)
Definition decode (data_bytes : list byte) : M pystr :=
  match decode_utf8 data_bytes with
  | Some s => ret s
  | None => raise UnicodeDecodeError
  end.

Section Methods.

(** The instance the methods are called on. *)
Variable self : address.

(** [Marshal._read_byte] *)
Definition _read_byte : M Z :=
  a <- attributes self ;;
  let '(data, position, _) := a in
  if position >=? len data then
    raise (RuntimeError (UnexpectedEndOfData position))
  else
    match py_getitem data position with
    | None => raise IndexError
    | Some b =>
        let byte_val := byte_val b in
        set_position self (position + 1) ;;
        ret (if byte_val <? 128 then byte_val else byte_val - 256)
    end.

(** [Marshal._read_bytes] *)
Definition _read_bytes (count : Z) : M (list byte) :=
  a <- attributes self ;;
  let '(data, position, _) := a in
  if position + count >? len data then
    raise (RuntimeError (NotEnoughData count (len data - position)))
  else
    let result := py_slice data position (position + count) in
    set_position self (position + count) ;;
    ret result.

Fixpoint read_int_positive (n : nat) (i : Z) (x : Z) : M Z :=
  match n with
  | O => ret x
  | S n' =>
      byte_val <- _read_byte ;;
      let unsigned_byte := if byte_val >=? 0 then byte_val else byte_val + 256 in
      read_int_positive n' (i + 1) (Z.lor x (Z.shiftl unsigned_byte (8 * i)))
  end.

Fixpoint read_int_negative (n : nat) (i : Z) (x : Z) : M Z :=
  match n with
  | O => ret x
  | S n' =>
      let a := Z.lnot (Z.shiftl 255 (8 * i)) in
      b <- _read_byte ;;
      let b := Z.shiftl b (8 * i) in
      read_int_negative n' (i + 1) (Z.lor (Z.land x a) b)
  end.

(** [Marshal._read_int] *)
Definition _read_int : M Z :=
  c <- _read_byte ;;
  if c =? 0 then ret 0
  else if c >? 4 then ret (c - 5)
  else if c <? -4 then ret (c + 5)
  else if c >? 0 then read_int_positive (Z.to_nat c) 0 0
  else read_int_negative (Z.to_nat (- c)) 0 (-1).

(** [self._symbols.append(symbol)]: the symbol goes to the list that
    [self._symbols] refers to. *)
Definition symbols_append (symbol : pystr) : M unit :=
  a <- attributes self ;;
  let '(_, _, symbols) := a in
  append symbols symbol.

(** [Marshal._read_symbol] *)
Definition _read_symbol : M pystr :=
  size <- _read_int ;;
  symbol <- (if size =? 0 then ret colon
             else data_bytes <- _read_bytes size ;;
                  text <- decode data_bytes ;;
                  ret (colon ++ text)) ;;
  symbols_append symbol ;;
  ret symbol.

(** The guard and the lookup of [_read_symbol_link], on the list that
    [self._symbols] refers to. *)
Definition symbol_at (link : Z) : M pystr :=
  a <- attributes self ;;
  let '(_, _, symbols) := a in
  table <- items_of symbols ;;
  if link >=? len table then raise (RuntimeError (InvalidSymbolLink link))
  else
    match py_getitem table link with
    | Some symbol => ret symbol
    | None => raise IndexError
    end.

(** [Marshal._read_symbol_link] *)
Definition _read_symbol_link : M pystr :=
  link <- _read_int ;;
  symbol_at link.

Definition read_class_symbol : M pystr :=
  type_byte <- _read_byte ;;
  match RubyTypeM.from_byte type_byte with
  | Some SYMBOL => _read_symbol
  | Some SYMBOL_LINK => _read_symbol_link
  | _ => raise (RuntimeError (ExpectingSymbol type_byte))
  end.

(** [Marshal._read_bignum] *)
Definition _read_bignum : M Z :=
  _read_byte ;;
  length <- _read_int ;;
  data_bytes <- _read_bytes (length * 2) ;;
  ret (bignum_loop data_bytes 0 0).

(** [Marshal._read_string] *)
Definition _read_string : M pystr :=
  size <- _read_int ;;
  data_bytes <- _read_bytes size ;;
  decode data_bytes.

(** [Marshal._read_link] *)
Definition _read_link : M pyvalue :=
  link <- _read_int ;;
  ret (VObjectWrapper LINK (VInt link) []).

(** [Marshal._read_extended] *)
Definition _read_extended : M pyvalue :=
  ret (VObjectWrapper EXTENDED VNone []).

(** [Marshal._read_userdef] *)
Definition _read_userdef : M pyvalue :=
  symbol <- read_class_symbol ;;
  size <- _read_int ;;
  data_bytes <- _read_bytes size ;;
  text <- decode data_bytes ;;
  ret (VObjectWrapper USERDEF (VStr symbol) [VStr text]).

Section Productions.

(** [self._read], one level of nesting further down. *)
Variable read : M pyvalue.

Fixpoint array_loop (n : nat) (result : list pyvalue) : M (list pyvalue) :=
  match n with
  | O => ret result
  | S n' => item <- read ;; array_loop n' (result ++ [item])
  end.

(** [Marshal._read_array] *)
Definition _read_array : M pyvalue :=
  size <- _read_int ;;
  result <- array_loop (Z.to_nat size) [] ;;
  ret (VList result).

Fixpoint hash_loop (n : nat) (result : list (pyvalue * pyvalue))
  : M (list (pyvalue * pyvalue)) :=
  match n with
  | O => ret result
  | S n' =>
      key <- read ;;
      value <- read ;;
      match dict_setitem result key value with
      | Some result' => hash_loop n' result'
      | None => raise TypeError
      end
  end.

(** [Marshal._read_hash] *)
Definition _read_hash : M pyvalue :=
  size <- _read_int ;;
  result <- hash_loop (Z.to_nat size) [] ;;
  ret (VDict result).

Fixpoint ivar_loop (n : nat) (attachments : list pyvalue)
  : M (list pyvalue) :=
  match n with
  | O => ret attachments
  | S n' =>
      sym <- read ;;
      value <- read ;;
      ivar_loop n' ((attachments ++ [sym]) ++ [value])
  end.

(** [Marshal._read_ivar] *)
Definition _read_ivar : M pyvalue :=
  result <- read ;;
  size <- _read_int ;;
  ivar_loop (Z.to_nat size) [] ;;
  ret result.

Fixpoint object_loop (n : nat) (children : list pyvalue)
  : M (list pyvalue) :=
  match n with
  | O => ret children
  | S n' =>
      key <- read ;;
      value <- read ;;
      object_loop n' ((children ++ [key]) ++ [value])
  end.

(** [Marshal._read_object] *)
Definition _read_object : M pyvalue :=
  symbol <- read_class_symbol ;;
  size <- _read_int ;;
  children <- object_loop (Z.to_nat size) [] ;;
  ret (VObjectWrapper OBJECT (VStr symbol) children).

(** [Marshal._read_usr_marshal] *)
Definition _read_usr_marshal : M pyvalue :=
  symbol <- read_class_symbol ;;
  obj <- read ;;
  ret (VObjectWrapper USR_MARSHAL (VStr symbol) [obj]).

(** The body of [Marshal._read]. *)
Definition read_body : M pyvalue :=
  type_byte <- _read_byte ;;
  match RubyTypeM.from_byte type_byte with
  | None => raise (RuntimeError (NotAManagedType type_byte))
  | Some NIL => ret VNone
  | Some TRUE => ret (VBool true)
  | Some FALSE => ret (VBool false)
  | Some INT => z <- _read_int ;; ret (VInt z)
  | Some BIGNUM => z <- _read_bignum ;; ret (VInt z)
  | Some HASH => _read_hash
  | Some ARRAY => _read_array
  | Some STRING => s <- _read_string ;; ret (VStr s)
  | Some IVARS => _read_ivar
  | Some SYMBOL => s <- _read_symbol ;; ret (VStr s)
  | Some SYMBOL_LINK => s <- _read_symbol_link ;; ret (VStr s)
  | Some USR_MARSHAL => _read_usr_marshal
  | Some EXTENDED => _read_extended
  | Some USERDEF => _read_userdef
  | Some LINK => _read_link
  | Some OBJECT => _read_object
  | Some NONE => raise (RuntimeError (NotAManagedType type_byte))
  end.

End Productions.

(** [Marshal._read] *)
Fixpoint _read (depth : nat) : M pyvalue :=
  match depth with
  | O => raise RecursionError
  | S depth' => read_body (_read depth')
  end.

(** [Marshal._load] *)
Definition _load (depth : nat) : M pyvalue :=
  major <- _read_byte ;;
  if major =? 4 then
    minor <- _read_byte ;;
    if minor =? 8 then _read depth
    else raise (RuntimeError UnsupportedMarshalVersion)
  else raise (RuntimeError UnsupportedMarshalVersion).

End Methods.

(** [cls(data)]: a new instance, and in [__init__] a new list for its
    [_symbols]. *)
Definition new (data : list byte) : M address :=
  fun st =>
    let self := length st in
    Return self (st ++ [Instance data 0 (S self); Symbols []]).

(** [Marshal.load] *)
Definition load (depth : nat) (data : list byte) : M pyvalue :=
  self <- new data ;;
  _load self depth.

(** What the caller of [load] gets, if the call did not go wrong. *)
Definition result_of (o : outcome pyvalue) : option result :=
  match o with
  | Return v _ => Some (Value v)
  | Raise e _ => Some (Error e)
  | Wrong => None
  end.

(** The call ended with [r] and left the store [st]. *)
Definition ended (r : result) (st : store) : outcome pyvalue :=
  match r with
  | Value v => Return v st
  | Error e => Raise e st
  end.

(** The calls of a session, one after the other on the store the one
    before left, whether it returned or raised: their results and the
    store at the end. *)
Fixpoint session (depth : nat) (inputs : list (list byte)) (st : store)
  : option (list result * store) :=
  match inputs with
  | [] => Some ([], st)
  | data :: rest =>
      match load depth data st with
      | Return v st' =>
          match session depth rest st' with
          | Some (rs, st'') => Some (Value v :: rs, st'')
          | None => None
          end
      | Raise e st' =>
          match session depth rest st' with
          | Some (rs, st'') => Some (Error e :: rs, st'')
          | None => None
          end
      | Wrong => None
      end
  end.

End Process.

(** The instance at [self] in the store, with the list its [_symbols]
    refers to at [symbols], is [inst]. *)
Definition stored (st : Process.store) (self symbols : Process.address)
  (inst : Marshal) : Prop :=
  nth_error st self
  = Some (Process.Instance (_data inst) (_position inst) symbols)
  /\ nth_error st symbols = Some (Process.Symbols (_symbols inst)).

(** From [st] to [st'] no object but those at [self] and [symbols] has
    changed, and none was added. *)
Definition others_kept (st st' : Process.store)
  (self symbols : Process.address) : Prop :=
  length st' = length st
  /\ forall a, a <> self -> a <> symbols -> nth_error st' a = nth_error st a.

(** The method [hm] on the objects of the store does what [m] does on
    the instance as a value: it returns or raises the same, leaves the
    instance and its symbol table as [m] leaves them when it returns,
    and changes no other object. *)
Definition refines {A} (self symbols : Process.address)
  (hm : Process.M A) (m : M A) : Prop :=
  forall st inst,
    stored st self symbols inst ->
    match m inst with
    | Return a inst' =>
        exists st',
          hm st = Process.Return a st'
          /\ stored st' self symbols inst'
          /\ others_kept st st' self symbols
    | Raise e =>
        exists st',
          hm st = Process.Raise e st' /\ others_kept st st' self symbols
    end.

(** ** Well-formed encodings *)

(** [e] is a complete encoding of [z] under the integer codec: a leading
    byte and the payload it announces. *)
Definition fixnum (e : list byte) (z : Z) : Prop :=
  exists c payload,
    e = c :: payload
    /\ length payload = payload_length (signed c)
    /\ z = packed_fixnum (signed c) payload.

(** A symbol or a link to one, on a table of [s] symbols; the table has
    [s'] symbols afterwards. *)
Inductive symbol_or_link : nat -> list byte -> nat -> Prop :=
| sl_symbol s e bs :
    fixnum e (len bs) -> symbol_or_link s (x3a :: e ++ bs) (S s)
| sl_link s e i :
    fixnum e i -> 0 <= i < Z.of_nat s -> symbol_or_link s (x3b :: e) s.

(** One complete well-formed value encoding, on a table of [s] symbols
    before and [s'] after: every count is the encoding of a number that
    is not negative and is followed by as many bytes, values or pairs,
    and every symbol link points into the table. *)
Inductive well_formed : nat -> list byte -> nat -> Prop :=
| wf_nil s : well_formed s [x30] s
| wf_true s : well_formed s [x54] s
| wf_false s : well_formed s [x46] s
| wf_int s e z : fixnum e z -> well_formed s (x69 :: e) s
| wf_bignum s sign e n bs :
    fixnum e n -> len bs = 2 * n -> well_formed s (x6c :: sign :: e ++ bs) s
| wf_string s e bs :
    fixnum e (len bs) -> well_formed s (x22 :: e ++ bs) s
| wf_symbol s e s' : symbol_or_link s e s' -> well_formed s e s'
| wf_array s e n items s' :
    fixnum e (Z.of_nat n) -> well_formed_items n s items s' ->
    well_formed s (x5b :: e ++ items) s'
| wf_hash s e n pairs s' :
    fixnum e (Z.of_nat n) -> well_formed_pairs n s pairs s' ->
    well_formed s (x7b :: e ++ pairs) s'
| wf_ivars s payload s1 e n attributes s2 :
    well_formed s payload s1 ->
    fixnum e (Z.of_nat n) -> well_formed_pairs n s1 attributes s2 ->
    well_formed s (x49 :: payload ++ e ++ attributes) s2
| wf_object s name s1 e n pairs s2 :
    symbol_or_link s name s1 ->
    fixnum e (Z.of_nat n) -> well_formed_pairs n s1 pairs s2 ->
    well_formed s (x6f :: name ++ e ++ pairs) s2
| wf_userdef s name s1 e bs :
    symbol_or_link s name s1 -> fixnum e (len bs) ->
    well_formed s (x75 :: name ++ e ++ bs) s1
| wf_usr_marshal s name s1 obj s2 :
    symbol_or_link s name s1 -> well_formed s1 obj s2 ->
    well_formed s (x55 :: name ++ obj) s2
| wf_extended s : well_formed s [x65] s
| wf_link s e z : fixnum e z -> well_formed s (x40 :: e) s
with well_formed_items : nat -> nat -> list byte -> nat -> Prop :=
| items_nil s : well_formed_items O s [] s
| items_cons n s item s1 items s2 :
    well_formed s item s1 -> well_formed_items n s1 items s2 ->
    well_formed_items (S n) s (item ++ items) s2
with well_formed_pairs : nat -> nat -> list byte -> nat -> Prop :=
| pairs_nil s : well_formed_pairs O s [] s
| pairs_cons n s key s1 value s2 pairs s3 :
    well_formed s key s1 -> well_formed s1 value s2 ->
    well_formed_pairs n s2 pairs s3 ->
    well_formed_pairs (S n) s (key ++ value ++ pairs) s3.

Scheme well_formed_min := Minimality for well_formed Sort Prop
  with well_formed_items_min := Minimality for well_formed_items Sort Prop
  with well_formed_pairs_min := Minimality for well_formed_pairs Sort Prop.
Combined Scheme well_formed_mutind
  from well_formed_min, well_formed_items_min, well_formed_pairs_min.

(** ** Outcomes that do not depend on the rest of the buffer *)

(** How a method ended, the buffer left out. *)
Inductive shape (A : Type) :=
| Returns (a : A) (symbols : list pystr)
| Raises (e : exn).
Arguments Returns {A} a symbols.
Arguments Raises {A} e.

Definition run_of {A} (data : list byte) (p : Z) (sh : shape A) : outcome A :=
  match sh with
  | Returns a symbols => Return a (mkMarshal data p symbols)
  | Raises e => Raise e
  end.

(** The method [c], started at [p] with the table [t] on any buffer that
    holds [bs] there, ends in one and the same way, with the cursor
    just after [bs] and [Q] of what it returns and the table. *)
Definition frames {A} (c : M A) (bs : list byte) (p : Z) (t : list pystr)
  (Q : A -> list pystr -> Prop) : Prop :=
  exists sh,
    (forall data,
        holds_at data p bs ->
        c (mkMarshal data p t) = run_of data (p + len bs) sh)
    /\ match sh with Returns a t' => Q a t' | Raises _ => True end.

(** ** The buffers the properties are checked on *)

(** The standard encodings of -123, -1, 0, 1, 122, 123, 255, 65536 and
    -65536, each after the version header and the INT tag. *)
Definition standard_fixnums : list (list byte * Z) :=
  [([x04; x08; x69; x80], -123);
   ([x04; x08; x69; xfa], -1);
   ([x04; x08; x69; x00], 0);
   ([x04; x08; x69; x06], 1);
   ([x04; x08; x69; x7f], 122);
   ([x04; x08; x69; x01; x7b], 123);
   ([x04; x08; x69; x01; xff], 255);
   ([x04; x08; x69; x03; x00; x00; x01], 65536);
   ([x04; x08; x69; xfe; x00; x00], -65536)].

(** A STRING whose length prefix decodes to -5. *)
Definition negative_length_string : list byte := [x04; x08; x22; xf6].

(** A SYMBOL_LINK with index -1 on an empty table. *)
Definition negative_link_empty_table : list byte := [x04; x08; x3b; xfa].

(** The hash [{[] => nil}]. *)
Definition array_keyed_hash : list byte :=
  [x04; x08; x7b; x06; x5b; x00; x30].

(** The array [[:a, <symbol link -1>]]. *)
Definition negative_link_array : list byte :=
  [x04; x08; x5b; x07; x3a; x06; x61; x3b; xfa].

(** The hash [{1 => 2, 1 => 3}] as a stream: two pairs with the key 1. *)
Definition duplicate_key_hash : list byte :=
  [x04; x08; x7b; x07; x69; x06; x69; x07; x69; x06; x69; x08].

(** An ARRAY and a HASH whose count decodes to -1. *)
Definition negative_count_array : list byte := [x04; x08; x5b; xfa].
Definition negative_count_hash : list byte := [x04; x08; x7b; xfa].

(** ** What a call leaves of the instance *)

(** The instance [self'] is [self] some reads later: the same buffer,
    and the symbol table of [self] with symbols added at its end. *)
Definition extends (self self' : Marshal) : Prop :=
  _data self' = _data self
  /\ exists added, _symbols self' = _symbols self ++ added.

(** The method [c] only moves the cursor and adds symbols. *)
Definition keeps {A} (c : M A) : Prop :=
  forall self a self', c self = Return a self' -> extends self self'.

(** The children of an OBJECT for the pairs of its stream: key, value,
    key, value. *)
Definition flatten_pairs (pairs : list (pyvalue * pyvalue)) : list pyvalue :=
  flat_map (fun kv => [fst kv; snd kv]) pairs.

(** The method [c] only moves the cursor: the buffer and the symbol
    table stay as they are. *)
Definition only_moves {A} (c : M A) : Prop :=
  forall self a self',
    c self = Return a self' ->
    _data self' = _data self /\ _symbols self' = _symbols self.

(** The method [c2] does what [c1] does wherever [c1] does not run out
    of nesting depth. *)
Definition below {A} (c1 c2 : M A) : Prop :=
  forall self, c1 self = Raise RecursionError \/ c2 self = c1 self.

(** ** The value of an encoding *)

(** A symbol or a link to one, on the table [t]: the symbol it stands
    for and the table afterwards. The text of a symbol is valid UTF-8,
    a link is an index into the table. *)
Inductive symbol_text
  : list pystr -> list byte -> pystr -> list pystr -> Prop :=
| st_symbol t e bs text :
    fixnum e (len bs) -> decode_utf8 bs = Some text ->
    symbol_text t (x3a :: e ++ bs) (colon ++ text) (t ++ [colon ++ text])
| st_link t e i symbol :
    fixnum e i -> 0 <= i -> nth_error t (Z.to_nat i) = Some symbol ->
    symbol_text t (x3b :: e) symbol t.

(** The bytes are one complete encoding of the value, production by
    production, on the table [t] before and [t'] after: every count is
    the encoding of the number of bytes, values or pairs that follow,
    text is valid UTF-8, every symbol link is an index into the table,
    and the keys of a hash are hashable. The value of a hash is the
    dict of its pairs, that of IVARS the payload. *)
Inductive decodes_to
  : list pystr -> list byte -> pyvalue -> list pystr -> Prop :=
| d_nil t : decodes_to t [x30] VNone t
| d_true t : decodes_to t [x54] (VBool true) t
| d_false t : decodes_to t [x46] (VBool false) t
| d_int t e z : fixnum e z -> decodes_to t (x69 :: e) (VInt z) t
| d_bignum t sign e n bs :
    fixnum e n -> len bs = 2 * n ->
    decodes_to t (x6c :: sign :: e ++ bs) (VInt (little_endian bs)) t
| d_string t e bs text :
    fixnum e (len bs) -> decode_utf8 bs = Some text ->
    decodes_to t (x22 :: e ++ bs) (VStr text) t
| d_symbol t e symbol t' :
    symbol_text t e symbol t' -> decodes_to t e (VStr symbol) t'
| d_array t e items vs t' :
    fixnum e (len vs) -> decodes_items t items vs t' ->
    decodes_to t (x5b :: e ++ items) (VList vs) t'
| d_hash t e pairs kvs t' :
    fixnum e (len kvs) -> decodes_pairs t pairs kvs t' ->
    Forall (fun kv => hashable (fst kv) = true) kvs ->
    decodes_to t (x7b :: e ++ pairs) (VDict (dict_of_pairs kvs)) t'
| d_ivars t payload v t1 e attributes kvs t2 :
    decodes_to t payload v t1 ->
    fixnum e (len kvs) -> decodes_pairs t1 attributes kvs t2 ->
    decodes_to t (x49 :: payload ++ e ++ attributes) v t2
| d_object t name symbol t1 e pairs kvs t2 :
    symbol_text t name symbol t1 ->
    fixnum e (len kvs) -> decodes_pairs t1 pairs kvs t2 ->
    decodes_to t (x6f :: name ++ e ++ pairs)
               (VObjectWrapper OBJECT (VStr symbol) (flatten_pairs kvs)) t2
| d_userdef t name symbol t1 e bs text :
    symbol_text t name symbol t1 ->
    fixnum e (len bs) -> decode_utf8 bs = Some text ->
    decodes_to t (x75 :: name ++ e ++ bs)
               (VObjectWrapper USERDEF (VStr symbol) [VStr text]) t1
| d_usr_marshal t name symbol t1 obj v t2 :
    symbol_text t name symbol t1 -> decodes_to t1 obj v t2 ->
    decodes_to t (x55 :: name ++ obj)
               (VObjectWrapper USR_MARSHAL (VStr symbol) [v]) t2
| d_extended t : decodes_to t [x65] (VObjectWrapper EXTENDED VNone []) t
| d_link t e z :
    fixnum e z -> decodes_to t (x40 :: e) (VObjectWrapper LINK (VInt z) []) t
with decodes_items
  : list pystr -> list byte -> list pyvalue -> list pystr -> Prop :=
| di_nil t : decodes_items t [] [] t
| di_cons t item v t1 items vs t2 :
    decodes_to t item v t1 -> decodes_items t1 items vs t2 ->
    decodes_items t (item ++ items) (v :: vs) t2
with decodes_pairs
  : list pystr -> list byte -> list (pyvalue * pyvalue) -> list pystr
    -> Prop :=
| dp_nil t : decodes_pairs t [] [] t
| dp_cons t key k t1 value v t2 pairs kvs t3 :
    decodes_to t key k t1 -> decodes_to t1 value v t2 ->
    decodes_pairs t2 pairs kvs t3 ->
    decodes_pairs t (key ++ value ++ pairs) ((k, v) :: kvs) t3.

Scheme decodes_to_min := Minimality for decodes_to Sort Prop
  with decodes_items_min := Minimality for decodes_items Sort Prop
  with decodes_pairs_min := Minimality for decodes_pairs Sort Prop.
Combined Scheme decodes_mutind
  from decodes_to_min, decodes_items_min, decodes_pairs_min.

(** The method [c], started at [p] with the table [t] on any buffer
    that holds [bs] there, returns [a] with the cursor just after [bs]
    and the table [t']. *)
Definition returns_at {A} (c : M A) (bs : list byte) (p : Z)
  (t : list pystr) (a : A) (t' : list pystr) : Prop :=
  forall data,
    holds_at data p bs ->
    c (mkMarshal data p t) = Return a (mkMarshal data (p + len bs) t').

(** The calls [read] makes one after the other, each on the instance
    the one before left: they return [items], in this order, and leave
    [self']. *)
Inductive reads_in_turn {A} (read : M A)
  : Marshal -> list A -> Marshal -> Prop :=
| reads_none self : reads_in_turn read self [] self
| reads_next self item self1 items self2 :
    read self = Return item self1 ->
    reads_in_turn read self1 items self2 ->
    reads_in_turn read self (item :: items) self2.

(** ** Text, the other way *)

(** The byte of a value 0..255. *)
Definition byte_of (z : Z) : byte :=
  match Byte.of_N (Z.to_N z) with
  | Some b => b
  | None => x00
  end.

(** The UTF-8 bytes of one code point; [None] for a surrogate, which
    [str.encode('utf-8')] refuses with [UnicodeEncodeError] (and for
    what is no code point). *)
Definition encode_code_point (cp : Z) : option (list byte) :=
  if cp <? 0 then None
  else if cp <? 128 then Some [byte_of cp]
  else if cp <? 2048 then
    Some [byte_of (192 + cp / 64); byte_of (128 + cp mod 64)]
  else if cp <? 65536 then
    if (55296 <=? cp) && (cp <=? 57343) then None
    else Some [byte_of (224 + cp / 4096);
               byte_of (128 + (cp / 64) mod 64);
               byte_of (128 + cp mod 64)]
  else if cp <? 1114112 then
    Some [byte_of (240 + cp / 262144);
          byte_of (128 + (cp / 4096) mod 64);
          byte_of (128 + (cp / 64) mod 64);
          byte_of (128 + cp mod 64)]
  else None.

(** [s.encode('utf-8')] *)
Fixpoint encode_utf8 (s : pystr) : option (list byte) :=
  match s with
  | [] => Some []
  | cp :: rest =>
      match encode_code_point cp, encode_utf8 rest with
      | Some bs, Some more => Some (bs ++ more)
      | _, _ => None
      end
  end.

(** [a == b] on two [str]. *)
Definition str_eqb (a b : pystr) : bool :=
  if list_eq_dec Z.eq_dec a b then true else false.

(** [str(n)] and [f"{n}"] for an int: the decimal digits, after '-' for
    a negative one. *)
Definition str_of_int (n : Z) : pystr :=
  map (fun c => Z.of_N (Ascii.N_of_ascii c))
      (String.list_ascii_of_string
         (DecimalString.NilZero.string_of_int (Z.to_int n))).

(** ** activesupport.key_generator *)

Module KeyGenerator.

(** The [RuntimeError] "Key generation failed" is the only exception
    that leaves [_generate_key]. *)
Inductive result :=
| Key (key : list byte)
| Raise.

(** The instance; [_key_cache] is [None] or a dict in insertion order.
    The lock is left out: one call runs at a time. *)
Record instance := mk {
  _secret : pystr;
  _iterations : Z;
  _key_cache : option (list (pystr * list byte))
}.

(** [KeyGenerator.__init__] *)
Definition __init__ (secret : pystr) (iterations : Z) (with_cache : bool)
  : instance :=
  {| _secret := secret;
     _iterations := iterations;
     _key_cache := if with_cache then Some [] else None |}.

(** [cache_key in cache] and [cache[cache_key]] at once. *)
Definition cache_get (cache : list (pystr * list byte)) (cache_key : pystr)
  : option (list byte) :=
  option_map snd (find (fun kv => str_eqb (fst kv) cache_key) cache).

(** [cache[cache_key] = key] *)
Fixpoint cache_set (cache : list (pystr * list byte)) (cache_key : pystr)
  (key : list byte) : list (pystr * list byte) :=
  match cache with
  | [] => [(cache_key, key)]
  | (k, v) :: rest =>
      if str_eqb k cache_key then (k, key) :: rest
      else (k, v) :: cache_set rest cache_key key
  end.

(** [f"{salt}|{key_size}"] *)
Definition cache_key (salt : pystr) (key_size : Z) : pystr :=
  salt ++ [124] ++ str_of_int key_size.

Section Pbkdf2.

(** [hashlib.pbkdf2_hmac('sha1', password, salt, iterations, dklen)];
    [None] when it raises. *)
Variable pbkdf2_hmac_sha1 :
  list byte -> list byte -> Z -> Z -> option (list byte).

(** [KeyGenerator._generate_key]: every exception inside the [try]
    becomes the [RuntimeError]. *)
Definition _generate_key (self : instance) (salt : pystr) (key_size : Z)
  : result :=
  match encode_utf8 salt with
  | None => Raise
  | Some salt_bytes =>
      match encode_utf8 (_secret self) with
      | None => Raise
      | Some password_bytes =>
          match pbkdf2_hmac_sha1 password_bytes salt_bytes
                                 (_iterations self) (key_size / 8) with
          | Some key => Key key
          | None => Raise
          end
      end
  end.

(** [KeyGenerator.generate_key]: what it returns and the instance
    afterwards. *)
Definition generate_key (self : instance) (salt : pystr) (key_size : Z)
  : result * instance :=
  match _key_cache self with
  | Some cache =>
      let cache_key := cache_key salt key_size in
      match cache_get cache cache_key with
      | Some key => (Key key, self)
      | None =>
          match _generate_key self salt key_size with
          | Key key =>
              (Key key,
               {| _secret := _secret self;
                  _iterations := _iterations self;
                  _key_cache := Some (cache_set cache cache_key key) |})
          | Raise => (Raise, self)
          end
      end
  | None => (_generate_key self salt key_size, self)
  end.

(** Calls of [generate_key] on one instance, one after the other. *)
Fixpoint generate_keys (self : instance) (queries : list (pystr * Z))
  : list result :=
  match queries with
  | [] => []
  | (salt, key_size) :: rest =>
      let (r, self') := generate_key self salt key_size in
      r :: generate_keys self' rest
  end.

End Pbkdf2.

End KeyGenerator.

(** ** What the cache of a key generator holds *)

(** Every entry of the cache is the key that [_generate_key] derives
    for the salt and the size its cache key is made of. *)
Definition cache_sound
  (pbkdf2_hmac_sha1 : list byte -> list byte -> Z -> Z -> option (list byte))
  (self : KeyGenerator.instance) : Prop :=
  forall cache k v,
    KeyGenerator._key_cache self = Some cache ->
    In (k, v) cache ->
    exists salt key_size,
      k = KeyGenerator.cache_key salt key_size
      /\ KeyGenerator._generate_key pbkdf2_hmac_sha1 self salt key_size
         = KeyGenerator.Key v.

(** ** activesupport.message_verifier *)

Module MessageVerifier.

(** The exceptions that can leave the module: its own [RuntimeError]
    ("Invalid JSON metadata"), and those Python and the standard
    library raise. [JSONDecodeError] and [KeyError] are caught in
    [from_json]. *)
Inductive exn :=
| RuntimeError
| JSONDecodeError
| KeyError
| TypeError
| AttributeError
| UnicodeEncodeError
| UnicodeDecodeError
| BinasciiError.

Inductive result (A : Type) :=
| Ok (a : A)
| Raise (e : exn).
Arguments Ok {A} a.
Arguments Raise {A} e.

(** What [json.loads] returns: [None], a bool, an int, a float (its
    bits), a str, a list, or a dict with str keys. *)
Inductive json :=
| JNull
| JBool (b : bool)
| JInt (z : Z)
| JFloat (bits : Z)
| JString (s : pystr)
| JArray (items : list json)
| JObject (members : list (pystr * json)).

(** [obj[key]] for a str [key]: only a dict can be indexed so. *)
Definition getitem (obj : json) (key : pystr) : result json :=
  match obj with
  | JObject members =>
      match find (fun kv => str_eqb (fst kv) key) members with
      | Some (_, v) => Ok v
      | None => Raise KeyError
      end
  | _ => Raise TypeError
  end.

(** [bytes.hex()]: two lower-case digits for each byte. *)
Definition hex_digit (d : Z) : Z := if d <? 10 then 48 + d else 87 + d.

Definition hex (data : list byte) : pystr :=
  flat_map (fun b => [hex_digit (byte_val b / 16);
                      hex_digit (byte_val b mod 16)]) data.

(** [s.split("--")]: the parts between the occurrences of "--", found
    from the left; [part] is the part being read, last character
    first. *)
Fixpoint split_loop (s : pystr) (part : pystr) : list pystr :=
  match s with
  | [] => [rev part]
  | c :: rest =>
      match rest with
      | c' :: rest' =>
          if (c =? 45) && (c' =? 45) then rev part :: split_loop rest' []
          else split_loop rest (c :: part)
      | [] => [rev (c :: part)]
      end
  end.

Definition split (s : pystr) : list pystr := split_loop s [].

(** The keys of the metadata: "_rails", "message", "exp", "pur". *)
Definition k_rails : pystr := [95; 114; 97; 105; 108; 115].
Definition k_message : pystr := [109; 101; 115; 115; 97; 103; 101].
Definition k_exp : pystr := [101; 120; 112].
Definition k_pur : pystr := [112; 117; 114].

(** [class Metadata]; [purpose] is whatever the JSON held. *)
Record Metadata := mkMetadata {
  message : pystr;
  purpose : json
}.

Section Libraries.

(** [hmac.new(secret, data, hashlib.sha256).digest()] *)
Variable hmac_sha256 : list byte -> list byte -> list byte.

(** [base64.b64encode], and [base64.b64decode] with [None] for the
    [binascii.Error] it raises. *)
Variable b64encode : list byte -> list byte.
Variable b64decode : list byte -> option (list byte).

(** [json.dumps(obj, separators=(',', ':'))], and [json.loads] with
    [None] for [JSONDecodeError]. *)
Variable json_dumps : json -> pystr.
Variable json_loads : pystr -> option json.

(** The values that are signed, and [str(value)]. *)
Variable Value : Type.
Variable str : Value -> pystr.

(** [MessageVerifier._encode_bytes] *)
Definition _encode_bytes (data : list byte) : result pystr :=
  match decode_utf8 (b64encode data) with
  | Some s => Ok s
  | None => Raise UnicodeDecodeError
  end.

(** [MessageVerifier._encode_string] *)
Definition _encode_string (data : pystr) : result pystr :=
  match encode_utf8 data with
  | Some bs => _encode_bytes bs
  | None => Raise UnicodeEncodeError
  end.

(** [MessageVerifier._decode_bytes] *)
Definition _decode_bytes (data : list byte) : result pystr :=
  match b64decode data with
  | Some bs =>
      match decode_utf8 bs with
      | Some s => Ok s
      | None => Raise UnicodeDecodeError
      end
  | None => Raise BinasciiError
  end.

(** [MessageVerifier._decode_string] on a str. *)
Definition _decode_string (data : pystr) : result pystr :=
  match encode_utf8 data with
  | Some bs => _decode_bytes bs
  | None => Raise UnicodeEncodeError
  end.

(** [MessageVerifier._decode_string] on what the JSON held: only a str
    has [encode]. *)
Definition _decode_string_any (data : json) : result pystr :=
  match data with
  | JString s => _decode_string s
  | _ => Raise AttributeError
  end.

(** [Metadata.wrap] *)
Definition wrap (message purpose : pystr) : Metadata :=
  {| message := message; purpose := JString purpose |}.

(** [Metadata.to_json] *)
Definition to_json (self : Metadata) : result pystr :=
  match _encode_string (message self) with
  | Ok encoded =>
      Ok (json_dumps
            (JObject [(k_rails,
                       JObject [(k_message, JString encoded);
                                (k_exp, JNull);
                                (k_pur, purpose self)])]))
  | Raise e => Raise e
  end.

(** The body of the [try] of [Metadata.from_json]. *)
Definition from_json_body (data : pystr) : result Metadata :=
  match json_loads data with
  | None => Raise JSONDecodeError
  | Some json_obj =>
      match getitem json_obj k_rails with
      | Raise e => Raise e
      | Ok rails_data =>
          match getitem rails_data k_message with
          | Raise e => Raise e
          | Ok encoded =>
              match _decode_string_any encoded with
              | Raise e => Raise e
              | Ok message =>
                  match getitem rails_data k_pur with
                  | Raise e => Raise e
                  | Ok purpose => Ok (mkMetadata message purpose)
                  end
              end
          end
      end
  end.

(** [Metadata.from_json]: [JSONDecodeError] and [KeyError] become the
    [RuntimeError], the other exceptions pass. *)
Definition from_json (data : pystr) : result Metadata :=
  match from_json_body data with
  | Raise JSONDecodeError | Raise KeyError => Raise RuntimeError
  | r => r
  end.

(** [Metadata.verify_purpose]: a purpose that is no str equals no
    str. *)
Definition verify_purpose (self : Metadata) (purpose' : pystr)
  : option pystr :=
  match purpose self with
  | JString p => if str_eqb p purpose' then Some (message self) else None
  | _ => None
  end.

(** [Metadata.verify] *)
Definition Metadata_verify (data purpose : pystr) : result (option pystr) :=
  match from_json data with
  | Ok metadata => Ok (verify_purpose metadata purpose)
  | Raise e => Raise e
  end.

(** [MessageVerifier._serialize] *)
Definition _serialize (value : Value) : pystr := str value.

(** [MessageVerifier._generate_digest_bytes] *)
Definition _generate_digest_bytes (secret data : list byte) : pystr :=
  hex (hmac_sha256 secret data).

(** [MessageVerifier._generate_digest_string] *)
Definition _generate_digest_string (secret : list byte) (data : pystr)
  : result pystr :=
  match encode_utf8 data with
  | Some bs => Ok (_generate_digest_bytes secret bs)
  | None => Raise UnicodeEncodeError
  end.

(** [MessageVerifier.generate] *)
Definition generate (secret : list byte) (value : Value) (purpose : pystr)
  : result pystr :=
  match to_json (wrap (_serialize value) purpose) with
  | Raise e => Raise e
  | Ok text =>
      match _encode_string text with
      | Raise e => Raise e
      | Ok data =>
          match _generate_digest_string secret data with
          | Raise e => Raise e
          | Ok signature => Ok (data ++ [45; 45] ++ signature)
          end
      end
  end.

(** [MessageVerifier.verify] *)
Definition verify (secret : list byte) (signed_message purpose : pystr)
  : result (option pystr) :=
  match split signed_message with
  | [data; digest] =>
      match _generate_digest_string secret data with
      | Raise e => Raise e
      | Ok expected_digest =>
          if negb (str_eqb digest expected_digest) then Ok None
          else
            match _decode_string data with
            | Raise e => Raise e
            | Ok text => Metadata_verify text purpose
            end
      end
  | _ => Ok None
  end.

End Libraries.

End MessageVerifier.

(** ** Parts and separators *)

(** The parts put together again with "--" between them. *)
Fixpoint join_dashes (parts : list pystr) : pystr :=
  match parts with
  | [] => []
  | [p] => p
  | p :: rest => p ++ [45; 45] ++ join_dashes rest
  end.

(** No '-' in the text. *)
Definition dash_free (s : pystr) : Prop := Forall (fun c => c <> 45) s.

(** The object that [Metadata.to_json] hands to [json.dumps], for the
    encoded message and the purpose. *)
Definition written_metadata (encoded purpose : pystr) : MessageVerifier.json :=
  MessageVerifier.JObject
    [(MessageVerifier.k_rails,
      MessageVerifier.JObject
        [(MessageVerifier.k_message, MessageVerifier.JString encoded);
         (MessageVerifier.k_exp, MessageVerifier.JNull);
         (MessageVerifier.k_pur, MessageVerifier.JString purpose)])].

(** ** Stand-ins for the libraries *)

(** One choice of the library functions, to run the definitions on
    concrete messages: base16 for base64, the secret put before the
    data for the HMAC, and for [json.dumps] a writer of the metadata
    object only, the length of the message before the message and the
    purpose. *)
Module Stub.

Definition hmac (secret data : list byte) : list byte := secret ++ data.

Definition b16encode (data : list byte) : list byte :=
  flat_map (fun b => [byte_of (65 + byte_val b / 16);
                      byte_of (65 + byte_val b mod 16)]) data.

Fixpoint b16decode (data : list byte) : option (list byte) :=
  match data with
  | [] => Some []
  | high :: low :: rest =>
      option_map
        (cons (byte_of ((byte_val high - 65) * 16 + (byte_val low - 65))))
        (b16decode rest)
  | _ => None
  end.

Definition dumps (obj : MessageVerifier.json) : pystr :=
  match obj with
  | MessageVerifier.JObject
      [(_, MessageVerifier.JObject
             [(_, MessageVerifier.JString encoded); _;
              (_, MessageVerifier.JString purpose)])] =>
      Z.of_nat (length encoded) :: encoded ++ purpose
  | _ => []
  end.

Definition loads (text : pystr) : option MessageVerifier.json :=
  match text with
  | [] => None
  | n :: rest =>
      Some (written_metadata (firstn (Z.to_nat n) rest)
                             (skipn (Z.to_nat n) rest))
  end.

End Stub.

(** * Properties *)

(** ** Runs on the buffers of the test suite *)

(** ["BAhpBg=="] *)
Example load_int_1 : load 5 [x04; x08; x69; x06] = Value (VInt 1).
Proof. reflexivity. Qed.

(** ["BAhJIgthemVydHkGOgZFVA=="], the string "azerty" *)
Example load_string_azerty :
  load 5 [x04; x08; x49; x22; x0b; x61; x7a; x65; x72; x74; x79;
          x06; x3a; x06; x45; x54]
  = Value (VStr [97; 122; 101; 114; 116; 121]).
Proof. reflexivity. Qed.

(** ["BAg6C2F6ZXJ0eQ=="], the symbol :azerty *)
Example load_symbol_azerty :
  load 5 [x04; x08; x3a; x0b; x61; x7a; x65; x72; x74; x79]
  = Value (VStr [58; 97; 122; 101; 114; 116; 121]).
Proof. reflexivity. Qed.

(** ["BAh7BkkiB2F6BjoGRVRJIgdxcwY7AFQ="], the hash {"az" => "qs"} *)
Example load_hash_az_qs :
  load 5 [x04; x08; x7b; x06; x49; x22; x07; x61; x7a; x06; x3a; x06; x45;
          x54; x49; x22; x07; x71; x73; x06; x3b; x00; x54]
  = Value (VDict [(VStr [97; 122], VStr [113; 115])]).
Proof. reflexivity. Qed.

(** ** The byte cursor on a buffer that holds the bytes *)

Lemma len_app {A} (a b : list A) : len (a ++ b) = len a + len b.
Proof. unfold len. rewrite length_app. lia. Qed.

Lemma len_cons {A} (a : A) (l : list A) : len (a :: l) = 1 + len l.
Proof. unfold len. simpl length. lia. Qed.

Lemma len_nonneg {A} (l : list A) : 0 <= len l.
Proof. unfold len. lia. Qed.

Lemma holds_at_nonneg data p bs : holds_at data p bs -> 0 <= p.
Proof. intros (b & a & _ & <-). apply len_nonneg. Qed.

Lemma holds_at_bound data p bs : holds_at data p bs -> p + len bs <= len data.
Proof.
  intros (b & a & -> & <-). rewrite !len_app. pose proof (len_nonneg a). lia.
Qed.

Lemma holds_at_app data p a b :
  holds_at data p (a ++ b) ->
  holds_at data p a /\ holds_at data (p + len a) b.
Proof.
  intros (pre & post & -> & <-). split.
  - exists pre, (b ++ post). now rewrite <- app_assoc.
  - exists (pre ++ a), post. rewrite len_app, <- !app_assoc. auto.
Qed.

Lemma holds_at_cons data p b bs :
  holds_at data p (b :: bs) ->
  holds_at data p [b] /\ holds_at data (p + 1) bs.
Proof. intros H. apply (holds_at_app data p [b] bs) in H. exact H. Qed.

Lemma holds_at_nil data p bs : holds_at data p bs -> holds_at data p [].
Proof.
  intros (pre & post & -> & <-). exists pre, (bs ++ post). auto.
Qed.

Lemma byte_val_range b : 0 <= byte_val b < 256.
Proof.
  unfold byte_val. pose proof (Byte.to_N_bounded b). lia.
Qed.

Lemma py_getitem_at {A} (pre post : list A) (x : A) :
  py_getitem (pre ++ x :: post) (len pre) = Some x.
Proof.
  unfold py_getitem. pose proof (len_nonneg pre).
  destruct (0 <=? len pre) eqn:E; [|lia].
  unfold len. rewrite Nat2Z.id, nth_error_app2 by lia.
  now rewrite Nat.sub_diag.
Qed.

Lemma read_byte_at self b rest :
  holds_at (_data self) (_position self) (b :: rest) ->
  _read_byte self = Return (signed b) (advance 1 self).
Proof.
  intros (pre & post & Hd & Hp). unfold _read_byte.
  rewrite Hd, <- Hp. simpl app. rewrite py_getitem_at.
  rewrite len_app, len_cons.
  pose proof (len_nonneg (rest ++ post)).
  destruct (len pre >=? len pre + (1 + len (rest ++ post))) eqn:E; [lia|].
  unfold signed, advance. rewrite Hd, Hp. reflexivity.
Qed.

Lemma py_slice_at {A} (pre bs post : list A) :
  py_slice (pre ++ bs ++ post) (len pre) (len pre + len bs) = bs.
Proof.
  unfold py_slice, slice_bound.
  pose proof (len_nonneg pre). pose proof (len_nonneg bs).
  pose proof (len_nonneg post). rewrite !len_app.
  destruct (len pre <? 0) eqn:E1; [lia|].
  destruct (len pre + len bs <? 0) eqn:E2; [lia|].
  rewrite !Z.min_l by lia.
  replace (len pre + len bs - len pre) with (len bs) by lia.
  unfold len. rewrite !Nat2Z.id.
  rewrite skipn_app, skipn_all, Nat.sub_diag. simpl.
  rewrite firstn_app, firstn_all, Nat.sub_diag. simpl.
  now rewrite app_nil_r.
Qed.

Lemma read_bytes_at self bs :
  holds_at (_data self) (_position self) bs ->
  _read_bytes (len bs) self = Return bs (advance (len bs) self).
Proof.
  intros (pre & post & Hd & Hp). unfold _read_bytes.
  rewrite Hd, <- Hp, py_slice_at, !len_app.
  pose proof (len_nonneg post).
  destruct (len pre + len bs >? len pre + (len bs + len post)) eqn:E; [lia|].
  unfold advance. rewrite Hd, Hp. reflexivity.
Qed.

(** ** Bits of the integer codec *)

Lemma testbit_above a k j :
  0 <= k <= j -> Z.testbit a j = Z.testbit (a / 2 ^ k) (j - k).
Proof.
  intros H. rewrite <- Z.shiftr_div_pow2 by lia.
  rewrite Z.shiftr_spec by lia. f_equal. lia.
Qed.

Lemma testbit_small x k j : 0 <= x < 2 ^ k -> 0 <= k <= j -> Z.testbit x j = false.
Proof.
  intros Hx Hk. rewrite (testbit_above x k j Hk), Z.div_small by lia.
  apply Z.bits_0.
Qed.

Lemma testbit_minus_pow2_high l k j :
  0 <= l < 2 ^ k -> 0 <= k <= j -> Z.testbit (l - 2 ^ k) j = true.
Proof.
  intros Hl Hk. rewrite (testbit_above _ k j Hk).
  replace ((l - 2 ^ k) / 2 ^ k) with (-1).
  - apply Z.bits_m1. lia.
  - apply Z.div_unique with (r := l); lia.
Qed.

Lemma testbit_minus_pow2_low l k j :
  0 <= j < k -> Z.testbit (l - 2 ^ k) j = Z.testbit l j.
Proof.
  intros H. rewrite <- (Z.mod_pow2_bits_low (l - 2 ^ k) k j) by lia.
  rewrite <- (Z.mod_pow2_bits_low l k j) by lia.
  f_equal. replace (l - 2 ^ k) with (l + (-1) * 2 ^ k) by lia.
  apply Z.mod_add. lia.
Qed.

Lemma lor_shiftl_add x u k :
  0 <= k -> 0 <= x < 2 ^ k -> Z.lor x (Z.shiftl u k) = x + u * 2 ^ k.
Proof.
  intros Hk Hx. rewrite <- Z.shiftl_mul_pow2 by lia.
  rewrite <- Z.add_lor_land.
  replace (Z.land x (Z.shiftl u k)) with 0; [lia|].
  symmetry. apply Z.bits_inj'. intros j Hj.
  rewrite Z.land_spec, Z.bits_0.
  destruct (Z_lt_le_dec j k).
  - rewrite Z.shiftl_spec_low by lia. apply andb_false_r.
  - rewrite (testbit_small x k j) by lia. reflexivity.
Qed.

Lemma unsigned_of_signed b :
  (if signed b >=? 0 then signed b else signed b + 256) = byte_val b.
Proof.
  unfold signed. pose proof (byte_val_range b).
  destruct (byte_val b <? 128) eqn:E.
  - destruct (byte_val b >=? 0) eqn:E'; lia.
  - destruct (byte_val b - 256 >=? 0) eqn:E'; lia.
Qed.

Lemma unsigned_of_byte_val b :
  (if byte_val b >=? 0 then byte_val b else byte_val b + 256) = byte_val b.
Proof.
  pose proof (byte_val_range b). destruct (byte_val b >=? 0) eqn:E; lia.
Qed.

Lemma testbit_signed_low b j :
  0 <= j < 8 -> Z.testbit (signed b) j = Z.testbit (byte_val b) j.
Proof.
  intros H. unfold signed. destruct (byte_val b <? 128); [reflexivity|].
  change 256 with (2 ^ 8). apply testbit_minus_pow2_low. lia.
Qed.

Lemma testbit_255 j : 0 <= j -> Z.testbit 255 j = (j <? 8).
Proof. intros H. change 255 with (Z.ones 8). apply Z.testbit_ones_nonneg; lia. Qed.

(** One round of the negative branch: shifting the signed byte, as the
    code does, gives what the unsigned byte gives, as long as the
    accumulator is all ones from the window on. *)
Lemma negative_round acc b k :
  0 <= k ->
  (forall j, k <= j -> Z.testbit acc j = true) ->
  let acc' := Z.lor (Z.land acc (Z.lnot (Z.shiftl 255 k)))
                    (Z.shiftl (signed b) k) in
  acc' = Z.lor (Z.land acc (Z.lnot (Z.shiftl 255 k)))
               (Z.shiftl (byte_val b) k)
  /\ (forall j, k + 8 <= j -> Z.testbit acc' j = true).
Proof.
  intros Hk Hacc acc'. subst acc'. split.
  - apply Z.bits_inj'. intros j Hj.
    rewrite !Z.lor_spec, !Z.land_spec, !Z.lnot_spec by lia.
    destruct (Z_lt_le_dec j k) as [Hlt|Hge].
    + rewrite !Z.shiftl_spec_low by lia. reflexivity.
    + rewrite !Z.shiftl_spec by lia. rewrite testbit_255 by lia.
      destruct (Z_lt_le_dec (j - k) 8) as [Hw|Hw].
      * rewrite testbit_signed_low by lia. reflexivity.
      * rewrite Hacc by lia.
        destruct (j - k <? 8) eqn:E; [lia|]. reflexivity.
  - intros j Hj.
    rewrite Z.lor_spec, Z.land_spec, Z.lnot_spec by lia.
    rewrite Hacc by lia. rewrite Z.shiftl_spec by lia.
    rewrite testbit_255 by lia.
    destruct (j - k <? 8) eqn:E; [lia|]. reflexivity.
Qed.

(** One round of the reconstruction, in arithmetic. *)
Lemma window_round l b k :
  0 <= k -> 0 <= l < 2 ^ k ->
  Z.lor (Z.land (l - 2 ^ k) (Z.lnot (Z.shiftl 255 k)))
        (Z.shiftl (byte_val b) k)
  = (l + byte_val b * 2 ^ k) - 2 ^ (k + 8).
Proof.
  intros Hk Hl. pose proof (byte_val_range b) as Hb.
  assert (Hp : 2 ^ (k + 8) = 256 * 2 ^ k)
    by (rewrite Z.pow_add_r by lia; change (2 ^ 8) with 256; lia).
  assert (Hl' : 0 <= l + byte_val b * 2 ^ k < 2 ^ (k + 8)) by nia.
  apply Z.bits_inj'. intros j Hj.
  rewrite Z.lor_spec, Z.land_spec, Z.lnot_spec by lia.
  destruct (Z_lt_le_dec j k) as [Hlt|Hge].
  - rewrite !Z.shiftl_spec_low by lia.
    rewrite testbit_minus_pow2_low by lia.
    rewrite testbit_minus_pow2_low by lia.
    rewrite <- lor_shiftl_add by lia.
    rewrite Z.lor_spec, Z.shiftl_spec_low by lia.
    now rewrite andb_true_r, !orb_false_r.
  - rewrite (testbit_minus_pow2_high l k j) by lia.
    rewrite !Z.shiftl_spec by lia. rewrite testbit_255 by lia.
    destruct (Z_lt_le_dec (j - k) 8) as [Hw|Hw].
    + rewrite testbit_minus_pow2_low by lia.
      rewrite <- lor_shiftl_add by lia.
      rewrite Z.lor_spec, (testbit_small l k j) by lia.
      rewrite Z.shiftl_spec by lia.
      destruct (j - k <? 8) eqn:E; [|lia]. reflexivity.
    + rewrite (testbit_minus_pow2_high _ (k + 8) j) by lia.
      destruct (j - k <? 8) eqn:E; [lia|]. reflexivity.
Qed.

Lemma little_endian_range bs :
  0 <= little_endian bs < 2 ^ (8 * len bs).
Proof.
  induction bs as [|b bs IH].
  - simpl. change (2 ^ (8 * len [])) with 1. lia.
  - rewrite len_cons. cbn [little_endian].
    pose proof (byte_val_range b). pose proof (len_nonneg bs).
    replace (8 * (1 + len bs)) with (8 * len bs + 8) by lia.
    rewrite Z.pow_add_r by lia. change (2 ^ 8) with 256.
    set (P := 2 ^ (8 * len bs)) in *. lia.
Qed.

Lemma window_fill_arith payload : forall i l,
  0 <= i -> 0 <= l < 2 ^ (8 * i) ->
  window_fill payload i (l - 2 ^ (8 * i))
  = l + 2 ^ (8 * i) * little_endian payload - 2 ^ (8 * (i + len payload)).
Proof.
  induction payload as [|b rest IH]; intros i l Hi Hl.
  - simpl. change (len []) with 0. rewrite Z.add_0_r. lia.
  - cbn [window_fill]. rewrite window_round by lia.
    pose proof (byte_val_range b) as Hb.
    assert (Hp : 2 ^ (8 * (i + 1)) = 256 * 2 ^ (8 * i)).
    { replace (8 * (i + 1)) with (8 * i + 8) by lia.
      rewrite Z.pow_add_r by lia. change (2 ^ 8) with 256. lia. }
    replace (8 * i + 8) with (8 * (i + 1)) by lia.
    rewrite IH by nia. rewrite len_cons.
    replace (i + 1 + len rest) with (i + (1 + len rest)) by lia.
    rewrite Hp. cbn [little_endian]. ring.
Qed.

(** The reconstruction from -1 is the two's-complement reading of the
    bytes. *)
Lemma window_fill_twos_complement payload :
  window_fill payload 0 (-1) = little_endian payload - 256 ^ len payload.
Proof.
  replace (-1) with (0 - 2 ^ (8 * 0)) by reflexivity.
  rewrite window_fill_arith by (simpl; lia).
  change (2 ^ (8 * 0)) with 1. rewrite !Z.add_0_l.
  pose proof (len_nonneg payload).
  rewrite Z.pow_mul_r by lia. change (2 ^ 8) with 256. lia.
Qed.

(** ** The integer codec on a buffer that holds an encoding *)

Lemma advance_0 self : advance 0 self = self.
Proof. destruct self. unfold advance. simpl. now rewrite Z.add_0_r. Qed.

Lemma advance_advance a b self :
  advance a (advance b self) = advance (b + a) self.
Proof. unfold advance. simpl. now rewrite Z.add_assoc. Qed.

Lemma holds_at_advance self n bs :
  holds_at (_data self) (_position self + n) bs ->
  holds_at (_data (advance n self)) (_position (advance n self)) bs.
Proof. exact (fun H => H). Qed.

Lemma read_int_positive_at payload : forall self i x,
  holds_at (_data self) (_position self) payload ->
  0 <= i -> 0 <= x < 2 ^ (8 * i) ->
  read_int_positive (length payload) i x self
  = Return (x + 2 ^ (8 * i) * little_endian payload)
           (advance (len payload) self).
Proof.
  induction payload as [|b rest IH]; intros self i x H Hi Hx.
  - cbn. unfold ret. change (len []) with 0. rewrite advance_0. f_equal. lia.
  - cbn [read_int_positive length little_endian]. unfold bind.
    rewrite (read_byte_at self b rest H), unsigned_of_signed.
    rewrite lor_shiftl_add by lia.
    pose proof (byte_val_range b) as Hb.
    assert (Hp : 2 ^ (8 * (i + 1)) = 256 * 2 ^ (8 * i)).
    { replace (8 * (i + 1)) with (8 * i + 8) by lia.
      rewrite Z.pow_add_r by lia. change (2 ^ 8) with 256. lia. }
    rewrite IH.
    + rewrite advance_advance, len_cons, Hp. f_equal. ring.
    + apply holds_at_advance. now apply holds_at_cons in H.
    + lia.
    + rewrite Hp. set (P := 2 ^ (8 * i)) in *. nia.
Qed.

Lemma read_int_negative_at payload : forall self i x,
  holds_at (_data self) (_position self) payload ->
  0 <= i -> (forall j, 8 * i <= j -> Z.testbit x j = true) ->
  read_int_negative (length payload) i x self
  = Return (window_fill payload i x) (advance (len payload) self).
Proof.
  induction payload as [|b rest IH]; intros self i x H Hi Hx.
  - cbn. unfold ret. change (len []) with 0. now rewrite advance_0.
  - cbn [read_int_negative length window_fill]. unfold bind.
    rewrite (read_byte_at self b rest H).
    destruct (negative_round x b (8 * i) ltac:(lia) Hx) as [Heq Hones].
    cbv zeta in Heq, Hones. rewrite Heq in *.
    rewrite IH.
    + now rewrite advance_advance, len_cons.
    + apply holds_at_advance. now apply holds_at_cons in H.
    + lia.
    + intros j Hj. apply Hones. lia.
Qed.

Lemma signed_range b : -128 <= signed b <= 127.
Proof.
  unfold signed. pose proof (byte_val_range b).
  destruct (byte_val b <? 128) eqn:E; lia.
Qed.

(** [_read_int] on a buffer that holds a leading byte and the payload
    that byte announces. *)
Lemma read_int_at self c payload :
  holds_at (_data self) (_position self) (c :: payload) ->
  length payload = payload_length (signed c) ->
  _read_int self
  = Return (packed_fixnum (signed c) payload)
           (advance (1 + len payload) self).
Proof.
  intros H Hlen. unfold _read_int, bind.
  rewrite (read_byte_at self c payload H).
  unfold packed_fixnum, payload_length in *.
  assert (Hrest : holds_at (_data (advance 1 self))
                           (_position (advance 1 self)) payload)
    by (apply holds_at_advance; now apply holds_at_cons in H).
  destruct (signed c =? 0) eqn:E0.
  { destruct payload; [|discriminate]. reflexivity. }
  destruct (signed c >? 4) eqn:E1.
  { destruct payload; [|discriminate]. reflexivity. }
  destruct (signed c <? -4) eqn:E2.
  { destruct payload; [|discriminate]. reflexivity. }
  simpl orb in Hlen.
  destruct (signed c >? 0) eqn:E3.
  - replace (Z.to_nat (signed c)) with (length payload)
      by (rewrite Hlen; f_equal; lia).
    rewrite read_int_positive_at; [|assumption|lia|simpl; lia].
    rewrite advance_advance. change (2 ^ (8 * 0)) with 1. f_equal. lia.
  - replace (Z.to_nat (- signed c)) with (length payload)
      by (rewrite Hlen; f_equal; lia).
    rewrite read_int_negative_at; [|assumption|lia|].
    + now rewrite advance_advance.
    + intros j Hj. apply Z.bits_m1. lia.
Qed.

(** ** C6: the packed fixnum *)

(** C6. On a buffer that holds a leading byte [c] and the bytes it
    announces, [_read_int] returns, with the cursor just after them: 0
    when [c] is 0; [c - 5] when [c > 4]; [c + 5] when [c < -4]; for
    [0 < c <= 4] the sum of [byte_i * 256^i] over the next [c] bytes
    taken unsigned; for [-4 <= c < 0] the reconstruction from the
    accumulator -1 by window masking over the next [-c] bytes, which is
    their two's-complement reading. The standard encodings of -123, -1,
    0, 1, 122, 123, 255, 65536 and -65536 decode to these integers. *)
Theorem read_int_packed_fixnum :
  (forall self c payload,
      holds_at (_data self) (_position self) (c :: payload) ->
      length payload = payload_length (signed c) ->
      exists v,
        _read_int self = Return v (advance (1 + len payload) self)
        /\ v = packed_fixnum (signed c) payload
        /\ (signed c = 0 -> v = 0)
        /\ (signed c > 4 -> v = signed c - 5)
        /\ (signed c < -4 -> v = signed c + 5)
        /\ (0 < signed c <= 4 ->
            len payload = signed c /\ v = little_endian payload)
        /\ (-4 <= signed c < 0 ->
            len payload = - signed c
            /\ v = window_fill payload 0 (-1)
            /\ v = little_endian payload - 256 ^ len payload))
  /\ Forall (fun '(data, z) => load 2 data = Value (VInt z)) standard_fixnums.
Proof.
  split.
  - intros self c payload H Hlen.
    exists (packed_fixnum (signed c) payload).
    split; [now apply read_int_at|]. split; [reflexivity|].
    unfold packed_fixnum, payload_length in *.
    repeat match goal with |- _ /\ _ => split end; intros Hc;
      repeat match goal with |- _ /\ _ => split end.
    + now rewrite Hc.
    + destruct (signed c =? 0) eqn:E0; [lia|].
      destruct (signed c >? 4) eqn:E1; [reflexivity|lia].
    + destruct (signed c =? 0) eqn:E0; [lia|].
      destruct (signed c >? 4) eqn:E1; [lia|].
      destruct (signed c <? -4) eqn:E2; [reflexivity|lia].
    + destruct (signed c =? 0) eqn:E0; [lia|].
      destruct (signed c >? 4) eqn:E1; [lia|].
      destruct (signed c <? -4) eqn:E2; [lia|].
      simpl in Hlen. unfold len. lia.
    + destruct (signed c =? 0) eqn:E0; [lia|].
      destruct (signed c >? 4) eqn:E1; [lia|].
      destruct (signed c <? -4) eqn:E2; [lia|].
      destruct (signed c >? 0) eqn:E3; [reflexivity|lia].
    + destruct (signed c =? 0) eqn:E0; [lia|].
      destruct (signed c >? 4) eqn:E1; [lia|].
      destruct (signed c <? -4) eqn:E2; [lia|].
      simpl in Hlen. unfold len. lia.
    + destruct (signed c =? 0) eqn:E0; [lia|].
      destruct (signed c >? 4) eqn:E1; [lia|].
      destruct (signed c <? -4) eqn:E2; [lia|].
      destruct (signed c >? 0) eqn:E3; [lia|reflexivity].
    + destruct (signed c =? 0) eqn:E0; [lia|].
      destruct (signed c >? 4) eqn:E1; [lia|].
      destruct (signed c <? -4) eqn:E2; [lia|].
      destruct (signed c >? 0) eqn:E3; [lia|].
      apply window_fill_twos_complement.
  - unfold standard_fixnums. repeat constructor.
Qed.

Lemma read_int_packed_fixnum_witness :
  exists v,
    _read_int (__init__ [xfe; x00; x00])
    = Return v (advance (1 + len [x00; x00]) (__init__ [xfe; x00; x00]))
    /\ v = packed_fixnum (signed xfe) [x00; x00]
    /\ (signed xfe = 0 -> v = 0)
    /\ (signed xfe > 4 -> v = signed xfe - 5)
    /\ (signed xfe < -4 -> v = signed xfe + 5)
    /\ (0 < signed xfe <= 4 ->
        len [x00; x00] = signed xfe /\ v = little_endian [x00; x00])
    /\ (-4 <= signed xfe < 0 ->
        len [x00; x00] = - signed xfe
        /\ v = window_fill [x00; x00] 0 (-1)
        /\ v = little_endian [x00; x00] - 256 ^ len [x00; x00]).
Proof.
  apply (proj1 read_int_packed_fixnum (__init__ [xfe; x00; x00]) xfe
               [x00; x00]).
  - exists [], []. split; reflexivity.
  - reflexivity.
Defined.

(** ** The cursor as long as no count is negative *)

(** From a cursor that is not negative, [_read_byte] moves on by one
    and stays inside the buffer, or fails at its end. *)
Lemma read_byte_cursor self :
  0 <= _position self ->
  match _read_byte self with
  | Return _ self' =>
      _data self' = _data self
      /\ _position self' = _position self + 1
      /\ _position self' <= len (_data self)
  | Raise e =>
      e = RuntimeError (UnexpectedEndOfData (_position self))
      /\ len (_data self) <= _position self
  end.
Proof.
  intros Hp. unfold _read_byte, py_getitem.
  destruct (_position self >=? len (_data self)) eqn:E; [split; [reflexivity|lia]|].
  destruct (0 <=? _position self) eqn:E0; [|lia].
  destruct (nth_error (_data self) (Z.to_nat (_position self))) eqn:En.
  - simpl. repeat split; lia.
  - apply nth_error_None in En. unfold len in E. lia.
Qed.

Lemma len_py_slice {A} (l : list A) p count :
  0 <= p -> 0 <= count -> p + count <= len l ->
  len (py_slice l p (p + count)) = count.
Proof.
  intros Hp Hc Hl. unfold py_slice, slice_bound.
  destruct (p <? 0) eqn:E1; [lia|].
  destruct (p + count <? 0) eqn:E2; [lia|].
  rewrite !Z.min_l by lia. unfold len in *.
  rewrite length_firstn, length_skipn. lia.
Qed.

(** From a cursor that is not negative and for a count that is not
    negative, [_read_bytes] returns [count] bytes and moves on by as
    many, or fails when fewer remain. *)
Lemma read_bytes_cursor self count :
  0 <= _position self -> 0 <= count ->
  match _read_bytes count self with
  | Return data_bytes self' =>
      _data self' = _data self
      /\ len data_bytes = count
      /\ _position self' = _position self + count
      /\ _position self' <= len (_data self)
  | Raise e =>
      e = RuntimeError
            (NotEnoughData count (len (_data self) - _position self))
      /\ len (_data self) < _position self + count
  end.
Proof.
  intros Hp Hc. unfold _read_bytes.
  destruct (_position self + count >? len (_data self)) eqn:E;
    [split; [reflexivity|lia]|].
  simpl. repeat split; try lia. apply len_py_slice; lia.
Qed.

(** The header: end of data on an empty or one-byte buffer, and the
    version error for any other two bytes than 4 and 8. *)
Lemma load_header depth :
  load depth [] = Error (RuntimeError (UnexpectedEndOfData 0))
  /\ load depth [x04] = Error (RuntimeError (UnexpectedEndOfData 1))
  /\ (forall b rest,
         b <> x04 ->
         load depth (b :: rest) = Error (RuntimeError UnsupportedMarshalVersion))
  /\ (forall b rest,
         b <> x08 ->
         load depth (x04 :: b :: rest)
         = Error (RuntimeError UnsupportedMarshalVersion)).
Proof.
  repeat split.
  - intros b rest Hb. unfold load, _load, bind, __init__.
    rewrite (read_byte_at _ b []) by (exists [], rest; now split).
    destruct (signed b =? 4) eqn:E; [|reflexivity].
    exfalso. apply Hb. clear Hb. destruct b; try discriminate E. reflexivity.
  - intros b rest Hb. unfold load, _load, bind, __init__.
    rewrite (read_byte_at _ x04 []) by (exists [], (b :: rest); now split).
    change (signed x04 =? 4) with true. cbv iota beta.
    rewrite (read_byte_at _ b []) by (exists [x04], rest; now split).
    destruct (signed b =? 8) eqn:E; [|reflexivity].
    exfalso. apply Hb. clear Hb. destruct b; try discriminate E. reflexivity.
Qed.

(** ** C2, C3, C4: runs that leave the specified behaviour *)

(** C2. On the STRING with length -5 the call returns the empty string
    and leaves the cursor at -1: [_read_bytes] took the negative count,
    moved the cursor back from 4, below 0. *)
Theorem read_bytes_negative_count_moves_back :
  _read_int (mkMarshal negative_length_string 3 [])
  = Return (-5) (mkMarshal negative_length_string 4 [])
  /\ _read_bytes (-5) (mkMarshal negative_length_string 4 [])
     = Return [] (mkMarshal negative_length_string (-1) [])
  /\ _load 2 (__init__ negative_length_string)
     = Return (VStr []) (mkMarshal negative_length_string (-1) []).
Proof. repeat split. Qed.

(** C3. A symbol link of index -1 on an empty table ends the call with
    [IndexError], and a hash with an array as key with [TypeError];
    neither is one of the six kinds. *)
Theorem load_raises_outside_the_kinds :
  load 2 negative_link_empty_table = Error IndexError
  /\ kind_of IndexError = None
  /\ load 3 array_keyed_hash = Error TypeError
  /\ kind_of TypeError = None.
Proof. repeat split. Qed.

(** C4. A symbol link of index -1 on a table of one symbol does not
    fail: it returns the last symbol of the table. *)
Theorem read_symbol_link_negative_index :
  _read_int (mkMarshal negative_link_array 8 [[58; 97]])
  = Return (-1) (mkMarshal negative_link_array 9 [[58; 97]])
  /\ _read_symbol_link (mkMarshal negative_link_array 8 [[58; 97]])
     = Return [58; 97] (mkMarshal negative_link_array 9 [[58; 97]])
  /\ load 2 negative_link_array
     = Value (VList [VStr [58; 97]; VStr [58; 97]]).
Proof. repeat split. Qed.

(** What [_read_symbol_link] does with the index it decoded. *)
Lemma read_symbol_link_cases self link self' :
  _read_int self = Return link self' ->
  (len (_symbols self') <= link ->
   _read_symbol_link self = Raise (RuntimeError (InvalidSymbolLink link)))
  /\ (0 <= link < len (_symbols self') ->
      exists symbol,
        nth_error (_symbols self') (Z.to_nat link) = Some symbol
        /\ _read_symbol_link self = Return symbol self')
  /\ (- len (_symbols self') <= link < 0 ->
      exists symbol,
        nth_error (_symbols self') (Z.to_nat (len (_symbols self') + link))
        = Some symbol
        /\ _read_symbol_link self = Return symbol self')
  /\ (link < - len (_symbols self') ->
      _read_symbol_link self = Raise IndexError).
Proof.
  intros H. unfold _read_symbol_link, bind. rewrite H.
  unfold py_getitem. repeat split; intros Hl.
  - destruct (link >=? len (_symbols self')) eqn:E; [reflexivity|lia].
  - destruct (link >=? len (_symbols self')) eqn:E; [lia|].
    destruct (0 <=? link) eqn:E0; [|lia].
    destruct (nth_error (_symbols self') (Z.to_nat link)) eqn:En.
    + eauto.
    + apply nth_error_None in En. unfold len in Hl. lia.
  - destruct (link >=? len (_symbols self')) eqn:E; [lia|].
    destruct (0 <=? link) eqn:E0; [lia|].
    destruct (0 <=? len (_symbols self') + link) eqn:E1; [|lia].
    destruct (nth_error (_symbols self')
                (Z.to_nat (len (_symbols self') + link))) eqn:En.
    + eauto.
    + apply nth_error_None in En. unfold len in *. lia.
  - pose proof (len_nonneg (_symbols self')).
    destruct (link >=? len (_symbols self')) eqn:E; [lia|].
    destruct (0 <=? link) eqn:E0; [lia|].
    destruct (0 <=? len (_symbols self') + link) eqn:E1; [lia|].
    reflexivity.
Qed.

(** ** C1: the Mapping of a HASH production *)

Lemma key_eqb_sym a b : key_eqb a b = key_eqb b a.
Proof.
  destruct a, b; simpl; try reflexivity.
  - now destruct b, b0.
  - apply Z.eqb_sym.
  - destruct (list_eq_dec Z.eq_dec s s0), (list_eq_dec Z.eq_dec s0 s);
      congruence.
Qed.

Lemma key_eqb_trans a b c :
  key_eqb a b = true -> key_eqb a c = key_eqb b c.
Proof.
  intros H.
  destruct a, b; cbn [key_eqb] in H; try discriminate;
    destruct c; cbn [key_eqb]; try reflexivity;
    repeat match goal with x : bool |- _ => destruct x end;
    cbn [Bool.eqb] in *; try discriminate; try reflexivity;
    try (apply Z.eqb_eq in H; subst; reflexivity);
    try (destruct (list_eq_dec Z.eq_dec s s0);
         [subst; reflexivity|discriminate]).
Qed.

Lemma dict_store_keys result key value kv :
  In kv (dict_store result key value) ->
  (exists v, In (fst kv, v) result) \/ kv = (key, value).
Proof.
  induction result as [|[k v] rest IH]; simpl.
  - intros [<- | []]. now right.
  - destruct (key_eqb k key).
    + intros [<- | H]; left; [exists v; now left|].
      exists (snd kv). right. now destruct kv.
    + intros [<- | H]; [left; exists v; now left|].
      destruct (IH H) as [[v' Hv] | ->]; [left; exists v'; now right|now right].
Qed.

Lemma dict_store_distinct result key value :
  distinct_keys result -> distinct_keys (dict_store result key value).
Proof.
  induction result as [|[k v] rest IH]; simpl.
  - intros _. split; [intros kv []|exact I].
  - intros [Hk Hrest]. destruct (key_eqb k key) eqn:E; simpl.
    + split; assumption.
    + split; [|now apply IH].
      intros kv Hin. apply dict_store_keys in Hin.
      destruct Hin as [[v' Hv] | ->]; [exact (Hk _ Hv)|exact E].
Qed.

Lemma dict_get_store result key value key' :
  dict_get (dict_store result key value) key'
  = if key_eqb key key' then Some value else dict_get result key'.
Proof.
  unfold dict_get. induction result as [|[k v] rest IH]; simpl.
  - now destruct (key_eqb key key').
  - destruct (key_eqb k key) eqn:E; simpl.
    + rewrite (key_eqb_trans _ _ key' E).
      now destruct (key_eqb key key').
    + destruct (key_eqb k key') eqn:E'; simpl.
      * rewrite key_eqb_sym in E'.
        rewrite (key_eqb_sym key key'), (key_eqb_trans _ _ key E'), E.
        reflexivity.
      * exact IH.
Qed.

Lemma dict_get_app a b key :
  dict_get (a ++ b) key
  = match dict_get a key with Some v => Some v | None => dict_get b key end.
Proof.
  unfold dict_get. induction a as [|[k v] a IH]; simpl; [reflexivity|].
  destruct (key_eqb k key); [reflexivity|exact IH].
Qed.

Lemma fold_store_get pairs : forall result key,
  dict_get (fold_left (fun r kv => dict_store r (fst kv) (snd kv))
                      pairs result) key
  = match last_written pairs key with
    | Some v => Some v
    | None => dict_get result key
    end.
Proof.
  unfold last_written.
  induction pairs as [|[k v] pairs IH]; intros result key; simpl.
  - reflexivity.
  - rewrite IH, dict_get_app, dict_get_store.
    destruct (dict_get (rev pairs) key); [reflexivity|].
    unfold dict_get at 2. simpl. now destruct (key_eqb k key).
Qed.

Lemma fold_store_distinct pairs : forall result,
  distinct_keys result ->
  distinct_keys (fold_left (fun r kv => dict_store r (fst kv) (snd kv))
                           pairs result).
Proof.
  induction pairs as [|kv pairs IH]; intros result H; simpl; [exact H|].
  apply IH. now apply dict_store_distinct.
Qed.

(** The loop of [_read_hash] stores the pairs of the stream one after
    the other. *)
Lemma hash_loop_stream read n : forall acc result self out self',
  stream_pairs read n acc self = Return out self' ->
  exists pairs,
    out = acc ++ pairs
    /\ length pairs = n
    /\ (Forall (fun kv => hashable (fst kv) = true) pairs ->
        hash_loop read n result self
        = Return (fold_left (fun r kv => dict_store r (fst kv) (snd kv))
                            pairs result) self').
Proof.
  induction n as [|n IH]; intros acc result self out self' H.
  - cbn in H. injection H as <- <-. exists []. rewrite app_nil_r.
    repeat split.
  - cbn [stream_pairs hash_loop] in *. unfold bind in *.
    destruct (read self) as [key self1|]; [|discriminate].
    destruct (read self1) as [value self2|]; [|discriminate].
    destruct (IH _ (dict_store result key value) _ _ _ H)
      as (pairs & -> & Hlen & Hloop).
    exists ((key, value) :: pairs). rewrite <- app_assoc.
    split; [reflexivity|]. split; [simpl; now rewrite Hlen|].
    intros Hall. inversion Hall as [|? ? Hk Hrest]; subst.
    unfold dict_setitem. simpl in Hk. rewrite Hk. simpl.
    now apply Hloop.
Qed.

(** C1, as the code has it. When the keys of the stream are hashable,
    the HASH production returns the dict built by storing the pairs of
    the stream one after the other: no key of the Mapping equals
    another, and the value under a key is the one of the last pair of
    the stream written under it. *)
Theorem read_hash_last_write_wins read self size self1 pairs self2 :
  _read_int self = Return size self1 ->
  stream_pairs read (Z.to_nat size) [] self1 = Return pairs self2 ->
  Forall (fun kv => hashable (fst kv) = true) pairs ->
  _read_hash read self = Return (VDict (dict_of_pairs pairs)) self2
  /\ distinct_keys (dict_of_pairs pairs)
  /\ (forall key,
         dict_get (dict_of_pairs pairs) key = last_written pairs key).
Proof.
  intros Hsize Hstream Hall.
  destruct (hash_loop_stream read _ [] [] _ _ _ Hstream)
    as (pairs' & Heq & _ & Hloop).
  simpl in Heq. subst pairs'. repeat split.
  - unfold _read_hash, bind. rewrite Hsize, (Hloop Hall). reflexivity.
  - apply fold_store_distinct. exact I.
  - intros key. unfold dict_of_pairs. rewrite fold_store_get.
    now destruct (last_written pairs key).
Qed.

Lemma read_hash_last_write_wins_witness :
  _read_hash (_read 1) (mkMarshal duplicate_key_hash 3 [])
  = Return (VDict (dict_of_pairs [(VInt 1, VInt 2); (VInt 1, VInt 3)]))
           (mkMarshal duplicate_key_hash 12 [])
  /\ distinct_keys (dict_of_pairs [(VInt 1, VInt 2); (VInt 1, VInt 3)])
  /\ (forall key,
         dict_get (dict_of_pairs [(VInt 1, VInt 2); (VInt 1, VInt 3)]) key
         = last_written [(VInt 1, VInt 2); (VInt 1, VInt 3)] key).
Proof.
  apply (read_hash_last_write_wins (_read 1)
           (mkMarshal duplicate_key_hash 3 []) 2
           (mkMarshal duplicate_key_hash 4 [])).
  - reflexivity.
  - reflexivity.
  - repeat constructor.
Defined.

(** C1 as stated fails on [{1 => 2, 1 => 3}]: the stream holds the two
    pairs, the Mapping returned holds the key 1 once, with the value
    3. *)
Lemma read_hash_drops_duplicate_key :
  stream_pairs (_read 1) 2 [] (mkMarshal duplicate_key_hash 4 [])
  = Return [(VInt 1, VInt 2); (VInt 1, VInt 3)]
           (mkMarshal duplicate_key_hash 12 [])
  /\ load 2 duplicate_key_hash = Value (VDict [(VInt 1, VInt 3)])
  /\ ~ In (VInt 1, VInt 2) [(VInt 1, VInt 3)].
Proof.
  repeat split. intros [H|[]]. discriminate H.
Qed.

(** ** C5: a negative count *)

(** C5, as the code has it. An ARRAY or HASH production whose count
    decodes to a negative number does not fail: no element is decoded,
    the production returns the empty list or the empty dict and the
    cursor stays just after the count. A count that cannot be decoded
    fails the production with the error of the integer codec. *)
Theorem negative_count_gives_empty read self :
  (forall size self',
      _read_int self = Return size self' -> size < 0 ->
      _read_array read self = Return (VList []) self'
      /\ _read_hash read self = Return (VDict []) self')
  /\ (forall e,
         _read_int self = Raise e ->
         _read_array read self = Raise e /\ _read_hash read self = Raise e).
Proof.
  split.
  - intros size self' H Hneg. unfold _read_array, _read_hash, bind.
    rewrite H. replace (Z.to_nat size) with O by lia. split; reflexivity.
  - intros e H. unfold _read_array, _read_hash, bind. rewrite H.
    split; reflexivity.
Qed.

Lemma negative_count_gives_empty_witness :
  _read_array (_read 1) (mkMarshal negative_count_array 3 [])
  = Return (VList []) (mkMarshal negative_count_array 4 [])
  /\ _read_hash (_read 1) (mkMarshal negative_count_array 3 [])
     = Return (VDict []) (mkMarshal negative_count_array 4 []).
Proof.
  apply (proj1 (negative_count_gives_empty (_read 1)
                  (mkMarshal negative_count_array 3 [])) (-1)).
  - reflexivity.
  - lia.
Defined.

(** C5 as stated fails on a count of -1: the calls return the empty
    list and the empty dict, they do not fail. *)
Lemma negative_count_does_not_fail :
  _read_int (mkMarshal negative_count_array 3 [])
  = Return (-1) (mkMarshal negative_count_array 4 [])
  /\ load 2 negative_count_array = Value (VList [])
  /\ _read_int (mkMarshal negative_count_hash 3 [])
     = Return (-1) (mkMarshal negative_count_hash 4 [])
  /\ load 2 negative_count_hash = Value (VDict []).
Proof. repeat split. Qed.

(** ** C7: the BIGNUM production *)

Lemma bignum_loop_sum bs : forall i acc,
  0 <= i ->
  bignum_loop bs i acc = acc + 2 ^ (8 * i) * little_endian bs.
Proof.
  induction bs as [|b bs IH]; intros i acc Hi.
  - simpl. lia.
  - cbn [bignum_loop little_endian]. rewrite unsigned_of_byte_val.
    rewrite IH by lia. rewrite Z.shiftl_mul_pow2 by lia.
    replace (8 * (i + 1)) with (8 * i + 8) by lia.
    rewrite Z.pow_add_r by lia. change (2 ^ 8) with 256.
    replace (i * 8) with (8 * i) by lia. ring.
Qed.

(** C7. On a buffer that holds a sign byte, the encoding of a length
    [n] and [2 * n] bytes, [_read_bignum] returns the sum of
    [byte_i * 256^i] over those bytes taken unsigned, whatever the sign
    byte, with the cursor just after them; and whatever the buffer,
    an integer it returns is not negative. *)
Theorem read_bignum_magnitude :
  (forall self sign c payload bs,
      holds_at (_data self) (_position self) (sign :: c :: payload ++ bs) ->
      length payload = payload_length (signed c) ->
      len bs = 2 * packed_fixnum (signed c) payload ->
      _read_bignum self
      = Return (little_endian bs) (advance (2 + len payload + len bs) self)
      /\ 0 <= little_endian bs)
  /\ (forall self v self', _read_bignum self = Return v self' -> 0 <= v).
Proof.
  split.
  - intros self sign c payload bs H Hlen Hn.
    split; [|apply little_endian_range].
    unfold _read_bignum, bind.
    rewrite (read_byte_at self sign _ H).
    apply holds_at_cons in H. destruct H as [_ H].
    apply holds_at_advance in H.
    change (c :: payload ++ bs) with ((c :: payload) ++ bs) in H.
    apply holds_at_app in H. destruct H as [Hint Hbs].
    rewrite (read_int_at _ c payload Hint Hlen).
    replace (packed_fixnum (signed c) payload * 2) with (len bs) by lia.
    rewrite read_bytes_at.
    + unfold ret. rewrite !advance_advance.
      rewrite bignum_loop_sum by lia. change (2 ^ (8 * 0)) with 1.
      f_equal; [lia|f_equal; lia].
    + rewrite len_cons in Hbs. rewrite advance_advance.
      apply holds_at_advance. simpl _position in *.
      now rewrite Z.add_assoc.
  - intros self v self' H. unfold _read_bignum, bind, ret in H.
    destruct (_read_byte self) as [? self1|]; [|discriminate].
    destruct (_read_int self1) as [n self2|]; [|discriminate].
    destruct (_read_bytes (n * 2) self2) as [bs self3|]; [|discriminate].
    injection H as <- _. rewrite bignum_loop_sum by lia.
    pose proof (little_endian_range bs). change (2 ^ (8 * 0)) with 1. lia.
Qed.

(** The bignum 2^64 with the sign byte '-': the magnitude is returned,
    not its opposite. *)
Lemma read_bignum_magnitude_witness :
  _read_bignum
    (mkMarshal [x2d; x0a; x00; x00; x00; x00; x00; x00; x00; x00; x01; x00]
               0 [])
  = Return (little_endian [x00; x00; x00; x00; x00; x00; x00; x00; x01; x00])
      (advance (2 + len (@nil byte) + len [x00; x00; x00; x00; x00; x00; x00; x00;
                                  x01; x00])
         (mkMarshal [x2d; x0a; x00; x00; x00; x00; x00; x00; x00; x00; x01;
                     x00] 0 []))
  /\ 0 <= little_endian [x00; x00; x00; x00; x00; x00; x00; x00; x01; x00].
Proof.
  apply (proj1 read_bignum_magnitude
           (mkMarshal [x2d; x0a; x00; x00; x00; x00; x00; x00; x00; x00;
                       x01; x00] 0 [])
           x2d x0a [] [x00; x00; x00; x00; x00; x00; x00; x00; x01; x00]).
  - exists [], []. split; reflexivity.
  - reflexivity.
  - reflexivity.
Defined.

(** ** C9: the IVARS production *)



(** ** Bytes after an encoding that is complete by the grammar *)

Lemma frames_weaken {A} (c : M A) bs p t (Q Q' : A -> list pystr -> Prop) :
  frames c bs p t Q -> (forall a t', Q a t' -> Q' a t') -> frames c bs p t Q'.
Proof.
  intros (sh & H & HQ) Himp. exists sh. split; [exact H|].
  destruct sh; auto.
Qed.

Lemma frames_bind {A B} (c : M A) (k : A -> M B) bs1 bs2 p t Q1 Q2 :
  frames c bs1 p t Q1 ->
  (forall a t', Q1 a t' -> frames (k a) bs2 (p + len bs1) t' Q2) ->
  frames (bind c k) (bs1 ++ bs2) p t Q2.
Proof.
  intros (sh1 & H1 & HQ1) Hk. destruct sh1 as [a t'|e].
  - destruct (Hk a t' HQ1) as (sh2 & H2 & HQ2). exists sh2.
    split; [|exact HQ2]. intros data Hd.
    apply holds_at_app in Hd. destruct Hd as [Hd1 Hd2].
    unfold bind. rewrite (H1 data Hd1). cbn [run_of].
    rewrite (H2 data Hd2), len_app. now rewrite Z.add_assoc.
  - exists (Raises e). split; [|exact I]. intros data Hd.
    apply holds_at_app in Hd. destruct Hd as [Hd1 _].
    unfold bind. now rewrite (H1 data Hd1).
Qed.

Lemma frames_bind_nil {A B} (c : M A) (k : A -> M B) bs p t Q1 Q2 :
  frames c bs p t Q1 ->
  (forall a t', Q1 a t' -> frames (k a) [] (p + len bs) t' Q2) ->
  frames (bind c k) bs p t Q2.
Proof.
  intros Hc Hk. rewrite <- (app_nil_r bs). eapply frames_bind; eauto.
Qed.

Lemma frames_ret {A} (a : A) p t (Q : A -> list pystr -> Prop) :
  Q a t -> frames (ret a) [] p t Q.
Proof.
  intros HQ. exists (Returns a t). split; [|exact HQ].
  intros data _. unfold ret. simpl. change (len []) with 0.
  now rewrite Z.add_0_r.
Qed.

Lemma frames_raise {A} (e : exn) bs p t (Q : A -> list pystr -> Prop) :
  frames (raise e) bs p t Q.
Proof. exists (Raises e). split; [reflexivity|exact I]. Qed.

Lemma frames_read_byte b p t :
  frames _read_byte [b] p t (fun a t' => a = signed b /\ t' = t).
Proof.
  exists (Returns (signed b) t). split; [|now split].
  intros data Hd. exact (read_byte_at (mkMarshal data p t) b [] Hd).
Qed.

Lemma frames_read_int e z p t :
  fixnum e z -> frames _read_int e p t (fun a t' => a = z /\ t' = t).
Proof.
  intros (c & payload & -> & Hlen & ->).
  exists (Returns (packed_fixnum (signed c) payload) t). split; [|now split].
  intros data Hd.
  rewrite (read_int_at (mkMarshal data p t) c payload Hd Hlen).
  now rewrite len_cons.
Qed.

Lemma frames_read_bytes bs p t :
  frames (_read_bytes (len bs)) bs p t (fun a t' => a = bs /\ t' = t).
Proof.
  exists (Returns bs t). split; [|now split].
  intros data Hd. exact (read_bytes_at (mkMarshal data p t) bs Hd).
Qed.

Lemma frames_decode data_bytes p t :
  frames (decode data_bytes) [] p t (fun _ t' => t' = t).
Proof.
  unfold decode. destruct (decode_utf8 data_bytes).
  - now apply frames_ret.
  - apply frames_raise.
Qed.

Lemma frames_symbols_append symbol p t :
  frames (symbols_append symbol) [] p t (fun _ t' => t' = t ++ [symbol]).
Proof.
  exists (Returns tt (t ++ [symbol])). split; [|reflexivity].
  intros data _. unfold symbols_append. simpl. change (len []) with 0.
  now rewrite Z.add_0_r.
Qed.

Lemma len_nil_inv {A} (l : list A) : len l = 0 -> l = [].
Proof. destruct l; [reflexivity|]. rewrite len_cons. pose proof (len_nonneg l). lia. Qed.

Lemma frames_read_symbol e bs p t :
  fixnum e (len bs) ->
  frames _read_symbol (e ++ bs) p t (fun _ t' => length t' = S (length t)).
Proof.
  intros He. unfold _read_symbol.
  eapply frames_bind; [exact (frames_read_int e _ p t He)|].
  intros size t' [-> ->].
  eapply frames_bind_nil
    with (Q1 := fun (_ : pystr) t' => t' = t).
  - destruct (len bs =? 0) eqn:E.
    + apply Z.eqb_eq in E. apply len_nil_inv in E. subst bs.
      now apply frames_ret.
    + eapply frames_bind_nil; [apply frames_read_bytes|].
      intros data_bytes t' [_ ->].
      eapply frames_bind_nil; [apply frames_decode|].
      intros text t' ->. now apply frames_ret.
  - intros symbol t' ->.
    eapply frames_bind_nil; [apply frames_symbols_append|].
    intros [] t' ->. apply frames_ret.
    rewrite length_app. simpl. lia.
Qed.

Lemma frames_read_symbol_link e i p t :
  fixnum e i -> 0 <= i < len t ->
  frames _read_symbol_link e p t (fun _ t' => t' = t).
Proof.
  intros He Hi. unfold _read_symbol_link.
  eapply frames_bind_nil; [exact (frames_read_int e _ p t He)|].
  intros link t' [-> ->].
  destruct (nth_error t (Z.to_nat i)) as [symbol|] eqn:En.
  - exists (Returns symbol t). split; [|reflexivity].
    intros data _. cbn [_symbols run_of]. unfold py_getitem.
    destruct (i >=? len t) eqn:E; [lia|].
    destruct (0 <=? i) eqn:E0; [|lia].
    rewrite En. change (len []) with 0. now rewrite Z.add_0_r.
  - apply nth_error_None in En. unfold len in Hi. lia.
Qed.

Lemma frames_read_class_symbol s name s1 p t :
  symbol_or_link s name s1 -> length t = s ->
  frames read_class_symbol name p t (fun _ t' => length t' = s1).
Proof.
  intros Hname Ht. unfold read_class_symbol.
  destruct Hname as [s e bs He|s e i He Hi].
  - change (x3a :: e ++ bs) with ([x3a] ++ e ++ bs).
    eapply frames_bind; [apply frames_read_byte|].
    intros type_byte t' [-> ->].
    change (RubyTypeM.from_byte (signed x3a)) with (Some SYMBOL).
    cbv iota. eapply frames_weaken; [now apply frames_read_symbol|].
    intros _ t' ->. now rewrite Ht.
  - change (x3b :: e) with ([x3b] ++ e).
    eapply frames_bind; [apply frames_read_byte|].
    intros type_byte t' [-> ->].
    change (RubyTypeM.from_byte (signed x3b)) with (Some SYMBOL_LINK).
    cbv iota. eapply frames_weaken.
    + apply (frames_read_symbol_link e i); [assumption|unfold len; lia].
    + intros _ t' ->. exact Ht.
Qed.

(** The value productions for a symbol and a symbol link. *)
Lemma frames_read_symbol_value depth s e s' p t :
  symbol_or_link s e s' -> length t = s ->
  frames (_read (S depth)) e p t (fun _ t' => length t' = s').
Proof.
  intros Hname Ht. cbn [_read]. unfold read_body.
  destruct Hname as [s e bs He|s e i He Hi].
  - change (x3a :: e ++ bs) with ([x3a] ++ e ++ bs).
    eapply frames_bind; [apply frames_read_byte|].
    intros type_byte t' [-> ->].
    change (RubyTypeM.from_byte (signed x3a)) with (Some SYMBOL).
    cbv iota. eapply frames_bind_nil; [now apply frames_read_symbol|].
    intros symbol t' Hl. apply frames_ret. now rewrite Hl, Ht.
  - change (x3b :: e) with ([x3b] ++ e).
    eapply frames_bind; [apply frames_read_byte|].
    intros type_byte t' [-> ->].
    change (RubyTypeM.from_byte (signed x3b)) with (Some SYMBOL_LINK).
    cbv iota. eapply frames_bind_nil.
    + apply (frames_read_symbol_link e i); [assumption|unfold len; lia].
    + intros symbol t' ->. now apply frames_ret.
Qed.

Ltac read_tag T :=
  match goal with
  | |- frames _ (?b :: ?rest) _ _ _ =>
      change (b :: rest) with ([b] ++ rest);
      eapply frames_bind; [apply frames_read_byte|];
      intros ? ? [-> ->];
      change (RubyTypeM.from_byte (signed b)) with (Some T);
      cbv iota
  end.

Ltac read_count He :=
  eapply frames_bind; [exact (frames_read_int _ _ _ _ He)|];
  intros ? ? [-> ->]; rewrite ?Nat2Z.id.

Lemma frames_read_bignum sign e n bs p t :
  fixnum e n -> len bs = 2 * n ->
  frames _read_bignum (sign :: e ++ bs) p t (fun _ t' => t' = t).
Proof.
  intros He Hn. unfold _read_bignum.
  change (sign :: e ++ bs) with ([sign] ++ e ++ bs).
  eapply frames_bind; [apply frames_read_byte|].
  intros ? ? [_ ->]. read_count He.
  replace (n * 2) with (len bs) by lia.
  eapply frames_bind_nil; [apply frames_read_bytes|].
  intros ? ? [_ ->]. now apply frames_ret.
Qed.

Lemma frames_read_string e bs p t :
  fixnum e (len bs) ->
  frames _read_string (e ++ bs) p t (fun _ t' => t' = t).
Proof.
  intros He. unfold _read_string. read_count He.
  eapply frames_bind_nil; [apply frames_read_bytes|].
  intros ? ? [_ ->]. apply frames_decode.
Qed.

(** What the loops and [_read] do on well-formed encodings does not
    depend on the rest of the buffer. *)
Lemma read_frames :
  (forall s e s',
      well_formed s e s' ->
      forall depth p t,
        length t = s ->
        frames (_read depth) e p t (fun _ t' => length t' = s'))
  /\ (forall n s es s',
         well_formed_items n s es s' ->
         forall depth p t acc,
           length t = s ->
           frames (array_loop (_read depth) n acc) es p t
                  (fun _ t' => length t' = s'))
  /\ (forall n s es s',
         well_formed_pairs n s es s' ->
         forall depth p t,
           length t = s ->
           (forall acc, frames (hash_loop (_read depth) n acc) es p t
                               (fun _ t' => length t' = s'))
           /\ (forall acc, frames (ivar_loop (_read depth) n acc) es p t
                                  (fun _ t' => length t' = s'))
           /\ (forall acc, frames (object_loop (_read depth) n acc) es p t
                                  (fun _ t' => length t' = s'))).
Proof.
  apply well_formed_mutind.
  - (* NIL *)
    intros s [|depth] p t Ht; [apply frames_raise|].
    cbn [_read]. unfold read_body. read_tag NIL. now apply frames_ret.
  - (* TRUE *)
    intros s [|depth] p t Ht; [apply frames_raise|].
    cbn [_read]. unfold read_body. read_tag TRUE. now apply frames_ret.
  - (* FALSE *)
    intros s [|depth] p t Ht; [apply frames_raise|].
    cbn [_read]. unfold read_body. read_tag FALSE. now apply frames_ret.
  - (* INT *)
    intros s e z He [|depth] p t Ht; [apply frames_raise|].
    cbn [_read]. unfold read_body. read_tag INT.
    eapply frames_bind_nil; [exact (frames_read_int _ _ _ _ He)|].
    intros ? ? [_ ->]. now apply frames_ret.
  - (* BIGNUM *)
    intros s sign e n bs He Hn [|depth] p t Ht; [apply frames_raise|].
    cbn [_read]. unfold read_body. read_tag BIGNUM.
    eapply frames_bind_nil; [now apply (frames_read_bignum sign e n bs)|].
    intros ? ? ->. now apply frames_ret.
  - (* STRING *)
    intros s e bs He [|depth] p t Ht; [apply frames_raise|].
    cbn [_read]. unfold read_body. read_tag STRING.
    eapply frames_bind_nil; [now apply frames_read_string|].
    intros ? ? ->. now apply frames_ret.
  - (* SYMBOL, SYMBOL_LINK *)
    intros s e s' Hname [|depth] p t Ht; [apply frames_raise|].
    now apply (frames_read_symbol_value depth s).
  - (* ARRAY *)
    intros s e n items s' He _ IH [|depth] p t Ht; [apply frames_raise|].
    cbn [_read]. unfold read_body. read_tag ARRAY.
    unfold _read_array. read_count He.
    eapply frames_bind_nil; [now apply IH|].
    intros ? ? Hl. now apply frames_ret.
  - (* HASH *)
    intros s e n pairs s' He _ IH [|depth] p t Ht; [apply frames_raise|].
    cbn [_read]. unfold read_body. read_tag HASH.
    unfold _read_hash. read_count He.
    eapply frames_bind_nil; [now apply IH|].
    intros ? ? Hl. now apply frames_ret.
  - (* IVARS *)
    intros s payload s1 e n attributes s2 _ IHp He _ IHa [|depth] p t Ht;
      [apply frames_raise|].
    cbn [_read]. unfold read_body. read_tag IVARS.
    unfold _read_ivar.
    eapply frames_bind; [now apply IHp|].
    intros result t1 Ht1. read_count He.
    eapply frames_bind_nil; [now apply IHa|].
    intros ? ? Hl. now apply frames_ret.
  - (* OBJECT *)
    intros s name s1 e n pairs s2 Hname He _ IH [|depth] p t Ht;
      [apply frames_raise|].
    cbn [_read]. unfold read_body. read_tag OBJECT.
    unfold _read_object.
    eapply frames_bind; [now apply (frames_read_class_symbol s name s1)|].
    intros symbol t1 Ht1. read_count He.
    eapply frames_bind_nil; [now apply IH|].
    intros ? ? Hl. now apply frames_ret.
  - (* USERDEF *)
    intros s name s1 e bs Hname He [|depth] p t Ht; [apply frames_raise|].
    cbn [_read]. unfold read_body. read_tag USERDEF.
    unfold _read_userdef.
    eapply frames_bind; [now apply (frames_read_class_symbol s name s1)|].
    intros symbol t1 Ht1. read_count He.
    eapply frames_bind_nil; [apply frames_read_bytes|].
    intros ? ? [_ ->].
    eapply frames_bind_nil; [apply frames_decode|].
    intros ? ? ->. now apply frames_ret.
  - (* USR_MARSHAL *)
    intros s name s1 obj s2 Hname _ IH [|depth] p t Ht; [apply frames_raise|].
    cbn [_read]. unfold read_body. read_tag USR_MARSHAL.
    unfold _read_usr_marshal.
    eapply frames_bind; [now apply (frames_read_class_symbol s name s1)|].
    intros symbol t1 Ht1.
    eapply frames_bind_nil; [now apply IH|].
    intros ? ? Hl. now apply frames_ret.
  - (* EXTENDED *)
    intros s [|depth] p t Ht; [apply frames_raise|].
    cbn [_read]. unfold read_body. read_tag EXTENDED.
    unfold _read_extended. now apply frames_ret.
  - (* LINK *)
    intros s e z He [|depth] p t Ht; [apply frames_raise|].
    cbn [_read]. unfold read_body. read_tag LINK.
    unfold _read_link.
    eapply frames_bind_nil; [exact (frames_read_int _ _ _ _ He)|].
    intros ? ? [_ ->]. now apply frames_ret.
  - (* no item *)
    intros s depth p t acc Ht. cbn. now apply frames_ret.
  - (* an item and the others *)
    intros n s item s1 items s2 _ IHi _ IHs depth p t acc Ht.
    cbn [array_loop].
    eapply frames_bind; [now apply IHi|].
    intros v t1 Ht1. now apply IHs.
  - (* no pair *)
    intros s depth p t Ht. repeat split; intros acc; cbn;
      now apply frames_ret.
  - (* a pair and the others *)
    intros n s key s1 value s2 pairs s3 _ IHk _ IHv _ IHs depth p t Ht.
    repeat split; intros acc.
    + cbn [hash_loop].
      eapply frames_bind; [now apply IHk|]. intros k t1 Ht1.
      eapply frames_bind; [now apply IHv|]. intros v t2 Ht2.
      destruct (dict_setitem acc k v); [|apply frames_raise].
      now apply (IHs depth _ t2 Ht2).
    + cbn [ivar_loop].
      eapply frames_bind; [now apply IHk|]. intros k t1 Ht1.
      eapply frames_bind; [now apply IHv|]. intros v t2 Ht2.
      now apply (IHs depth _ t2 Ht2).
    + cbn [object_loop].
      eapply frames_bind; [now apply IHk|]. intros k t1 Ht1.
      eapply frames_bind; [now apply IHv|]. intros v t2 Ht2.
      now apply (IHs depth _ t2 Ht2).
Qed.

Lemma load_after_header depth rest :
  _load depth (__init__ (x04 :: x08 :: rest))
  = _read depth (mkMarshal (x04 :: x08 :: rest) 2 []).
Proof.
  unfold _load, bind, __init__.
  rewrite (read_byte_at _ x04 []) by (exists [], (x08 :: rest); now split).
  change (signed x04 =? 4) with true. cbv iota beta.
  rewrite (read_byte_at _ x08 []) by (exists [x04], rest; now split).
  reflexivity.
Qed.

(** On a buffer that is the version bytes, an encoding that is complete
    by the grammar, and any bytes after it, [load] gives what it gives
    on the buffer without those bytes. *)
Lemma load_same_with_trailing_bytes value s' :
  well_formed 0 value s' ->
  forall depth trailing,
    load depth (x04 :: x08 :: value ++ trailing)
    = load depth (x04 :: x08 :: value).
Proof.
  intros Hwf depth trailing.
  destruct (proj1 read_frames 0%nat value s' Hwf depth 2 [] eq_refl)
    as (sh & Hrun & _).
  assert (H1 : holds_at (x04 :: x08 :: value ++ trailing) 2 value)
    by (exists [x04; x08], trailing; now split).
  assert (H2 : holds_at (x04 :: x08 :: value) 2 value)
    by (exists [x04; x08], []; rewrite app_nil_r; now split).
  unfold load. rewrite !load_after_header, (Hrun _ H1), (Hrun _ H2).
  now destruct sh.
Qed.

(** * Further properties of the decoder *)

(** ** The byte cursor, case by case *)

Lemma read_byte_inv self v self' :
  _read_byte self = Return v self' ->
  exists b,
    py_getitem (_data self) (_position self) = Some b
    /\ v = signed b /\ self' = advance 1 self.
Proof.
  unfold _read_byte.
  destruct (_position self >=? len (_data self)); [discriminate|].
  destruct (py_getitem (_data self) (_position self)) as [b|];
    [|discriminate].
  intros H. injection H as <- <-. exists b. repeat split.
Qed.

(** X1. [_read_byte] by the place of the cursor: at or after the end of
    the buffer it raises the end-of-data error; inside the buffer it
    returns the signed reading, -128..127, of the byte under the cursor
    and moves on by one; below 0 it reads the byte counted from the end
    of the buffer, and below minus the length it raises [IndexError]. *)
Theorem read_byte_cases self :
  (len (_data self) <= _position self ->
   _read_byte self
   = Raise (RuntimeError (UnexpectedEndOfData (_position self))))
  /\ (0 <= _position self < len (_data self) ->
      exists b,
        nth_error (_data self) (Z.to_nat (_position self)) = Some b
        /\ _read_byte self = Return (signed b) (advance 1 self)
        /\ -128 <= signed b <= 127)
  /\ (- len (_data self) <= _position self < 0 ->
      exists b,
        nth_error (_data self)
                  (Z.to_nat (len (_data self) + _position self)) = Some b
        /\ _read_byte self = Return (signed b) (advance 1 self))
  /\ (_position self < - len (_data self) ->
      _read_byte self = Raise IndexError).
Proof.
  unfold _read_byte, py_getitem. pose proof (len_nonneg (_data self)).
  repeat match goal with |- _ /\ _ => split end; intros Hp.
  - destruct (_position self >=? len (_data self)) eqn:E; [reflexivity|lia].
  - destruct (_position self >=? len (_data self)) eqn:E; [lia|].
    destruct (0 <=? _position self) eqn:E0; [|lia].
    destruct (nth_error (_data self) (Z.to_nat (_position self)))
      as [b|] eqn:En.
    + exists b. repeat split; apply signed_range.
    + apply nth_error_None in En. unfold len in *. lia.
  - destruct (_position self >=? len (_data self)) eqn:E; [lia|].
    destruct (0 <=? _position self) eqn:E0; [lia|].
    destruct (0 <=? len (_data self) + _position self) eqn:E1; [|lia].
    destruct (nth_error (_data self)
                (Z.to_nat (len (_data self) + _position self)))
      as [b|] eqn:En.
    + exists b. repeat split.
    + apply nth_error_None in En. unfold len in *. lia.
  - destruct (_position self >=? len (_data self)) eqn:E; [lia|].
    destruct (0 <=? _position self) eqn:E0; [lia|].
    destruct (0 <=? len (_data self) + _position self) eqn:E1; [lia|].
    reflexivity.
Qed.

Lemma read_byte_cases_witness :
  exists b,
    nth_error [x04; x08; xfa] (Z.to_nat (len [x04; x08; xfa] + -1)) = Some b
    /\ _read_byte (mkMarshal [x04; x08; xfa] (-1) [])
       = Return (signed b) (advance 1 (mkMarshal [x04; x08; xfa] (-1) [])).
Proof.
  apply (proj1 (proj2 (proj2 (read_byte_cases
                                (mkMarshal [x04; x08; xfa] (-1) []))))).
  simpl. unfold len. simpl. lia.
Defined.

Lemma py_slice_nonneg {A} (l : list A) p count :
  0 <= p -> 0 <= count -> p + count <= len l ->
  py_slice l p (p + count)
  = firstn (Z.to_nat count) (skipn (Z.to_nat p) l).
Proof.
  intros Hp Hc Hl. unfold py_slice, slice_bound.
  destruct (p <? 0) eqn:E1; [lia|].
  destruct (p + count <? 0) eqn:E2; [lia|].
  rewrite !Z.min_l by lia. do 2 f_equal. lia.
Qed.

Lemma read_bytes_enough self count :
  0 <= _position self -> 0 <= count ->
  _position self + count <= len (_data self) ->
  _read_bytes count self
  = Return (firstn (Z.to_nat count)
                   (skipn (Z.to_nat (_position self)) (_data self)))
           (advance count self)
  /\ len (firstn (Z.to_nat count)
                 (skipn (Z.to_nat (_position self)) (_data self))) = count.
Proof.
  intros Hp Hc H. unfold _read_bytes.
  destruct (_position self + count >? len (_data self)) eqn:E; [lia|].
  rewrite py_slice_nonneg by lia. split; [reflexivity|].
  unfold len in *. rewrite length_firstn, length_skipn. lia.
Qed.

Lemma read_bytes_short self count :
  0 <= _position self -> 0 <= count ->
  len (_data self) < _position self + count ->
  _read_bytes count self
  = Raise (RuntimeError
             (NotEnoughData count (len (_data self) - _position self))).
Proof.
  intros Hp Hc H. unfold _read_bytes.
  destruct (_position self + count >? len (_data self)) eqn:E; [|lia].
  reflexivity.
Qed.

(** X2. [_read_bytes] for a count and a cursor that are not negative:
    when [count] bytes remain it returns exactly the [count] bytes from
    the cursor on and moves on by [count]; when fewer remain it raises
    the not-enough-data error with the count asked for and the number of
    bytes left, and this is the only way it fails. *)
Theorem read_bytes_cases self count :
  0 <= _position self -> 0 <= count ->
  (_position self + count <= len (_data self) ->
   _read_bytes count self
   = Return (firstn (Z.to_nat count)
                    (skipn (Z.to_nat (_position self)) (_data self)))
            (advance count self)
   /\ len (firstn (Z.to_nat count)
                  (skipn (Z.to_nat (_position self)) (_data self))) = count)
  /\ (len (_data self) < _position self + count ->
      _read_bytes count self
      = Raise (RuntimeError
                 (NotEnoughData count (len (_data self) - _position self)))).
Proof.
  intros Hp Hc. split; intros H.
  - now apply read_bytes_enough.
  - now apply read_bytes_short.
Qed.

Lemma read_bytes_cases_witness :
  _read_bytes 5 (mkMarshal [x04; x08; x22; x0a; x61; x62] 4 [])
  = Raise (RuntimeError
             (NotEnoughData 5 (len [x04; x08; x22; x0a; x61; x62] - 4))).
Proof.
  apply (proj2 (read_bytes_cases
                  (mkMarshal [x04; x08; x22; x0a; x61; x62] 4 []) 5
                  ltac:(simpl; lia) ltac:(lia))).
  unfold len. simpl. lia.
Defined.

(** X3. Reading [a + b] bytes at once is reading [a] bytes and then [b]
    bytes: the bytes are the two reads one after the other and the
    cursor ends at the same place. *)
Theorem read_bytes_split self a b data_bytes self' :
  0 <= _position self -> 0 <= a -> 0 <= b ->
  _read_bytes (a + b) self = Return data_bytes self' ->
  exists first self1 second,
    _read_bytes a self = Return first self1
    /\ _read_bytes b self1 = Return second self'
    /\ data_bytes = first ++ second.
Proof.
  intros Hp Ha Hb H.
  destruct (Z_le_gt_dec (_position self + (a + b)) (len (_data self)))
    as [Hl|Hl].
  - destruct (read_bytes_enough self (a + b) Hp ltac:(lia) Hl)
      as [Hab _].
    rewrite Hab in H. injection H as <- <-.
    destruct (read_bytes_enough self a Hp Ha ltac:(lia)) as [H1 _].
    destruct (read_bytes_enough (advance a self) b
                ltac:(simpl; lia) Hb ltac:(simpl; lia)) as [H2 _].
    do 3 eexists. split; [exact H1|]. split.
    + rewrite H2, advance_advance. reflexivity.
    + simpl _position. simpl _data.
      replace (Z.to_nat (_position self + a))
        with (Z.to_nat a + Z.to_nat (_position self))%nat by lia.
      rewrite (Z2Nat.inj_add a b) by lia.
      rewrite <- skipn_skipn.
      set (l := skipn (Z.to_nat (_position self)) (_data self)).
      rewrite <- (firstn_skipn (Z.to_nat a) l) at 1.
      rewrite firstn_app, length_firstn.
      destruct (Nat.le_gt_cases (Z.to_nat a) (length l)) as [Hle|Hgt].
      * rewrite Nat.min_l by exact Hle.
        replace (Z.to_nat a + Z.to_nat b - Z.to_nat a)%nat
          with (Z.to_nat b) by lia.
        f_equal. rewrite firstn_firstn. f_equal. lia.
      * exfalso. subst l. rewrite length_skipn in Hgt. unfold len in Hl. lia.
  - rewrite (read_bytes_short self (a + b) Hp ltac:(lia)) in H
      by lia.
    discriminate.
Qed.

Lemma read_bytes_split_witness :
  exists first self1 second,
    _read_bytes 1 (mkMarshal [x61; x62; x63; x64] 1 [])
    = Return first self1
    /\ _read_bytes 2 self1
       = Return second (mkMarshal [x61; x62; x63; x64] 4 [])
    /\ [x62; x63; x64] = first ++ second.
Proof.
  apply (read_bytes_split (mkMarshal [x61; x62; x63; x64] 1 []) 1 2).
  - simpl. lia.
  - lia.
  - lia.
  - reflexivity.
Defined.

(** ** Type bytes *)

Lemma from_byte_some b t :
  RubyTypeM.from_byte b = Some t -> RubyTypeM.value t = b.
Proof.
  intros H. unfold RubyTypeM.from_byte in H.
  apply find_some in H. destruct H as [_ H]. now apply Z.eqb_eq in H.
Qed.

(** X4. [RubyType.from_byte] finds every member by its own value, a
    member it returns has the byte as value, and it returns [None]
    exactly for the bytes that no member has as value. *)
Theorem from_byte_value :
  (forall t, RubyTypeM.from_byte (RubyTypeM.value t) = Some t)
  /\ (forall b t, RubyTypeM.from_byte b = Some t -> RubyTypeM.value t = b)
  /\ (forall b,
         RubyTypeM.from_byte b = None
         <-> forall t, RubyTypeM.value t <> b).
Proof.
  repeat match goal with |- _ /\ _ => split end.
  - intros t. now destruct t.
  - exact from_byte_some.
  - intros b. split.
    + intros H t Ht. unfold RubyTypeM.from_byte in H.
      assert (Hin : In t RubyTypeM.members) by (destruct t; simpl; tauto).
      pose proof (find_none _ _ H t Hin) as Hf. simpl in Hf.
      apply Z.eqb_neq in Hf. contradiction.
    + intros H. destruct (RubyTypeM.from_byte b) as [t|] eqn:E;
        [|reflexivity].
      exfalso. exact (H t (from_byte_some b t E)).
Qed.

(** X5. A type byte that is the value of no member but NONE, the byte 0
    included, makes [_read] raise the not-a-managed-type error with that
    byte, whatever follows it. *)
Theorem read_unmanaged_type depth self b rest :
  holds_at (_data self) (_position self) (b :: rest) ->
  (forall t, t <> NONE -> RubyTypeM.value t <> signed b) ->
  _read (S depth) self = Raise (RuntimeError (NotAManagedType (signed b))).
Proof.
  intros H Hb. cbn [_read]. unfold read_body, bind.
  rewrite (read_byte_at self b rest H).
  destruct (RubyTypeM.from_byte (signed b)) as [t|] eqn:E; [|reflexivity].
  apply from_byte_some in E.
  destruct t; try reflexivity;
    exfalso; (eapply Hb; [|exact E]); discriminate.
Qed.

Lemma read_unmanaged_type_witness :
  _read 1 (mkMarshal [x04; x08; x00] 2 [])
  = Raise (RuntimeError (NotAManagedType (signed x00))).
Proof.
  apply (read_unmanaged_type 0 (mkMarshal [x04; x08; x00] 2 []) x00 []).
  - exists [x04; x08], []. split; reflexivity.
  - intros t Ht. destruct t; try discriminate. now elim Ht.
Defined.

(** X6. In an OBJECT, a USERDEF or a USR_MARSHAL production, a byte
    after the tag that is neither ':' nor ';' raises the
    expecting-symbol error with that byte, also when the byte is no
    type byte at all. *)
Theorem read_class_name_expected depth self tag b rest :
  In tag [x6f; x75; x55] ->
  holds_at (_data self) (_position self) (tag :: b :: rest) ->
  signed b <> 58 -> signed b <> 59 ->
  _read (S depth) self = Raise (RuntimeError (ExpectingSymbol (signed b))).
Proof.
  intros Htag H H58 H59.
  assert (Hclass : read_class_symbol (advance 1 self)
                   = Raise (RuntimeError (ExpectingSymbol (signed b)))).
  { unfold read_class_symbol, bind.
    apply holds_at_cons in H. destruct H as [_ H].
    rewrite (read_byte_at (advance 1 self) b rest H).
    destruct (RubyTypeM.from_byte (signed b)) as [t|] eqn:E; [|reflexivity].
    apply from_byte_some in E.
    destruct t; try reflexivity; simpl in E; congruence. }
  cbn [_read]. unfold read_body, bind at 1.
  rewrite (read_byte_at self tag _ H).
  simpl in Htag. destruct Htag as [<-|[<-|[<-|[]]]].
  - change (RubyTypeM.from_byte (signed x6f)) with (Some OBJECT).
    cbv iota beta. unfold _read_object, bind. now rewrite Hclass.
  - change (RubyTypeM.from_byte (signed x75)) with (Some USERDEF).
    cbv iota beta. unfold _read_userdef, bind. now rewrite Hclass.
  - change (RubyTypeM.from_byte (signed x55)) with (Some USR_MARSHAL).
    cbv iota beta. unfold _read_usr_marshal, bind. now rewrite Hclass.
Qed.

Lemma read_class_name_expected_witness :
  _read 1 (mkMarshal [x04; x08; x6f; x22; x06; x41] 2 [])
  = Raise (RuntimeError (ExpectingSymbol (signed x22))).
Proof.
  apply (read_class_name_expected 0
           (mkMarshal [x04; x08; x6f; x22; x06; x41] 2 []) x6f x22
           [x06; x41]).
  - simpl. tauto.
  - exists [x04; x08], []. split; reflexivity.
  - discriminate.
  - discriminate.
Defined.

(** ** The header *)

(** X7. [load] by the first two bytes: an empty buffer, or the byte 4
    alone, raises the end-of-data error; a first byte other than 4
    raises the version error without a second byte being read, a second
    byte other than 8 raises it too; after 4 and 8 the result is that of
    [_read] with the cursor at 2 and an empty symbol table. *)
Theorem load_header_cases depth :
  load depth [] = Error (RuntimeError (UnexpectedEndOfData 0))
  /\ load depth [x04] = Error (RuntimeError (UnexpectedEndOfData 1))
  /\ (forall b rest,
         b <> x04 ->
         load depth (b :: rest)
         = Error (RuntimeError UnsupportedMarshalVersion))
  /\ (forall b rest,
         b <> x08 ->
         load depth (x04 :: b :: rest)
         = Error (RuntimeError UnsupportedMarshalVersion))
  /\ (forall rest,
         load depth (x04 :: x08 :: rest)
         = returned (_read depth (mkMarshal (x04 :: x08 :: rest) 2 []))).
Proof.
  destruct (load_header depth) as (H0 & H1 & H2 & H3).
  repeat match goal with |- _ /\ _ => split end; try assumption.
  intros rest. unfold load. now rewrite load_after_header.
Qed.

Lemma load_header_cases_witness :
  load 3 [x05; x08; x30] = Error (RuntimeError UnsupportedMarshalVersion).
Proof.
  apply (proj1 (proj2 (proj2 (load_header_cases 3))) x05 [x08; x30]).
  discriminate.
Defined.

(** ** The symbol table only grows *)

Lemma extends_refl self : extends self self.
Proof. split; [reflexivity|]. exists []. now rewrite app_nil_r. Qed.

Lemma extends_moved self p :
  extends self (mkMarshal (_data self) p (_symbols self)).
Proof. split; [reflexivity|]. exists []. simpl. now rewrite app_nil_r. Qed.

Lemma extends_trans a b c : extends a b -> extends b c -> extends a c.
Proof.
  intros [Hd1 [x1 Hs1]] [Hd2 [x2 Hs2]]. split; [congruence|].
  exists (x1 ++ x2). now rewrite Hs2, Hs1, app_assoc.
Qed.

Lemma keeps_ret {A} (a : A) : keeps (ret a).
Proof. intros self a' self' H. injection H as _ <-. apply extends_refl. Qed.

Lemma keeps_raise {A} (e : exn) : keeps (@raise A e).
Proof. intros self a self' H. discriminate. Qed.

Lemma keeps_bind {A B} (c : M A) (k : A -> M B) :
  keeps c -> (forall a, keeps (k a)) -> keeps (bind c k).
Proof.
  intros Hc Hk self b self' H. unfold bind in H.
  destruct (c self) as [a self1|] eqn:E; [|discriminate].
  exact (extends_trans _ _ _ (Hc _ _ _ E) (Hk a _ _ _ H)).
Qed.

Lemma keeps_read_byte : keeps _read_byte.
Proof.
  intros self v self' H. apply read_byte_inv in H.
  destruct H as (b & _ & _ & ->). apply extends_moved.
Qed.

Lemma keeps_read_bytes count : keeps (_read_bytes count).
Proof.
  intros self v self' H. unfold _read_bytes in H.
  destruct (_position self + count >? len (_data self)); [discriminate|].
  injection H as _ <-. apply extends_moved.
Qed.

Lemma keeps_read_int_positive n : forall i x, keeps (read_int_positive n i x).
Proof.
  induction n as [|n IH]; intros i x; cbn [read_int_positive].
  - apply keeps_ret.
  - apply keeps_bind; [apply keeps_read_byte|]. intros b. apply IH.
Qed.

Lemma keeps_read_int_negative n : forall i x, keeps (read_int_negative n i x).
Proof.
  induction n as [|n IH]; intros i x; cbn [read_int_negative].
  - apply keeps_ret.
  - apply keeps_bind; [apply keeps_read_byte|]. intros b. apply IH.
Qed.

Lemma keeps_read_int : keeps _read_int.
Proof.
  unfold _read_int. apply keeps_bind; [apply keeps_read_byte|]. intros c.
  destruct (c =? 0); [apply keeps_ret|].
  destruct (c >? 4); [apply keeps_ret|].
  destruct (c <? -4); [apply keeps_ret|].
  destruct (c >? 0);
    [apply keeps_read_int_positive|apply keeps_read_int_negative].
Qed.

Lemma keeps_decode data_bytes : keeps (decode data_bytes).
Proof.
  unfold decode. destruct (decode_utf8 data_bytes);
    [apply keeps_ret|apply keeps_raise].
Qed.

Lemma keeps_symbols_append symbol : keeps (symbols_append symbol).
Proof.
  intros self a self' H. unfold symbols_append in H. injection H as _ <-.
  split; [reflexivity|]. now exists [symbol].
Qed.

Lemma keeps_read_symbol : keeps _read_symbol.
Proof.
  unfold _read_symbol. apply keeps_bind; [apply keeps_read_int|].
  intros size. apply keeps_bind.
  - destruct (size =? 0); [apply keeps_ret|].
    apply keeps_bind; [apply keeps_read_bytes|]. intros data_bytes.
    apply keeps_bind; [apply keeps_decode|]. intros text. apply keeps_ret.
  - intros symbol. apply keeps_bind; [apply keeps_symbols_append|].
    intros _. apply keeps_ret.
Qed.

Lemma keeps_read_symbol_link : keeps _read_symbol_link.
Proof.
  unfold _read_symbol_link. apply keeps_bind; [apply keeps_read_int|].
  intros link self s self' H.
  destruct (link >=? len (_symbols self)); [discriminate|].
  destruct (py_getitem (_symbols self) link); [|discriminate].
  injection H as _ <-. apply extends_refl.
Qed.

Lemma keeps_read_class_symbol : keeps read_class_symbol.
Proof.
  unfold read_class_symbol. apply keeps_bind; [apply keeps_read_byte|].
  intros type_byte.
  destruct (RubyTypeM.from_byte type_byte) as [[]|];
    try apply keeps_raise;
    [apply keeps_read_symbol|apply keeps_read_symbol_link].
Qed.

Section KeepsProductions.

Variable read : M pyvalue.
Hypothesis keeps_read : keeps read.

Lemma keeps_array_loop n : forall acc, keeps (array_loop read n acc).
Proof.
  induction n as [|n IH]; intros acc; cbn [array_loop].
  - apply keeps_ret.
  - apply keeps_bind; [exact keeps_read|]. intros item. apply IH.
Qed.

Lemma keeps_hash_loop n : forall acc, keeps (hash_loop read n acc).
Proof.
  induction n as [|n IH]; intros acc; cbn [hash_loop].
  - apply keeps_ret.
  - apply keeps_bind; [exact keeps_read|]. intros key.
    apply keeps_bind; [exact keeps_read|]. intros value.
    destruct (dict_setitem acc key value); [apply IH|apply keeps_raise].
Qed.

Lemma keeps_ivar_loop n : forall acc, keeps (ivar_loop read n acc).
Proof.
  induction n as [|n IH]; intros acc; cbn [ivar_loop].
  - apply keeps_ret.
  - apply keeps_bind; [exact keeps_read|]. intros key.
    apply keeps_bind; [exact keeps_read|]. intros value. apply IH.
Qed.

Lemma keeps_object_loop n : forall acc, keeps (object_loop read n acc).
Proof.
  induction n as [|n IH]; intros acc; cbn [object_loop].
  - apply keeps_ret.
  - apply keeps_bind; [exact keeps_read|]. intros key.
    apply keeps_bind; [exact keeps_read|]. intros value. apply IH.
Qed.

Lemma keeps_read_body : keeps (read_body read).
Proof.
  unfold read_body. apply keeps_bind; [apply keeps_read_byte|].
  intros type_byte.
  destruct (RubyTypeM.from_byte type_byte) as [[]|];
    try apply keeps_raise; try apply keeps_ret.
  - unfold _read_hash. apply keeps_bind; [apply keeps_read_int|].
    intros size. apply keeps_bind; [apply keeps_hash_loop|].
    intros r. apply keeps_ret.
  - unfold _read_array. apply keeps_bind; [apply keeps_read_int|].
    intros size. apply keeps_bind; [apply keeps_array_loop|].
    intros r. apply keeps_ret.
  - apply keeps_bind; [apply keeps_read_symbol|]. intros s. apply keeps_ret.
  - apply keeps_bind; [apply keeps_read_symbol_link|].
    intros s. apply keeps_ret.
  - unfold _read_ivar. apply keeps_bind; [exact keeps_read|].
    intros r. apply keeps_bind; [apply keeps_read_int|].
    intros size. apply keeps_bind; [apply keeps_ivar_loop|].
    intros _. apply keeps_ret.
  - apply keeps_bind; [|intros s; apply keeps_ret].
    unfold _read_string. apply keeps_bind; [apply keeps_read_int|].
    intros size. apply keeps_bind; [apply keeps_read_bytes|].
    intros data_bytes. apply keeps_decode.
  - apply keeps_bind; [apply keeps_read_int|]. intros z. apply keeps_ret.
  - apply keeps_bind; [|intros z; apply keeps_ret].
    unfold _read_bignum. apply keeps_bind; [apply keeps_read_byte|].
    intros _. apply keeps_bind; [apply keeps_read_int|].
    intros n. apply keeps_bind; [apply keeps_read_bytes|].
    intros data_bytes. apply keeps_ret.
  - unfold _read_usr_marshal.
    apply keeps_bind; [apply keeps_read_class_symbol|]. intros symbol.
    apply keeps_bind; [exact keeps_read|]. intros obj. apply keeps_ret.
  - unfold _read_userdef.
    apply keeps_bind; [apply keeps_read_class_symbol|]. intros symbol.
    apply keeps_bind; [apply keeps_read_int|]. intros size.
    apply keeps_bind; [apply keeps_read_bytes|]. intros data_bytes.
    apply keeps_bind; [apply keeps_decode|]. intros text. apply keeps_ret.
  - unfold _read_link. apply keeps_bind; [apply keeps_read_int|].
    intros link. apply keeps_ret.
  - unfold _read_object.
    apply keeps_bind; [apply keeps_read_class_symbol|]. intros symbol.
    apply keeps_bind; [apply keeps_read_int|]. intros size.
    apply keeps_bind; [apply keeps_object_loop|]. intros children.
    apply keeps_ret.
Qed.

End KeepsProductions.

(** X8. Whatever [_read] and [_load] decode, when they return the buffer
    is the one they started with and the symbol table is the one they
    started with, with symbols added at its end: no symbol is removed,
    replaced or moved, so an index that pointed at a symbol keeps
    pointing at it. *)
Theorem read_keeps_symbols depth :
  keeps (_read depth)
  /\ keeps (_load depth)
  /\ (forall self v self' i symbol,
         _read depth self = Return v self' ->
         nth_error (_symbols self) i = Some symbol ->
         nth_error (_symbols self') i = Some symbol).
Proof.
  assert (Hread : forall d, keeps (_read d)).
  { induction d as [|d IH]; cbn [_read].
    - apply keeps_raise.
    - now apply keeps_read_body. }
  repeat match goal with |- _ /\ _ => split end.
  - apply Hread.
  - unfold _load. apply keeps_bind; [apply keeps_read_byte|]. intros major.
    destruct (major =? 4); [|apply keeps_raise].
    apply keeps_bind; [apply keeps_read_byte|]. intros minor.
    destruct (minor =? 8); [apply Hread|apply keeps_raise].
  - intros self v self' i symbol H Hi.
    destruct (Hread depth _ _ _ H) as [_ [added ->]].
    rewrite nth_error_app1; [exact Hi|].
    apply nth_error_Some. congruence.
Qed.

Lemma read_keeps_symbols_witness :
  nth_error (_symbols (mkMarshal [x3a; x06; x62] 3 [[58; 97]; [58; 98]])) 0
  = Some [58; 97].
Proof.
  apply (proj2 (proj2 (read_keeps_symbols 1))
           (mkMarshal [x3a; x06; x62] 0 [[58; 97]])
           (VStr [58; 98])
           (mkMarshal [x3a; x06; x62] 3 [[58; 97]; [58; 98]])
           O [58; 97]).
  - reflexivity.
  - reflexivity.
Defined.

(** ** A symbol and the links to it *)

Lemma only_moves_ret {A} (a : A) : only_moves (ret a).
Proof. intros self a' self' H. injection H as _ <-. now split. Qed.

Lemma only_moves_raise {A} (e : exn) : only_moves (@raise A e).
Proof. intros self a self' H. discriminate. Qed.

Lemma only_moves_bind {A B} (c : M A) (k : A -> M B) :
  only_moves c -> (forall a, only_moves (k a)) -> only_moves (bind c k).
Proof.
  intros Hc Hk self b self' H. unfold bind in H.
  destruct (c self) as [a self1|] eqn:E; [|discriminate].
  destruct (Hc _ _ _ E) as [Hd1 Hs1]. destruct (Hk a _ _ _ H) as [Hd2 Hs2].
  split; congruence.
Qed.

Lemma only_moves_read_byte : only_moves _read_byte.
Proof.
  intros self v self' H. apply read_byte_inv in H.
  destruct H as (b & _ & _ & ->). now split.
Qed.

Lemma only_moves_read_bytes count : only_moves (_read_bytes count).
Proof.
  intros self v self' H. unfold _read_bytes in H.
  destruct (_position self + count >? len (_data self)); [discriminate|].
  injection H as _ <-. now split.
Qed.

Lemma only_moves_read_int_positive n :
  forall i x, only_moves (read_int_positive n i x).
Proof.
  induction n as [|n IH]; intros i x; cbn [read_int_positive].
  - apply only_moves_ret.
  - apply only_moves_bind; [apply only_moves_read_byte|]. intros b. apply IH.
Qed.

Lemma only_moves_read_int_negative n :
  forall i x, only_moves (read_int_negative n i x).
Proof.
  induction n as [|n IH]; intros i x; cbn [read_int_negative].
  - apply only_moves_ret.
  - apply only_moves_bind; [apply only_moves_read_byte|]. intros b. apply IH.
Qed.

Lemma only_moves_read_int : only_moves _read_int.
Proof.
  unfold _read_int. apply only_moves_bind; [apply only_moves_read_byte|].
  intros c.
  destruct (c =? 0); [apply only_moves_ret|].
  destruct (c >? 4); [apply only_moves_ret|].
  destruct (c <? -4); [apply only_moves_ret|].
  destruct (c >? 0);
    [apply only_moves_read_int_positive|apply only_moves_read_int_negative].
Qed.

Lemma only_moves_decode data_bytes : only_moves (decode data_bytes).
Proof.
  unfold decode. destruct (decode_utf8 data_bytes);
    [apply only_moves_ret|apply only_moves_raise].
Qed.

Lemma read_symbol_appends self symbol self1 :
  _read_symbol self = Return symbol self1 ->
  (exists text, symbol = colon ++ text)
  /\ _symbols self1 = _symbols self ++ [symbol].
Proof.
  unfold _read_symbol, bind at 1. intros H.
  destruct (_read_int self) as [size s1|] eqn:Eint; [|discriminate].
  destruct (only_moves_read_int _ _ _ Eint) as [_ Hs1].
  unfold bind at 1 in H.
  assert (Hinner : only_moves
            (if size =? 0 then ret colon
             else bind (_read_bytes size)
                    (fun data_bytes =>
                       bind (decode data_bytes)
                            (fun text => ret (colon ++ text))))).
  { destruct (size =? 0); [apply only_moves_ret|].
    apply only_moves_bind; [apply only_moves_read_bytes|]. intros d.
    apply only_moves_bind; [apply only_moves_decode|]. intros t.
    apply only_moves_ret. }
  match type of H with
  | match ?c s1 with _ => _ end = _ =>
      destruct (c s1) as [sym s2|] eqn:Einner; [|discriminate]
  end.
  destruct (Hinner _ _ _ Einner) as [_ Hs2].
  unfold bind, symbols_append, ret in H. injection H as <- <-.
  split; [|simpl; congruence].
  destruct (size =? 0).
  - injection Einner as <- _. exists []. reflexivity.
  - unfold bind in Einner.
    destruct (_read_bytes size s1) as [d s3|]; [|discriminate].
    unfold decode in Einner.
    destruct (decode_utf8 d) as [t|]; [|discriminate].
    injection Einner as <- _. now exists t.
Qed.

(** X9. A symbol that [_read_symbol] returns starts with ':' and is
    added at the end of the symbol table, also when it is already in
    it; from then on, a symbol link whose index is the length the table
    had before returns this very symbol, whatever was read in
    between. *)
Theorem read_symbol_then_link self symbol self1 :
  _read_symbol self = Return symbol self1 ->
  (exists text, symbol = colon ++ text)
  /\ _symbols self1 = _symbols self ++ [symbol]
  /\ (forall self2 self3,
         extends self1 self2 ->
         _read_int self2 = Return (len (_symbols self)) self3 ->
         _read_symbol_link self2 = Return symbol self3).
Proof.
  intros H. destruct (read_symbol_appends _ _ _ H) as [Hcolon Happ].
  repeat match goal with |- _ /\ _ => split end; try assumption.
  intros self2 self3 [_ [added Hext]] Hint.
  destruct (only_moves_read_int _ _ _ Hint) as [_ Hs3].
  assert (Hlen : len (_symbols self) < len (_symbols self3)).
  { rewrite Hs3, Hext, Happ, !len_app, len_cons.
    pose proof (len_nonneg added). change (len []) with 0. lia. }
  pose proof (len_nonneg (_symbols self)) as Hnn.
  destruct (proj1 (proj2 (read_symbol_link_cases _ _ _ Hint))
              ltac:(lia)) as (s & Hnth & Hlink).
  rewrite Hlink. f_equal.
  rewrite Hs3, Hext, Happ, <- app_assoc in Hnth.
  unfold len in Hnth. rewrite Nat2Z.id, nth_error_app2 in Hnth by lia.
  rewrite Nat.sub_diag in Hnth. simpl in Hnth. congruence.
Qed.

(** The array [[:a, :a, ;1]]: the symbol spelled twice is in the table
    twice, and the link 1 returns the second one. *)
Lemma read_symbol_then_link_witness :
  (exists text, [58; 97] = colon ++ text)
  /\ _symbols (mkMarshal [x3a; x06; x61; x3a; x06; x61; x3b; x06] 6
                         [[58; 97]; [58; 97]])
     = _symbols (mkMarshal [x3a; x06; x61; x3a; x06; x61; x3b; x06] 4
                           [[58; 97]]) ++ [[58; 97]]
  /\ (forall self2 self3,
         extends (mkMarshal [x3a; x06; x61; x3a; x06; x61; x3b; x06] 6
                            [[58; 97]; [58; 97]]) self2 ->
         _read_int self2
         = Return (len (_symbols
                          (mkMarshal [x3a; x06; x61; x3a; x06; x61; x3b; x06]
                                     4 [[58; 97]]))) self3 ->
         _read_symbol_link self2 = Return [58; 97] self3).
Proof.
  apply (read_symbol_then_link
           (mkMarshal [x3a; x06; x61; x3a; x06; x61; x3b; x06] 4 [[58; 97]])).
  reflexivity.
Defined.

(** ** The range of the integer codec *)

Lemma pow2_8_succ i : 0 <= i -> 2 ^ (8 * (i + 1)) = 256 * 2 ^ (8 * i).
Proof.
  intros Hi. replace (8 * (i + 1)) with (8 * i + 8) by lia.
  rewrite Z.pow_add_r by lia. change (2 ^ 8) with 256. lia.
Qed.

Lemma read_int_positive_range n : forall i x self z self',
  0 <= i -> 0 <= x < 2 ^ (8 * i) ->
  read_int_positive n i x self = Return z self' ->
  0 <= z < 2 ^ (8 * (i + Z.of_nat n))
  /\ _position self' = _position self + Z.of_nat n.
Proof.
  induction n as [|n IH]; intros i x self z self' Hi Hx H.
  - cbn in H. injection H as <- <-. rewrite Z.add_0_r. split; lia.
  - cbn [read_int_positive] in H. unfold bind in H.
    destruct (_read_byte self) as [v s1|] eqn:E; [|discriminate].
    apply read_byte_inv in E. destruct E as (b & _ & -> & ->).
    rewrite unsigned_of_signed, lor_shiftl_add in H by lia.
    pose proof (byte_val_range b) as Hb.
    pose proof (pow2_8_succ i Hi) as Hp.
    apply IH in H; [|lia|].
    + replace (i + 1 + Z.of_nat n) with (i + Z.of_nat (S n)) in H by lia.
      simpl _position in H. split; [tauto|lia].
    + rewrite Hp. set (P := 2 ^ (8 * i)) in *. nia.
Qed.

Lemma read_int_negative_range n : forall i l self z self',
  0 <= i -> 0 <= l < 2 ^ (8 * i) ->
  read_int_negative n i (l - 2 ^ (8 * i)) self = Return z self' ->
  - 2 ^ (8 * (i + Z.of_nat n)) <= z < 0
  /\ _position self' = _position self + Z.of_nat n.
Proof.
  induction n as [|n IH]; intros i l self z self' Hi Hl H.
  - assert (E : z = l - 2 ^ (8 * i) /\ self' = self)
      by (cbn in H; injection H as <- <-; now split).
    destruct E as [-> ->]. rewrite Z.add_0_r. split; lia.
  - cbn [read_int_negative] in H. unfold bind in H.
    destruct (_read_byte self) as [v s1|] eqn:E; [|discriminate].
    apply read_byte_inv in E. destruct E as (b & _ & -> & ->).
    destruct (negative_round (l - 2 ^ (8 * i)) b (8 * i) ltac:(lia))
      as [Heq _].
    { intros j Hj. apply testbit_minus_pow2_high; lia. }
    cbv zeta in Heq. rewrite Heq, window_round in H by lia.
    pose proof (byte_val_range b) as Hb.
    pose proof (pow2_8_succ i Hi) as Hp.
    replace (8 * i + 8) with (8 * (i + 1)) in H by lia.
    apply IH in H; [|lia|].
    + replace (i + 1 + Z.of_nat n) with (i + Z.of_nat (S n)) in H by lia.
      simpl _position in H. split; [tauto|lia].
    + rewrite Hp. set (P := 2 ^ (8 * i)) in *. nia.
Qed.

(** X10. Whatever the buffer, an integer that [_read_int] returns is at
    least -2^32 and below 2^32, and the cursor has moved on by at least
    1 and at most 5; the buffer and the symbol table are as before. *)
Theorem read_int_range self z self' :
  _read_int self = Return z self' ->
  - 2 ^ 32 <= z < 2 ^ 32
  /\ 1 <= _position self' - _position self <= 5
  /\ _data self' = _data self
  /\ _symbols self' = _symbols self.
Proof.
  intros H. destruct (only_moves_read_int _ _ _ H) as [Hd Hs].
  split; [|split; [|split; assumption]];
    unfold _read_int, bind in H;
    (destruct (_read_byte self) as [c s1|] eqn:E; [|discriminate]);
    apply read_byte_inv in E; destruct E as (b & _ & -> & ->);
    pose proof (signed_range b) as Hb;
    (destruct (signed b =? 0) eqn:E0;
     [injection H as <- <-; simpl; lia|]);
    (destruct (signed b >? 4) eqn:E1;
     [injection H as <- <-; simpl; lia|]);
    (destruct (signed b <? -4) eqn:E2;
     [injection H as <- <-; simpl; lia|]);
    (destruct (signed b >? 0) eqn:E3;
     [apply read_int_positive_range in H; [|lia|simpl; lia]
     |change (-1) with (0 - 2 ^ (8 * 0)) in H;
      apply read_int_negative_range in H; [|lia|simpl; lia]]);
    destruct H as [Hz Hpos]; simpl _position in Hpos;
    try lia.
  - assert (2 ^ (8 * (0 + Z.of_nat (Z.to_nat (signed b)))) <= 2 ^ 32)
      by (apply Z.pow_le_mono_r; lia).
    lia.
  - assert (2 ^ (8 * (0 + Z.of_nat (Z.to_nat (- signed b)))) <= 2 ^ 32)
      by (apply Z.pow_le_mono_r; lia).
    lia.
Qed.

Lemma read_int_range_witness :
  - 2 ^ 32 <= -65536 < 2 ^ 32
  /\ 1 <= _position (mkMarshal [xfe; x00; x00] 3 [])
          - _position (mkMarshal [xfe; x00; x00] 0 []) <= 5
  /\ _data (mkMarshal [xfe; x00; x00] 3 [])
     = _data (mkMarshal [xfe; x00; x00] 0 [])
  /\ _symbols (mkMarshal [xfe; x00; x00] 3 [])
     = _symbols (mkMarshal [xfe; x00; x00] 0 []).
Proof.
  apply (read_int_range (mkMarshal [xfe; x00; x00] 0 []) (-65536)
                        (mkMarshal [xfe; x00; x00] 3 [])).
  reflexivity.
Defined.

(** ** No partial result *)

Lemma reads_in_turn_last {A} (read : M A) self items self1 item self2 :
  reads_in_turn read self items self1 ->
  read self1 = Return item self2 ->
  reads_in_turn read self (items ++ [item]) self2.
Proof.
  intros H Hr. induction H as [self|self a s1 l s2 Ha _ IH].
  - apply (reads_next read self item self2 [] self2 Hr). constructor.
  - apply (reads_next read self a s1 (l ++ [item]) self2 Ha). now apply IH.
Qed.

Lemma array_loop_returns read : forall items self self' acc,
  reads_in_turn read self items self' ->
  array_loop read (length items) acc self = Return (acc ++ items) self'.
Proof.
  intros items self self' acc H. revert acc.
  induction H as [self|self a s1 l s2 Ha _ IH]; intros acc.
  - cbn. now rewrite app_nil_r.
  - cbn [length array_loop]. unfold bind. rewrite Ha, IH.
    now rewrite <- app_assoc.
Qed.

Lemma array_loop_raises read : forall items self self' e n acc,
  reads_in_turn read self items self' ->
  read self' = Raise e ->
  (length items < n)%nat ->
  array_loop read n acc self = Raise e.
Proof.
  intros items self self' e n acc H. revert n acc.
  induction H as [self|self a s1 l s2 Ha _ IH]; intros n acc He Hn.
  - destruct n as [|n]; [simpl in Hn; lia|].
    cbn [array_loop]. unfold bind. now rewrite He.
  - destruct n as [|n]; [simpl in Hn; lia|].
    cbn [array_loop]. unfold bind. rewrite Ha.
    apply IH; [assumption|simpl in Hn; lia].
Qed.

Lemma array_loop_inv read n : forall acc self out self',
  array_loop read n acc self = Return out self' ->
  exists items,
    out = acc ++ items /\ length items = n
    /\ reads_in_turn read self items self'.
Proof.
  induction n as [|n IH]; intros acc self out self' H.
  - cbn in H. injection H as <- <-. exists [].
    rewrite app_nil_r. repeat split. constructor.
  - cbn [array_loop] in H. unfold bind in H.
    destruct (read self) as [item s1|] eqn:E; [|discriminate].
    destruct (IH _ _ _ _ H) as (items & -> & Hlen & Hr).
    exists (item :: items). rewrite <- app_assoc. split; [reflexivity|].
    split; [simpl; now rewrite Hlen|].
    now apply (reads_next read self item s1 items self').
Qed.

(** X11. [_read_array] returns exactly when the count is decoded and
    as many calls of [_read] as the count says (none for a negative
    count) return one after the other: then it returns the list of
    what they returned, in this order, and leaves the instance the last
    one left. When one of these calls raises, [_read_array] raises the
    same exception, and so it does when the count cannot be decoded: a
    list with fewer items, or with something in the place of a failed
    item, is never returned. *)
Theorem read_array_complete read self size self1 :
  _read_int self = Return size self1 ->
  (forall items self2,
      reads_in_turn read self1 items self2 ->
      length items = Z.to_nat size ->
      _read_array read self = Return (VList items) self2)
  /\ (forall items self2 e,
         reads_in_turn read self1 items self2 ->
         (length items < Z.to_nat size)%nat ->
         read self2 = Raise e ->
         _read_array read self = Raise e)
  /\ (forall v self2,
         _read_array read self = Return v self2 ->
         exists items,
           v = VList items /\ length items = Z.to_nat size
           /\ reads_in_turn read self1 items self2).
Proof.
  intros Hsize. unfold _read_array, bind, ret. rewrite Hsize.
  repeat match goal with |- _ /\ _ => split end.
  - intros items self2 Hr Hlen. rewrite <- Hlen.
    now rewrite (array_loop_returns read items self1 self2 []).
  - intros items self2 e Hr Hlen He.
    now rewrite (array_loop_raises read items self1 self2 e _ [] Hr He Hlen).
  - intros v self2 H.
    destruct (array_loop read (Z.to_nat size) [] self1) as [out s2|] eqn:E;
      [|discriminate].
    injection H as <- <-.
    destruct (array_loop_inv _ _ _ _ _ _ E) as (items & -> & Hlen & Hr).
    now exists items.
Qed.

(** The array [[nil, <truncated>]]: the first item is read, the second
    fails at the end of the data, and so does the array. *)
Lemma read_array_complete_witness :
  _read_array (_read 1) (mkMarshal [x07; x30] 0 [])
  = Raise (RuntimeError (UnexpectedEndOfData 2)).
Proof.
  apply (proj1 (proj2 (read_array_complete (_read 1)
                         (mkMarshal [x07; x30] 0 []) 2
                         (mkMarshal [x07; x30] 1 []) eq_refl))
           [VNone] (mkMarshal [x07; x30] 2 [])).
  - apply (reads_next (_read 1) _ VNone (mkMarshal [x07; x30] 2 []) []);
      [reflexivity|constructor].
  - simpl. lia.
  - reflexivity.
Defined.

Lemma dict_store_length result key value :
  (length (dict_store result key value) <= S (length result))%nat.
Proof.
  induction result as [|[k v] rest IH]; simpl; [lia|].
  destruct (key_eqb k key); simpl; lia.
Qed.

Lemma dict_store_hashable result key value :
  hashable key = true ->
  Forall (fun kv => hashable (fst kv) = true) result ->
  Forall (fun kv => hashable (fst kv) = true) (dict_store result key value).
Proof.
  intros Hk Hall. apply Forall_forall. intros kv Hin.
  apply dict_store_keys in Hin. destruct Hin as [[v Hv] | ->]; [|exact Hk].
  rewrite Forall_forall in Hall. exact (Hall _ Hv).
Qed.

Lemma hash_loop_invariant read n : forall acc self out self',
  distinct_keys acc ->
  Forall (fun kv => hashable (fst kv) = true) acc ->
  hash_loop read n acc self = Return out self' ->
  distinct_keys out
  /\ Forall (fun kv => hashable (fst kv) = true) out
  /\ (length out <= length acc + n)%nat.
Proof.
  induction n as [|n IH]; intros acc self out self' Hd Hh H.
  - cbn in H. injection H as <- _. repeat split; [assumption..|lia].
  - cbn [hash_loop] in H. unfold bind in H.
    destruct (read self) as [key s1|]; [|discriminate].
    destruct (read s1) as [value s2|]; [|discriminate].
    unfold dict_setitem in H.
    destruct (hashable key) eqn:Ek; [|discriminate].
    apply IH in H.
    + pose proof (dict_store_length acc key value).
      destruct H as (H1 & H2 & H3). repeat split; [assumption..|lia].
    + now apply dict_store_distinct.
    + now apply dict_store_hashable.
Qed.

(** X12. When [_read_hash] returns, it returns a dict in which every
    key is hashable ([None], a bool, an int or a str), no key equals
    another, and there are at most as many entries as the count it
    decoded. *)
Theorem read_hash_dict read self v self' :
  _read_hash read self = Return v self' ->
  exists size self1 entries,
    _read_int self = Return size self1
    /\ v = VDict entries
    /\ distinct_keys entries
    /\ Forall (fun kv => hashable (fst kv) = true) entries
    /\ (length entries <= Z.to_nat size)%nat.
Proof.
  unfold _read_hash, bind, ret. intros H.
  destruct (_read_int self) as [size self1|]; [|discriminate].
  destruct (hash_loop read (Z.to_nat size) [] self1) as [out s2|] eqn:E;
    [|discriminate].
  injection H as <- _.
  apply hash_loop_invariant in E; [|exact I|constructor].
  exists size, self1, out. simpl in E. tauto.
Qed.

Lemma read_hash_dict_witness :
  exists size self1 entries,
    _read_int (mkMarshal duplicate_key_hash 3 []) = Return size self1
    /\ VDict [(VInt 1, VInt 3)] = VDict entries
    /\ distinct_keys entries
    /\ Forall (fun kv => hashable (fst kv) = true) entries
    /\ (length entries <= Z.to_nat size)%nat.
Proof.
  apply (read_hash_dict (_read 1) (mkMarshal duplicate_key_hash 3 [])
           (VDict [(VInt 1, VInt 3)]) (mkMarshal duplicate_key_hash 12 [])).
  reflexivity.
Defined.

Lemma object_loop_stream read n : forall acc pairs_acc self,
  match stream_pairs read n pairs_acc self with
  | Return out self' =>
      exists pairs,
        out = pairs_acc ++ pairs
        /\ length pairs = n
        /\ object_loop read n acc self
           = Return (acc ++ flatten_pairs pairs) self'
  | Raise e => object_loop read n acc self = Raise e
  end.
Proof.
  induction n as [|n IH]; intros acc pairs_acc self.
  - cbn. exists []. now rewrite !app_nil_r.
  - cbn [stream_pairs object_loop]. unfold bind.
    destruct (read self) as [key s1|]; [|reflexivity].
    destruct (read s1) as [value s2|]; [|reflexivity].
    specialize (IH ((acc ++ [key]) ++ [value])
                   (pairs_acc ++ [(key, value)]) s2).
    destruct (stream_pairs read n (pairs_acc ++ [(key, value)]) s2)
      as [out s3|]; [|exact IH].
    destruct IH as (pairs & -> & Hlen & Hloop).
    exists ((key, value) :: pairs). rewrite <- app_assoc.
    split; [reflexivity|]. split; [simpl; now rewrite Hlen|].
    rewrite Hloop. f_equal. unfold flatten_pairs. simpl.
    now rewrite <- !app_assoc.
Qed.

(** X13. An OBJECT keeps every pair of its stream: after the class name
    and the count, its children are the keys and values of the stream
    in order, key, value, key, value, two for each pair read, a key
    that comes twice included; and it fails as the stream fails. *)
Theorem read_object_children read self symbol self1 size self2 :
  read_class_symbol self = Return symbol self1 ->
  _read_int self1 = Return size self2 ->
  match stream_pairs read (Z.to_nat size) [] self2 with
  | Return pairs self3 =>
      _read_object read self
      = Return (VObjectWrapper OBJECT (VStr symbol) (flatten_pairs pairs))
               self3
      /\ length pairs = Z.to_nat size
      /\ length (flatten_pairs pairs) = (2 * Z.to_nat size)%nat
  | Raise e => _read_object read self = Raise e
  end.
Proof.
  intros Hname Hsize. unfold _read_object, bind. rewrite Hname, Hsize.
  pose proof (object_loop_stream read (Z.to_nat size) [] [] self2) as H.
  destruct (stream_pairs read (Z.to_nat size) [] self2) as [out s3|].
  - destruct H as (pairs & Hout & Hlen & Hloop). simpl in Hout. subst out.
    rewrite Hloop. simpl. repeat split; [exact Hlen|].
    rewrite <- Hlen. clear. unfold flatten_pairs.
    induction pairs as [|kv pairs IH]; simpl; [reflexivity|]. lia.
  - now rewrite H.
Qed.

(** The object [#<A 1=>2, 1=>3>] written with the key 1 twice: both
    pairs are children. *)
Lemma read_object_children_witness :
  _read_object (_read 1)
    (mkMarshal [x3a; x06; x41; x07; x69; x06; x69; x07; x69; x06; x69; x08]
               0 [])
  = Return (VObjectWrapper OBJECT (VStr [58; 65])
              (flatten_pairs [(VInt 1, VInt 2); (VInt 1, VInt 3)]))
      (mkMarshal [x3a; x06; x41; x07; x69; x06; x69; x07; x69; x06; x69; x08]
                 12 [[58; 65]])
  /\ length [(VInt 1, VInt 2); (VInt 1, VInt 3)] = Z.to_nat 2
  /\ length (flatten_pairs [(VInt 1, VInt 2); (VInt 1, VInt 3)])
     = (2 * Z.to_nat 2)%nat.
Proof.
  exact (read_object_children (_read 1)
           (mkMarshal [x3a; x06; x41; x07; x69; x06; x69; x07; x69; x06;
                       x69; x08] 0 [])
           [58; 65]
           (mkMarshal [x3a; x06; x41; x07; x69; x06; x69; x07; x69; x06;
                       x69; x08] 3 [[58; 65]])
           2
           (mkMarshal [x3a; x06; x41; x07; x69; x06; x69; x07; x69; x06;
                       x69; x08] 4 [[58; 65]])
           eq_refl eq_refl).
Defined.

(** ** More nesting depth *)

Lemma below_refl {A} (c : M A) : below c c.
Proof. intros self. now right. Qed.

Lemma below_trans {A} (c1 c2 c3 : M A) :
  below c1 c2 -> below c2 c3 -> below c1 c3.
Proof.
  intros H12 H23 self.
  destruct (H12 self) as [H|H]; [now left|].
  destruct (H23 self) as [H'|H']; [left|right]; congruence.
Qed.

Lemma below_bind {A B} (c1 c2 : M A) (k1 k2 : A -> M B) :
  below c1 c2 -> (forall a, below (k1 a) (k2 a)) ->
  below (bind c1 k1) (bind c2 k2).
Proof.
  intros Hc Hk self. unfold bind.
  destruct (Hc self) as [H|H].
  - left. now rewrite H.
  - rewrite H. destruct (c1 self) as [a s1|e]; [apply Hk|now right].
Qed.

Section BelowProductions.

Variables read1 read2 : M pyvalue.
Hypothesis read_below : below read1 read2.

Lemma below_array_loop n :
  forall acc, below (array_loop read1 n acc) (array_loop read2 n acc).
Proof.
  induction n as [|n IH]; intros acc; cbn [array_loop].
  - apply below_refl.
  - apply below_bind; [exact read_below|]. intros item. apply IH.
Qed.

Lemma below_hash_loop n :
  forall acc, below (hash_loop read1 n acc) (hash_loop read2 n acc).
Proof.
  induction n as [|n IH]; intros acc; cbn [hash_loop].
  - apply below_refl.
  - apply below_bind; [exact read_below|]. intros key.
    apply below_bind; [exact read_below|]. intros value.
    destruct (dict_setitem acc key value); [apply IH|apply below_refl].
Qed.

Lemma below_ivar_loop n :
  forall acc, below (ivar_loop read1 n acc) (ivar_loop read2 n acc).
Proof.
  induction n as [|n IH]; intros acc; cbn [ivar_loop].
  - apply below_refl.
  - apply below_bind; [exact read_below|]. intros key.
    apply below_bind; [exact read_below|]. intros value. apply IH.
Qed.

Lemma below_object_loop n :
  forall acc, below (object_loop read1 n acc) (object_loop read2 n acc).
Proof.
  induction n as [|n IH]; intros acc; cbn [object_loop].
  - apply below_refl.
  - apply below_bind; [exact read_below|]. intros key.
    apply below_bind; [exact read_below|]. intros value. apply IH.
Qed.

Lemma below_read_body : below (read_body read1) (read_body read2).
Proof.
  unfold read_body. apply below_bind; [apply below_refl|].
  intros type_byte.
  destruct (RubyTypeM.from_byte type_byte) as [[]|];
    try apply below_refl.
  - unfold _read_hash. apply below_bind; [apply below_refl|].
    intros size. apply below_bind; [apply below_hash_loop|].
    intros r. apply below_refl.
  - unfold _read_array. apply below_bind; [apply below_refl|].
    intros size. apply below_bind; [apply below_array_loop|].
    intros r. apply below_refl.
  - unfold _read_ivar. apply below_bind; [exact read_below|].
    intros r. apply below_bind; [apply below_refl|].
    intros size. apply below_bind; [apply below_ivar_loop|].
    intros _. apply below_refl.
  - unfold _read_usr_marshal. apply below_bind; [apply below_refl|].
    intros symbol. apply below_bind; [exact read_below|].
    intros obj. apply below_refl.
  - unfold _read_object. apply below_bind; [apply below_refl|].
    intros symbol. apply below_bind; [apply below_refl|].
    intros size. apply below_bind; [apply below_object_loop|].
    intros children. apply below_refl.
Qed.

End BelowProductions.

Lemma read_below_succ depth : below (_read depth) (_read (S depth)).
Proof.
  induction depth as [|d IH].
  - intros self. now left.
  - cbn [_read]. apply below_read_body. exact IH.
Qed.

Lemma read_below depth more : below (_read depth) (_read (depth + more)).
Proof.
  induction more as [|k IH].
  - rewrite Nat.add_0_r. apply below_refl.
  - rewrite Nat.add_succ_r.
    exact (below_trans _ _ _ IH (read_below_succ _)).
Qed.

(** X14. Allowing more nesting never changes what a run gives: what
    [load] returns, and every error it raises other than
    [RecursionError], it gives again for every greater depth. *)
Theorem load_with_more_depth depth depth' data :
  (depth <= depth')%nat ->
  load depth data <> Error RecursionError ->
  load depth' data = load depth data.
Proof.
  intros Hle Hrun. replace depth' with (depth + (depth' - depth))%nat by lia.
  set (more := (depth' - depth)%nat). clearbody more.
  assert (Hload : below (_load depth) (_load (depth + more))).
  { unfold _load. apply below_bind; [apply below_refl|]. intros major.
    destruct (major =? 4); [|apply below_refl].
    apply below_bind; [apply below_refl|]. intros minor.
    destruct (minor =? 8); [apply read_below|apply below_refl]. }
  unfold load in *. destruct (Hload (__init__ data)) as [H|H].
  - rewrite H in Hrun. now elim Hrun.
  - now rewrite H.
Qed.

(** Three arrays one in the other need depth 3; with it and with more
    the result is the same. *)
Lemma load_with_more_depth_witness :
  load 7 [x04; x08; x5b; x06; x5b; x06; x5b; x00]
  = load 3 [x04; x08; x5b; x06; x5b; x06; x5b; x00].
Proof.
  apply (load_with_more_depth 3 7).
  - lia.
  - discriminate.
Defined.

(** ** C10: the value of the encoding, whatever follows *)

Lemma returns_bind {A B} (c : M A) (k : A -> M B) bs1 bs2 p t a t1 b t2 :
  returns_at c bs1 p t a t1 ->
  returns_at (k a) bs2 (p + len bs1) t1 b t2 ->
  returns_at (bind c k) (bs1 ++ bs2) p t b t2.
Proof.
  intros H1 H2 data Hd. apply holds_at_app in Hd. destruct Hd as [Hd1 Hd2].
  unfold bind. rewrite (H1 data Hd1), (H2 data Hd2), len_app.
  now rewrite Z.add_assoc.
Qed.

Lemma returns_bind_nil {A B} (c : M A) (k : A -> M B) bs p t a t1 b t2 :
  returns_at c bs p t a t1 ->
  returns_at (k a) [] (p + len bs) t1 b t2 ->
  returns_at (bind c k) bs p t b t2.
Proof.
  intros H1 H2. rewrite <- (app_nil_r bs). eapply returns_bind; eauto.
Qed.

Lemma returns_ret {A} (a : A) p t : returns_at (ret a) [] p t a t.
Proof.
  intros data _. unfold ret. change (len []) with 0. now rewrite Z.add_0_r.
Qed.

Lemma returns_read_byte b p t : returns_at _read_byte [b] p t (signed b) t.
Proof. intros data Hd. exact (read_byte_at (mkMarshal data p t) b [] Hd). Qed.

Lemma returns_read_int e z p t : fixnum e z -> returns_at _read_int e p t z t.
Proof.
  intros (c & payload & -> & Hlen & ->) data Hd.
  rewrite (read_int_at (mkMarshal data p t) c payload Hd Hlen).
  now rewrite len_cons.
Qed.

Lemma returns_read_bytes bs p t :
  returns_at (_read_bytes (len bs)) bs p t bs t.
Proof. intros data Hd. exact (read_bytes_at (mkMarshal data p t) bs Hd). Qed.

Lemma returns_decode bs text p t :
  decode_utf8 bs = Some text -> returns_at (decode bs) [] p t text t.
Proof. intros H. unfold decode. rewrite H. apply returns_ret. Qed.

Lemma returns_symbols_append symbol p t :
  returns_at (symbols_append symbol) [] p t tt (t ++ [symbol]).
Proof.
  intros data _. unfold symbols_append. cbn [_data _position _symbols].
  change (len []) with 0. now rewrite Z.add_0_r.
Qed.

Lemma returns_read_symbol e bs text p t :
  fixnum e (len bs) -> decode_utf8 bs = Some text ->
  returns_at _read_symbol (e ++ bs) p t (colon ++ text) (t ++ [colon ++ text]).
Proof.
  intros He Hd. unfold _read_symbol.
  eapply returns_bind; [exact (returns_read_int e _ p t He)|].
  eapply returns_bind_nil with (a := colon ++ text) (t1 := t).
  - destruct (len bs =? 0) eqn:E.
    + apply Z.eqb_eq in E. apply len_nil_inv in E. subst bs.
      cbn in Hd. injection Hd as <-. rewrite app_nil_r. apply returns_ret.
    + eapply returns_bind_nil; [apply returns_read_bytes|].
      eapply returns_bind_nil; [apply returns_decode; eassumption|].
      apply returns_ret.
  - eapply returns_bind_nil; [apply returns_symbols_append|].
    apply returns_ret.
Qed.

Lemma returns_read_symbol_link e i symbol p t :
  fixnum e i -> 0 <= i -> nth_error t (Z.to_nat i) = Some symbol ->
  returns_at _read_symbol_link e p t symbol t.
Proof.
  intros He Hi Hn. unfold _read_symbol_link.
  eapply returns_bind_nil; [exact (returns_read_int e _ p t He)|].
  intros data _. cbn [_symbols]. unfold py_getitem.
  assert (Z.to_nat i < length t)%nat
    by (apply nth_error_Some; congruence).
  destruct (i >=? len t) eqn:E; [unfold len in E; lia|].
  destruct (0 <=? i) eqn:E0; [|lia].
  rewrite Hn. change (len []) with 0. now rewrite Z.add_0_r.
Qed.

Lemma returns_read_class_symbol t name symbol t1 p :
  symbol_text t name symbol t1 ->
  returns_at read_class_symbol name p t symbol t1.
Proof.
  intros Hname. unfold read_class_symbol.
  destruct Hname as [t e bs text He Hd|t e i symbol He Hi Hn].
  - change (x3a :: e ++ bs) with ([x3a] ++ e ++ bs).
    eapply returns_bind; [apply returns_read_byte|].
    change (RubyTypeM.from_byte (signed x3a)) with (Some SYMBOL).
    cbv iota. now apply returns_read_symbol.
  - change (x3b :: e) with ([x3b] ++ e).
    eapply returns_bind; [apply returns_read_byte|].
    change (RubyTypeM.from_byte (signed x3b)) with (Some SYMBOL_LINK).
    cbv iota. now apply (returns_read_symbol_link e i).
Qed.

Ltac tag T :=
  match goal with
  | |- returns_at _ (?b :: ?rest) _ _ _ _ =>
      change (b :: rest) with ([b] ++ rest);
      eapply returns_bind; [apply returns_read_byte|];
      change (RubyTypeM.from_byte (signed b)) with (Some T);
      cbv iota
  end.

Ltac count He :=
  eapply returns_bind; [exact (returns_read_int _ _ _ _ He)|];
  unfold len; rewrite ?Nat2Z.id; fold (@len byte).

Ltac at_depth n :=
  exists n; intros [|depth] p Hdepth; [lia|];
  cbn [_read]; unfold read_body.

(** [_read], deep enough, and the loops return the value of the
    encoding, whatever the buffer holds after it. *)
Lemma read_decodes :
  (forall t bs v t',
      decodes_to t bs v t' ->
      exists n, forall depth p,
        (n <= depth)%nat -> returns_at (_read depth) bs p t v t')
  /\ (forall t bs vs t',
         decodes_items t bs vs t' ->
         exists n, forall depth p,
           (n <= depth)%nat ->
           forall acc,
             returns_at (array_loop (_read depth) (length vs) acc) bs p t
                        (acc ++ vs) t')
  /\ (forall t bs kvs t',
         decodes_pairs t bs kvs t' ->
         exists n, forall depth p,
           (n <= depth)%nat ->
           (Forall (fun kv => hashable (fst kv) = true) kvs ->
            forall acc,
              returns_at (hash_loop (_read depth) (length kvs) acc) bs p t
                (fold_left (fun result kv =>
                              dict_store result (fst kv) (snd kv)) kvs acc)
                t')
           /\ (forall acc,
                  returns_at (ivar_loop (_read depth) (length kvs) acc)
                             bs p t (acc ++ flatten_pairs kvs) t')
           /\ (forall acc,
                  returns_at (object_loop (_read depth) (length kvs) acc)
                             bs p t (acc ++ flatten_pairs kvs) t')).
Proof.
  apply decodes_mutind.
  - (* NIL *)
    intros t. at_depth 1%nat. tag NIL. apply returns_ret.
  - (* TRUE *)
    intros t. at_depth 1%nat. tag TRUE. apply returns_ret.
  - (* FALSE *)
    intros t. at_depth 1%nat. tag FALSE. apply returns_ret.
  - (* INT *)
    intros t e z He. at_depth 1%nat. tag INT.
    eapply returns_bind_nil; [exact (returns_read_int _ _ _ _ He)|].
    apply returns_ret.
  - (* BIGNUM *)
    intros t sign e n bs He Hn. at_depth 1%nat. tag BIGNUM.
    eapply returns_bind_nil with (a := little_endian bs) (t1 := t);
      [|apply returns_ret].
    unfold _read_bignum.
    change (sign :: e ++ bs) with ([sign] ++ e ++ bs).
    eapply returns_bind; [apply returns_read_byte|].
    eapply returns_bind; [exact (returns_read_int _ _ _ _ He)|].
    replace (n * 2) with (len bs) by lia.
    eapply returns_bind_nil; [apply returns_read_bytes|].
    rewrite bignum_loop_sum by lia. change (2 ^ (8 * 0)) with 1.
    replace (0 + 1 * little_endian bs) with (little_endian bs) by lia.
    apply returns_ret.
  - (* STRING *)
    intros t e bs text He Hd. at_depth 1%nat. tag STRING.
    eapply returns_bind_nil with (a := text) (t1 := t);
      [|apply returns_ret].
    unfold _read_string.
    eapply returns_bind; [exact (returns_read_int _ _ _ _ He)|].
    eapply returns_bind_nil; [apply returns_read_bytes|].
    apply returns_decode; eassumption.
  - (* SYMBOL, SYMBOL_LINK *)
    intros t e symbol t' Hname. at_depth 1%nat.
    destruct Hname as [t e bs text He Hd|t e i symbol He Hi Hn].
    + tag SYMBOL.
      eapply returns_bind_nil; [apply returns_read_symbol; eassumption|].
      apply returns_ret.
    + tag SYMBOL_LINK.
      eapply returns_bind_nil;
        [apply (returns_read_symbol_link e i); eassumption|].
      apply returns_ret.
  - (* ARRAY *)
    intros t e items vs t' He _ [n IH]. at_depth (S n). tag ARRAY.
    unfold _read_array. count He.
    eapply returns_bind_nil; [apply (IH depth _ ltac:(lia) [])|].
    apply returns_ret.
  - (* HASH *)
    intros t e pairs kvs t' He _ [n IH] Hh. at_depth (S n). tag HASH.
    unfold _read_hash. count He.
    eapply returns_bind_nil;
      [apply (proj1 (IH depth _ ltac:(lia)) Hh [])|].
    apply returns_ret.
  - (* IVARS *)
    intros t payload v t1 e attributes kvs t2 _ [n1 IHp] He _ [n2 IHa].
    at_depth (S (Nat.max n1 n2)). tag IVARS.
    unfold _read_ivar.
    eapply returns_bind; [apply IHp; lia|].
    count He.
    eapply returns_bind_nil;
      [apply (proj1 (proj2 (IHa depth _ ltac:(lia))) [])|].
    apply returns_ret.
  - (* OBJECT *)
    intros t name symbol t1 e pairs kvs t2 Hname He _ [n IH].
    at_depth (S n). tag OBJECT.
    unfold _read_object.
    eapply returns_bind; [apply returns_read_class_symbol; eassumption|].
    count He.
    eapply returns_bind_nil;
      [apply (proj2 (proj2 (IH depth _ ltac:(lia))) [])|].
    apply returns_ret.
  - (* USERDEF *)
    intros t name symbol t1 e bs text Hname He Hd.
    at_depth 1%nat. tag USERDEF.
    unfold _read_userdef.
    eapply returns_bind; [apply returns_read_class_symbol; eassumption|].
    eapply returns_bind; [exact (returns_read_int _ _ _ _ He)|].
    eapply returns_bind_nil; [apply returns_read_bytes|].
    eapply returns_bind_nil; [apply returns_decode; eassumption|].
    apply returns_ret.
  - (* USR_MARSHAL *)
    intros t name symbol t1 obj v t2 Hname _ [n IH].
    at_depth (S n). tag USR_MARSHAL.
    unfold _read_usr_marshal.
    eapply returns_bind; [apply returns_read_class_symbol; eassumption|].
    eapply returns_bind_nil; [apply IH; lia|].
    apply returns_ret.
  - (* EXTENDED *)
    intros t. at_depth 1%nat. tag EXTENDED.
    unfold _read_extended. apply returns_ret.
  - (* LINK *)
    intros t e z He. at_depth 1%nat. tag LINK.
    unfold _read_link.
    eapply returns_bind_nil; [exact (returns_read_int _ _ _ _ He)|].
    apply returns_ret.
  - (* no item *)
    intros t. exists 0%nat. intros depth p _ acc. cbn.
    rewrite app_nil_r. apply returns_ret.
  - (* an item and the others *)
    intros t item v t1 items vs t2 _ [n1 IHi] _ [n2 IHs].
    exists (Nat.max n1 n2). intros depth p Hd acc.
    cbn [length array_loop].
    eapply returns_bind; [apply IHi; lia|].
    replace (acc ++ v :: vs) with ((acc ++ [v]) ++ vs)
      by now rewrite <- app_assoc.
    apply IHs. lia.
  - (* no pair *)
    intros t. exists 0%nat. intros depth p _.
    repeat split; intros; cbn; rewrite ?app_nil_r; apply returns_ret.
  - (* a pair and the others *)
    intros t key k t1 value v t2 pairs kvs t3
           _ [n1 IHk] _ [n2 IHv] _ [n3 IHs].
    exists (Nat.max n1 (Nat.max n2 n3)). intros depth p Hd.
    destruct (IHs depth (p + len key + len value) ltac:(lia))
      as (Hhash & Hivar & Hobject).
    repeat split.
    + intros Hh acc. cbn [length hash_loop fold_left].
      apply Forall_cons_iff in Hh. destruct Hh as [Hk Hh].
      eapply returns_bind; [apply IHk; lia|].
      eapply returns_bind; [apply IHv; lia|].
      unfold dict_setitem. cbn [fst snd] in *. rewrite Hk.
      now apply Hhash.
    + intros acc. cbn [length ivar_loop].
      eapply returns_bind; [apply IHk; lia|].
      eapply returns_bind; [apply IHv; lia|].
      replace (acc ++ flatten_pairs ((k, v) :: kvs))
        with (((acc ++ [k]) ++ [v]) ++ flatten_pairs kvs)
        by (unfold flatten_pairs; cbn; now rewrite <- !app_assoc).
      apply Hivar.
    + intros acc. cbn [length object_loop].
      eapply returns_bind; [apply IHk; lia|].
      eapply returns_bind; [apply IHv; lia|].
      replace (acc ++ flatten_pairs ((k, v) :: kvs))
        with (((acc ++ [k]) ++ [v]) ++ flatten_pairs kvs)
        by (unfold flatten_pairs; cbn; now rewrite <- !app_assoc).
      apply Hobject.
Qed.

(** C10. For a buffer that is the version bytes 4 and 8, one complete
    encoding of a value and any bytes after it, [load] returns that
    value at every nesting depth from some depth on, and [_load] leaves
    the cursor just after the encoding, with the symbols of the
    encoding in the table: the bytes after it are not read and cause no
    error. The encoding is complete as [decodes_to] says: counts are
    the numbers of bytes, values or pairs that follow, text is valid
    UTF-8, symbol links are indexes into the table, hash keys are
    hashable. *)
Theorem load_ignores_trailing_bytes value v t' :
  decodes_to [] value v t' ->
  exists n, forall depth trailing,
    (n <= depth)%nat ->
    _load depth (__init__ (x04 :: x08 :: value ++ trailing))
    = Return v (mkMarshal (x04 :: x08 :: value ++ trailing)
                          (2 + len value) t')
    /\ load depth (x04 :: x08 :: value ++ trailing) = Value v.
Proof.
  intros Hd. destruct (proj1 read_decodes [] value v t' Hd) as [n H].
  exists n. intros depth trailing Hle.
  assert (Hrun : _load depth (__init__ (x04 :: x08 :: value ++ trailing))
                 = Return v (mkMarshal (x04 :: x08 :: value ++ trailing)
                                       (2 + len value) t')).
  { rewrite load_after_header. apply (H depth 2 Hle).
    exists [x04; x08], trailing. now split. }
  split; [exact Hrun|]. unfold load. now rewrite Hrun.
Qed.

(** The string "azerty" with its encoding attribute, followed by any
    bytes. *)
Lemma load_ignores_trailing_bytes_witness :
  exists n, forall depth trailing,
    (n <= depth)%nat ->
    _load depth
      (__init__
         (x04 :: x08
          :: [x49; x22; x0b; x61; x7a; x65; x72; x74; x79; x06; x3a; x06;
              x45; x54] ++ trailing))
    = Return (VStr [97; 122; 101; 114; 116; 121])
        (mkMarshal
           (x04 :: x08
            :: [x49; x22; x0b; x61; x7a; x65; x72; x74; x79; x06; x3a; x06;
                x45; x54] ++ trailing)
           (2 + len [x49; x22; x0b; x61; x7a; x65; x72; x74; x79; x06; x3a;
                     x06; x45; x54])
           [[58; 69]])
    /\ load depth
         (x04 :: x08
          :: [x49; x22; x0b; x61; x7a; x65; x72; x74; x79; x06; x3a; x06;
              x45; x54] ++ trailing)
       = Value (VStr [97; 122; 101; 114; 116; 121]).
Proof.
  apply (load_ignores_trailing_bytes
           [x49; x22; x0b; x61; x7a; x65; x72; x74; x79; x06; x3a; x06;
            x45; x54]
           (VStr [97; 122; 101; 114; 116; 121]) [[58; 69]]).
  apply (d_ivars [] [x22; x0b; x61; x7a; x65; x72; x74; x79]
                 (VStr [97; 122; 101; 114; 116; 121]) []
                 [x06] [x3a; x06; x45; x54]
                 [(VStr [58; 69], VBool true)] [[58; 69]]).
  - apply (d_string [] [x0b] [x61; x7a; x65; x72; x74; x79]
                    [97; 122; 101; 114; 116; 121]).
    + exists x0b, []. repeat split.
    + reflexivity.
  - exists x06, []. repeat split.
  - apply (dp_cons [] [x3a; x06; x45] (VStr [58; 69]) [[58; 69]]
                   [x54] (VBool true) [[58; 69]] [] [] [[58; 69]]).
    + apply d_symbol. apply (st_symbol [] [x06] [x45] [69]).
      * exists x06, []. repeat split.
      * reflexivity.
    + apply d_true.
    + apply dp_nil.
Defined.

(** Hashable keys are needed. The encoding of the hash [{[] => nil}]
    is complete by the grammar of the productions, and [load] returns
    no value for it at any nesting depth, with or without bytes after
    it: from depth 2 on, storing the pair raises [TypeError]. *)
Lemma array_keyed_hash_is_not_decoded :
  well_formed 0 [x7b; x06; x5b; x00; x30] 0
  /\ (forall depth trailing,
         exists e,
           load depth (x04 :: x08 :: [x7b; x06; x5b; x00; x30] ++ trailing)
           = Error e)
  /\ (forall more trailing,
         load (2 + more)
              (x04 :: x08 :: [x7b; x06; x5b; x00; x30] ++ trailing)
         = Error TypeError).
Proof.
  assert (Hwf : well_formed 0 [x7b; x06; x5b; x00; x30] 0).
  { apply (wf_hash 0 [x06] 1 [x5b; x00; x30] 0).
    - exists x06, []. repeat split.
    - apply (pairs_cons 0 0 [x5b; x00] 0 [x30] 0 [] 0).
      + apply (wf_array 0 [x00] 0 [] 0).
        * exists x00, []. repeat split.
        * apply items_nil.
      + apply wf_nil.
      + apply pairs_nil. }
  assert (Hdeep : forall more trailing,
             load (2 + more)
                  (x04 :: x08 :: [x7b; x06; x5b; x00; x30] ++ trailing)
             = Error TypeError).
  { intros more trailing.
    rewrite (load_same_with_trailing_bytes _ 0 Hwf).
    unfold load. rewrite load_after_header.
    destruct (read_below 2 more
                (mkMarshal [x04; x08; x7b; x06; x5b; x00; x30] 2 []))
      as [E|E].
    - vm_compute in E. discriminate.
    - cbn [app]. rewrite E. reflexivity. }
  split; [exact Hwf|]. split; [|exact Hdeep].
  intros [|[|more]] trailing;
    [rewrite (load_same_with_trailing_bytes _ 0 Hwf);
     exists RecursionError; reflexivity.. |].
  exists TypeError. exact (Hdeep more trailing).
Qed.

(** ** C8: one instance and one symbol table for each call *)

Lemma length_update st : forall a o,
  length (Process.update st a o) = length st.
Proof.
  induction st as [|x st IH]; intros [|a] o; simpl; auto.
Qed.

Lemma nth_error_update_eq st : forall a o,
  (a < length st)%nat -> nth_error (Process.update st a o) a = Some o.
Proof.
  induction st as [|x st IH]; intros [|a] o H; simpl in *; try lia; auto.
  apply IH. lia.
Qed.

Lemma nth_error_update_neq st : forall a b o,
  a <> b -> nth_error (Process.update st a o) b = nth_error st b.
Proof.
  induction st as [|x st IH]; intros [|a] [|b] o H; simpl; auto;
    try congruence.
Qed.

Lemma others_kept_refl st self s : others_kept st st self s.
Proof. split; auto. Qed.

Lemma others_kept_trans st1 st2 st3 self s :
  others_kept st1 st2 self s -> others_kept st2 st3 self s ->
  others_kept st1 st3 self s.
Proof.
  intros [L1 H1] [L2 H2]. split; [congruence|].
  intros a Ha Hs. now rewrite H2, H1.
Qed.

Lemma others_kept_update st self s a o :
  a = self \/ a = s -> others_kept st (Process.update st a o) self s.
Proof.
  intros Ha. split; [apply length_update|].
  intros b Hb Hs. apply nth_error_update_neq. destruct Ha; congruence.
Qed.

Lemma stored_distinct st self s inst : stored st self s inst -> self <> s.
Proof. intros [Hi Hs] ->. congruence. Qed.

Lemma stored_position st self s inst position :
  stored st self s inst ->
  stored (Process.update st self (Process.Instance (_data inst) position s))
         self s (mkMarshal (_data inst) position (_symbols inst)).
Proof.
  intros Hst. pose proof (stored_distinct _ _ _ _ Hst) as Hne.
  destruct Hst as [Hi Hs]. split.
  - apply nth_error_update_eq. apply nth_error_Some. congruence.
  - now rewrite nth_error_update_neq.
Qed.

Lemma refines_ret {A} self s (a : A) : refines self s (Process.ret a) (ret a).
Proof.
  intros st inst Hst. exists st. repeat split; auto. apply Hst. apply Hst.
Qed.

Lemma refines_raise {A} self s e :
  refines self s (@Process.raise A e) (raise e).
Proof. intros st inst Hst. exists st. repeat split; auto. Qed.

Lemma refines_bind {A B} self s (hc : Process.M A) (c : M A)
  (hk : A -> Process.M B) (k : A -> M B) :
  refines self s hc c -> (forall a, refines self s (hk a) (k a)) ->
  refines self s (Process.bind hc hk) (bind c k).
Proof.
  intros Hc Hk st inst Hst. unfold bind, Process.bind.
  specialize (Hc st inst Hst). destruct (c inst) as [a inst'|e].
  - destruct Hc as (st' & -> & Hst' & Hf).
    specialize (Hk a st' inst' Hst'). destruct (k a inst') as [b inst''|e].
    + destruct Hk as (st'' & -> & Hst'' & Hf').
      exists st''. repeat split; try apply Hst''.
      * apply (others_kept_trans _ _ _ _ _ Hf Hf').
      * apply (others_kept_trans _ _ _ _ _ Hf Hf').
    + destruct Hk as (st'' & -> & Hf'). exists st''. split; [reflexivity|].
      apply (others_kept_trans _ _ _ _ _ Hf Hf').
  - destruct Hc as (st' & -> & Hf). now exists st'.
Qed.

Lemma refines_read_byte self s :
  refines self s (Process._read_byte self) _read_byte.
Proof.
  intros st inst Hst. pose proof Hst as [Hi Hs].
  unfold _read_byte, Process._read_byte, Process.bind, Process.attributes.
  rewrite Hi.
  destruct (_position inst >=? len (_data inst)).
  - exists st. split; [reflexivity|apply others_kept_refl].
  - destruct (py_getitem (_data inst) (_position inst)) as [b|].
    + unfold Process.set_position. rewrite Hi.
      eexists. split; [reflexivity|]. split.
      * apply (stored_position _ _ _ _ (_position inst + 1) Hst).
      * apply others_kept_update. now left.
    + exists st. split; [reflexivity|apply others_kept_refl].
Qed.

Lemma refines_read_bytes self s count :
  refines self s (Process._read_bytes self count) (_read_bytes count).
Proof.
  intros st inst Hst. pose proof Hst as [Hi Hs].
  unfold _read_bytes, Process._read_bytes, Process.bind, Process.attributes.
  rewrite Hi.
  destruct (_position inst + count >? len (_data inst)).
  - exists st. split; [reflexivity|apply others_kept_refl].
  - unfold Process.set_position. rewrite Hi.
    eexists. split; [reflexivity|]. split.
    + apply (stored_position _ _ _ _ (_position inst + count) Hst).
    + apply others_kept_update. now left.
Qed.

Lemma refines_decode self s data_bytes :
  refines self s (Process.decode data_bytes) (decode data_bytes).
Proof.
  unfold Process.decode, decode. destruct (decode_utf8 data_bytes).
  - apply refines_ret.
  - apply refines_raise.
Qed.

Lemma refines_symbols_append self s symbol :
  refines self s (Process.symbols_append self symbol) (symbols_append symbol).
Proof.
  intros st inst Hst. pose proof (stored_distinct _ _ _ _ Hst) as Hne.
  destruct Hst as [Hi Hs].
  unfold symbols_append, Process.symbols_append, Process.bind,
    Process.attributes, Process.append.
  rewrite Hi, Hs. eexists. split; [reflexivity|]. split.
  - split; cbn [_data _position _symbols].
    + rewrite nth_error_update_neq by congruence. exact Hi.
    + apply nth_error_update_eq. apply nth_error_Some. congruence.
  - apply others_kept_update. now right.
Qed.

Lemma refines_symbol_at self s link :
  refines self s (Process.symbol_at self link)
    (fun self =>
       if link >=? len (_symbols self) then
         Raise (RuntimeError (InvalidSymbolLink link))
       else
         match py_getitem (_symbols self) link with
         | Some symbol => Return symbol self
         | None => Raise IndexError
         end).
Proof.
  intros st inst Hst. pose proof Hst as [Hi Hs].
  unfold Process.symbol_at, Process.bind, Process.attributes,
    Process.items_of.
  rewrite Hi, Hs.
  destruct (link >=? len (_symbols inst)).
  - exists st. split; [reflexivity|apply others_kept_refl].
  - destruct (py_getitem (_symbols inst) link).
    + exists st. repeat split; try apply Hst; auto.
    + exists st. split; [reflexivity|apply others_kept_refl].
Qed.

Create HintDb refines.
#[local] Hint Resolve refines_ret refines_raise refines_read_byte
  refines_read_bytes refines_decode refines_symbols_append
  refines_symbol_at : refines.

Ltac refining :=
  repeat first
    [ apply refines_ret
    | apply refines_raise
    | apply refines_bind; [|intros ?]
    | match goal with
      | |- refines _ _ (if ?b then _ else _) (if ?b then _ else _) =>
          destruct b
      | |- refines _ _ (match ?x with _ => _ end)
                   (match ?x with _ => _ end) =>
          destruct x
      end
    | solve [auto with refines] ].

Lemma refines_read_int_positive self s n : forall i x,
  refines self s (Process.read_int_positive self n i x)
          (read_int_positive n i x).
Proof.
  induction n as [|n IH]; intros i x; cbn; refining.
Qed.

Lemma refines_read_int_negative self s n : forall i x,
  refines self s (Process.read_int_negative self n i x)
          (read_int_negative n i x).
Proof.
  induction n as [|n IH]; intros i x; cbn; refining.
Qed.

#[local] Hint Resolve refines_read_int_positive refines_read_int_negative
  : refines.

Lemma refines_read_int self s :
  refines self s (Process._read_int self) _read_int.
Proof. unfold Process._read_int, _read_int. refining. Qed.

#[local] Hint Resolve refines_read_int : refines.

Lemma refines_read_symbol self s :
  refines self s (Process._read_symbol self) _read_symbol.
Proof. unfold Process._read_symbol, _read_symbol. refining. Qed.

Lemma refines_read_symbol_link self s :
  refines self s (Process._read_symbol_link self) _read_symbol_link.
Proof.
  unfold Process._read_symbol_link, _read_symbol_link.
  apply refines_bind; [auto with refines|]. intros link.
  apply refines_symbol_at.
Qed.

#[local] Hint Resolve refines_read_symbol refines_read_symbol_link : refines.

Lemma refines_read_class_symbol self s :
  refines self s (Process.read_class_symbol self) read_class_symbol.
Proof.
  unfold Process.read_class_symbol, read_class_symbol.
  apply refines_bind; [auto with refines|]. intros type_byte.
  destruct (RubyTypeM.from_byte type_byte) as [[]|]; refining.
Qed.

Lemma refines_read_bignum self s :
  refines self s (Process._read_bignum self) _read_bignum.
Proof. unfold Process._read_bignum, _read_bignum. refining. Qed.

Lemma refines_read_string self s :
  refines self s (Process._read_string self) _read_string.
Proof. unfold Process._read_string, _read_string. refining. Qed.

Lemma refines_read_link self s :
  refines self s (Process._read_link self) _read_link.
Proof. unfold Process._read_link, _read_link. refining. Qed.

#[local] Hint Resolve refines_read_class_symbol refines_read_bignum
  refines_read_string refines_read_link : refines.

Lemma refines_read_userdef self s :
  refines self s (Process._read_userdef self) _read_userdef.
Proof. unfold Process._read_userdef, _read_userdef. refining. Qed.

#[local] Hint Resolve refines_read_userdef : refines.

Section RefinedProductions.

Variables self s : Process.address.
Variable hread : Process.M pyvalue.
Variable read : M pyvalue.
Hypothesis Hread : refines self s hread read.

Lemma refines_array_loop n : forall acc,
  refines self s (Process.array_loop hread n acc) (array_loop read n acc).
Proof.
  induction n as [|n IH]; intros acc; cbn; refining.
Qed.

Lemma refines_hash_loop n : forall acc,
  refines self s (Process.hash_loop hread n acc) (hash_loop read n acc).
Proof.
  induction n as [|n IH]; intros acc; cbn; refining.
Qed.

Lemma refines_ivar_loop n : forall acc,
  refines self s (Process.ivar_loop hread n acc) (ivar_loop read n acc).
Proof.
  induction n as [|n IH]; intros acc; cbn; refining.
Qed.

Lemma refines_object_loop n : forall acc,
  refines self s (Process.object_loop hread n acc) (object_loop read n acc).
Proof.
  induction n as [|n IH]; intros acc; cbn; refining.
Qed.

Lemma refines_read_body :
  refines self s (Process.read_body self hread) (read_body read).
Proof.
  pose proof refines_array_loop. pose proof refines_hash_loop.
  pose proof refines_ivar_loop. pose proof refines_object_loop.
  unfold Process.read_body, read_body.
  apply refines_bind; [auto with refines|]. intros type_byte.
  destruct (RubyTypeM.from_byte type_byte) as [[]|];
    unfold Process._read_hash, _read_hash, Process._read_array, _read_array,
      Process._read_ivar, _read_ivar, Process._read_usr_marshal,
      _read_usr_marshal, Process._read_extended, _read_extended,
      Process._read_object, _read_object;
    refining; auto.
Qed.

End RefinedProductions.

Lemma refines_read self s depth :
  refines self s (Process._read self depth) (_read depth).
Proof.
  induction depth as [|depth IH]; cbn.
  - apply refines_raise.
  - now apply refines_read_body.
Qed.

Lemma refines_load self s depth :
  refines self s (Process._load self depth) (_load depth).
Proof.
  pose proof (refines_read self s depth).
  unfold Process._load, _load. refining; auto.
Qed.

Lemma nth_error_new (st : Process.store) a b :
  nth_error (st ++ [a; b]) (length st) = Some a
  /\ nth_error (st ++ [a; b]) (S (length st)) = Some b.
Proof.
  split.
  - rewrite nth_error_app2 by lia. now rewrite Nat.sub_diag.
  - rewrite nth_error_app2 by lia.
    now replace (S (length st) - length st)%nat with 1%nat by lia.
Qed.

(** A store that has the length of [st] and two objects more, and holds
    what [st] holds at the addresses of [st], is [st] and two
    objects. *)
Lemma others_kept_added (st : Process.store) : forall st' a b,
  others_kept (st ++ [a; b]) st' (length st) (S (length st)) ->
  exists added, length added = 2%nat /\ st' = st ++ added.
Proof.
  induction st as [|x st IH]; intros st' a b [Hlen H].
  - exists st'. split; [exact Hlen|reflexivity].
  - destruct st' as [|x' st']; [discriminate|].
    assert (x' = x).
    { specialize (H 0%nat ltac:(simpl; lia) ltac:(simpl; lia)).
      simpl in H. congruence. }
    subst x'. destruct (IH st' a b) as (added & Hadd & ->).
    + split; [simpl in Hlen; lia|]. intros i Hi Hs.
      apply (H (S i)); simpl; lia.
    + now exists added.
Qed.

Lemma load_on_store depth data st :
  exists added,
    length added = 2%nat
    /\ Process.load depth data st
       = Process.ended (load depth data) (st ++ added).
Proof.
  unfold Process.load, Process.bind, Process.new.
  set (self := length st). set (s := S self).
  set (st0 := st ++ [Process.Instance data 0 s; Process.Symbols []]).
  assert (Hst : stored st0 self s (__init__ data)).
  { split; apply nth_error_new. }
  pose proof (refines_load self s depth st0 (__init__ data) Hst) as H.
  unfold load. destruct (_load depth (__init__ data)) as [v inst'|e].
  - destruct H as (st' & -> & _ & Hf).
    destruct (others_kept_added _ _ _ _ Hf) as (added & Hlen & ->).
    now exists added.
  - destruct H as (st' & -> & Hf).
    destruct (others_kept_added _ _ _ _ Hf) as (added & Hlen & ->).
    now exists added.
Qed.

Lemma result_of_ended r st : Process.result_of (Process.ended r st) = Some r.
Proof. now destruct r. Qed.

Lemma result_on_store depth data st :
  Process.result_of (Process.load depth data st) = Some (load depth data).
Proof.
  destruct (load_on_store depth data st) as (added & _ & ->).
  apply result_of_ended.
Qed.

Lemma session_on_store depth inputs : forall st,
  exists added,
    Process.session depth inputs st
    = Some (map (load depth) inputs, st ++ added).
Proof.
  induction inputs as [|data rest IH]; intros st.
  - exists []. cbn. now rewrite app_nil_r.
  - cbn [Process.session map].
    destruct (load_on_store depth data st) as (added & _ & ->).
    destruct (IH (st ++ added)) as (more & Hs).
    exists (added ++ more). rewrite app_assoc.
    destruct (load depth data); cbn [Process.ended]; now rewrite Hs.
Qed.

Lemma load_below depth more : below (_load depth) (_load (depth + more)).
Proof.
  unfold _load. apply below_bind; [apply below_refl|]. intros major.
  destruct (major =? 4); [|apply below_refl].
  apply below_bind; [apply below_refl|]. intros minor.
  destruct (minor =? 8); [apply read_below|apply below_refl].
Qed.

Lemma load_at_depths depth depth' data :
  load depth data <> Error RecursionError ->
  load depth' data <> Error RecursionError ->
  load depth' data = load depth data.
Proof.
  intros H H'. unfold load in *.
  destruct (Nat.le_ge_cases depth depth') as [Hle|Hle].
  - replace depth' with (depth + (depth' - depth))%nat in * by lia.
    destruct (load_below depth (depth' - depth) (__init__ data)) as [E|E].
    + rewrite E in H. now elim H.
    + now rewrite E.
  - replace depth with (depth' + (depth - depth'))%nat in * by lia.
    destruct (load_below depth' (depth - depth') (__init__ data)) as [E|E].
    + rewrite E in H'. now elim H'.
    + now rewrite E.
Qed.

(** C8. A call of [load] on the store of a process makes a new instance
    and a new list for its symbols, and returns or raises what [load]
    gives on an instance of its own, whatever objects earlier calls
    have left in the store: it reads none of them, and it leaves every
    one of them as it was, adding its two objects after them. So two
    calls on the same bytes give the same result, from whatever stores
    they start; the calls of a session give, each, the result of a call
    on its own, whether the calls before returned or raised; and two
    calls that are allowed different nesting depths give the same
    result unless one of them runs out of depth. *)
Theorem load_is_call_independent depth data :
  (forall st,
      exists added,
        length added = 2%nat
        /\ Process.load depth data st
           = Process.ended (load depth data) (st ++ added))
  /\ (forall st1 st2,
         Process.result_of (Process.load depth data st1)
         = Process.result_of (Process.load depth data st2))
  /\ (forall inputs st,
         exists added,
           Process.session depth inputs st
           = Some (map (load depth) inputs, st ++ added))
  /\ (forall depth' st st',
         Process.result_of (Process.load depth data st)
         <> Some (Error RecursionError) ->
         Process.result_of (Process.load depth' data st')
         <> Some (Error RecursionError) ->
         Process.result_of (Process.load depth' data st')
         = Process.result_of (Process.load depth data st)).
Proof.
  repeat match goal with |- _ /\ _ => split end.
  - apply load_on_store.
  - intros st1 st2. now rewrite !result_on_store.
  - apply session_on_store.
  - intros depth' st st'. rewrite !result_on_store. intros H H'.
    f_equal. apply load_at_depths; congruence.
Qed.

(** The array [[:a, ;0]] decoded after a call that left the symbol
    [:b] in its table, and with more depth: the link finds [:a]. *)
Lemma load_is_call_independent_witness :
  Process.result_of
    (Process.load 7 [x04; x08; x5b; x07; x3a; x06; x61; x3b; x00]
       [Process.Instance [x04; x08; x3a; x06; x62] 5 1%nat;
        Process.Symbols [[58; 98]]])
  = Process.result_of
      (Process.load 2 [x04; x08; x5b; x07; x3a; x06; x61; x3b; x00] []).
Proof.
  apply (proj2 (proj2 (proj2
           (load_is_call_independent 2
              [x04; x08; x5b; x07; x3a; x06; x61; x3b; x00])))).
  - vm_compute. discriminate.
  - vm_compute. discriminate.
Defined.

(** One table for all instances would show: on the table an earlier
    call left, the same bytes would decode otherwise. *)
Lemma shared_symbols_would_show :
  load 2 [x04; x08; x3b; x00]
  = Error (RuntimeError (InvalidSymbolLink 0))
  /\ Process.result_of
       (Process._load 0%nat 2
          [Process.Instance [x04; x08; x3b; x00] 0 1%nat;
           Process.Symbols [[58; 97]]])
     = Some (Value (VStr [58; 97])).
Proof. split; reflexivity. Qed.

(** ** A string cut short *)

(** X15. [_read_string] on a buffer that ends with the encoding of a
    length [n], not negative, and the bytes [rest]: when [rest] has
    fewer than [n] bytes it raises the not-enough-data error with [n]
    and the number of bytes left; otherwise it decodes the first [n]
    bytes of [rest] as UTF-8, returns the text with the cursor after
    them, or raises [UnicodeDecodeError] when they are not UTF-8. *)
Theorem read_string_cases before e n rest t :
  fixnum e n -> 0 <= n ->
  (len rest < n ->
   _read_string (mkMarshal (before ++ e ++ rest) (len before) t)
   = Raise (RuntimeError (NotEnoughData n (len rest))))
  /\ (n <= len rest ->
      _read_string (mkMarshal (before ++ e ++ rest) (len before) t)
      = match decode_utf8 (firstn (Z.to_nat n) rest) with
        | Some s =>
            Return s (mkMarshal (before ++ e ++ rest)
                                (len before + len e + n) t)
        | None => Raise UnicodeDecodeError
        end).
Proof.
  intros (c & payload & -> & Hlen & ->) Hn.
  set (n := packed_fixnum (signed c) payload) in *.
  set (data := before ++ (c :: payload) ++ rest).
  assert (Hint : _read_int (mkMarshal data (len before) t)
                 = Return n (mkMarshal data
                               (len before + len (c :: payload)) t)).
  { rewrite (read_int_at (mkMarshal data (len before) t) c payload).
    - rewrite len_cons. reflexivity.
    - exists before, rest. now split.
    - exact Hlen. }
  assert (Hdata : len data = len before + len (c :: payload) + len rest)
    by (unfold data; rewrite !len_app; lia).
  assert (Hskip : skipn (Z.to_nat (len before + len (c :: payload))) data
                  = rest).
  { unfold data. rewrite app_assoc.
    rewrite skipn_app, skipn_all2.
    - unfold len. rewrite <- Nat2Z.inj_add, Nat2Z.id, <- length_app.
      now rewrite Nat.sub_diag.
    - unfold len. rewrite length_app. lia. }
  pose proof (len_nonneg before). pose proof (len_nonneg (c :: payload)).
  fold data. clearbody n data.
  pose proof (read_bytes_enough
                (mkMarshal data (len before + len (c :: payload)) t) n)
    as Xok.
  pose proof (read_bytes_short
                (mkMarshal data (len before + len (c :: payload)) t) n)
    as Xfail.
  cbn [_position _data] in Xok, Xfail.
  specialize (Xok ltac:(lia) Hn). specialize (Xfail ltac:(lia) Hn).
  unfold _read_string, bind. rewrite Hint. split; intros Hrest.
  - rewrite Xfail by lia. do 3 f_equal. lia.
  - destruct (Xok ltac:(lia)) as [Hbytes _].
    rewrite Hbytes, Hskip. unfold decode, ret, raise. cbn [advance].
    cbn [_position _data _symbols].
    now destruct (decode_utf8 (firstn (Z.to_nat n) rest)).
Qed.

(** A string that announces five bytes and has two. *)
Lemma read_string_cases_witness :
  _read_string (mkMarshal ([x04; x08; x22] ++ [x0a] ++ [x61; x62])
                          (len [x04; x08; x22]) [])
  = Raise (RuntimeError (NotEnoughData 5 (len [x61; x62]))).
Proof.
  apply (proj1 (read_string_cases [x04; x08; x22] [x0a] 5 [x61; x62] []
                  ltac:(exists x0a, []; repeat split) ltac:(lia))).
  unfold len. simpl. lia.
Defined.

(** * activesupport.key_generator *)

(** ** The cache key *)

Lemma str_of_int_inj n m : str_of_int n = str_of_int m -> n = m.
Proof.
  unfold str_of_int. intros H.
  apply DecimalZ.to_int_inj.
  assert (Hnil : forall z, Z.to_int z <> Decimal.Pos Decimal.Nil
                           /\ Z.to_int z <> Decimal.Neg Decimal.Nil).
  { intros [|p|p]; simpl; split; try discriminate;
      intros E; injection E as E;
      exact (DecimalPos.Unsigned.to_uint_nonnil p E). }
  assert (Hs : DecimalString.NilZero.string_of_int (Z.to_int n)
               = DecimalString.NilZero.string_of_int (Z.to_int m)).
  { rewrite <- (String.string_of_list_ascii_of_string
                  (DecimalString.NilZero.string_of_int (Z.to_int n))).
    rewrite <- (String.string_of_list_ascii_of_string
                  (DecimalString.NilZero.string_of_int (Z.to_int m))).
    f_equal. revert H.
    generalize (String.list_ascii_of_string
                  (DecimalString.NilZero.string_of_int (Z.to_int n))).
    generalize (String.list_ascii_of_string
                  (DecimalString.NilZero.string_of_int (Z.to_int m))).
    intros l2 l1. revert l2.
    induction l1 as [|a l1 IH]; intros [|b l2] E; try discriminate;
      [reflexivity|].
    simpl in E. injection E as E1 E2. f_equal; [|now apply IH].
    apply N2Z.inj in E1.
    rewrite <- (Ascii.ascii_N_embedding a), <- (Ascii.ascii_N_embedding b).
    now rewrite E1. }
  assert (Hsome : Some (Z.to_int n) = Some (Z.to_int m)).
  { rewrite <- (DecimalString.NilZero.isi (Z.to_int n));
      [|apply Hnil|apply Hnil].
    rewrite <- (DecimalString.NilZero.isi (Z.to_int m));
      [|apply Hnil|apply Hnil].
    now rewrite Hs. }
  now injection Hsome.
Qed.

Lemma string_of_uint_digits d :
  Forall (fun c => 48 <= Z.of_N (Ascii.N_of_ascii c) <= 57)
         (String.list_ascii_of_string
            (DecimalString.NilEmpty.string_of_uint d)).
Proof.
  induction d; simpl; constructor; try assumption; simpl; lia.
Qed.

Lemma str_of_int_chars n :
  Forall (fun c => c = 45 \/ 48 <= c <= 57) (str_of_int n).
Proof.
  assert (Hu : forall d,
             Forall (fun c => c = 45 \/ 48 <= c <= 57)
               (map (fun c => Z.of_N (Ascii.N_of_ascii c))
                  (String.list_ascii_of_string
                     (DecimalString.NilZero.string_of_uint d)))).
  { intros d. apply Forall_map.
    assert (Hd := string_of_uint_digits d).
    destruct d; simpl in *;
      try (eapply Forall_impl; [|exact Hd]; intros c Hc; now right).
    constructor; [right; simpl; lia|constructor]. }
  unfold str_of_int. destruct (Z.to_int n) as [d|d]; simpl.
  - apply Hu.
  - constructor; [now left|apply Hu].
Qed.

Lemma separator_unique {A} (x : A) a : forall a' b b',
  ~ In x a -> ~ In x a' ->
  a ++ x :: b = a' ++ x :: b' -> a = a' /\ b = b'.
Proof.
  induction a as [|y a IH]; intros [|y' a'] b b' Ha Ha' E; simpl in *.
  - injection E as ->. now split.
  - injection E as <- _. tauto.
  - injection E as -> _. tauto.
  - injection E as -> E. destruct (IH a' b b') as [-> ->]; tauto.
Qed.

Lemma cache_key_inj salt key_size salt' key_size' :
  KeyGenerator.cache_key salt key_size
  = KeyGenerator.cache_key salt' key_size' ->
  salt = salt' /\ key_size = key_size'.
Proof.
  unfold KeyGenerator.cache_key. intros E.
  apply (f_equal (@rev Z)) in E. rewrite !rev_app_distr in E.
  simpl in E. rewrite <- !app_assoc in E. simpl in E.
  assert (Hbar : forall n, ~ In 124 (rev (str_of_int n))).
  { intros n Hin. apply in_rev in Hin.
    pose proof (str_of_int_chars n) as Hc. rewrite Forall_forall in Hc.
    destruct (Hc _ Hin); lia. }
  apply separator_unique in E; [|apply Hbar|apply Hbar].
  destruct E as [E1 E2].
  apply (f_equal (@rev Z)) in E1, E2. rewrite !rev_involutive in E1, E2.
  split; [exact E2|now apply str_of_int_inj].
Qed.

(** ** The cache does not show *)

Lemma str_eqb_eq a b : str_eqb a b = true <-> a = b.
Proof.
  unfold str_eqb. destruct (list_eq_dec Z.eq_dec a b); split;
    intros; try discriminate; auto.
Qed.

Lemma cache_get_in cache k v :
  KeyGenerator.cache_get cache k = Some v -> In (k, v) cache.
Proof.
  unfold KeyGenerator.cache_get. intros H.
  destruct (find (fun kv => str_eqb (fst kv) k) cache) as [[k' v']|] eqn:E;
    [|discriminate].
  simpl in H. injection H as ->. apply find_some in E.
  destruct E as [Hin Hk]. simpl in Hk. apply str_eqb_eq in Hk. now subst.
Qed.

Lemma cache_set_in cache k v kv :
  In kv (KeyGenerator.cache_set cache k v) ->
  In kv cache \/ kv = (k, v).
Proof.
  induction cache as [|[k0 v0] rest IH]; simpl.
  - intros [<- | []]. now right.
  - destruct (str_eqb k0 k) eqn:E.
    + apply str_eqb_eq in E. subst. intros [<- | H]; auto.
    + intros [<- | H]; auto. destruct (IH H); auto.
Qed.

Section KeyGeneratorCache.

Variable pbkdf2_hmac_sha1 :
  list byte -> list byte -> Z -> Z -> option (list byte).

Local Abbreviation derive := (KeyGenerator._generate_key pbkdf2_hmac_sha1).
Local Abbreviation sound := (cache_sound pbkdf2_hmac_sha1).

Lemma derive_same self self' salt key_size :
  KeyGenerator._secret self' = KeyGenerator._secret self ->
  KeyGenerator._iterations self' = KeyGenerator._iterations self ->
  derive self' salt key_size = derive self salt key_size.
Proof.
  intros Hs Hi. unfold KeyGenerator._generate_key.
  now rewrite Hs, Hi.
Qed.

Lemma generate_key_step self salt key_size :
  sound self ->
  fst (KeyGenerator.generate_key pbkdf2_hmac_sha1 self salt key_size)
  = derive self salt key_size
  /\ sound (snd (KeyGenerator.generate_key pbkdf2_hmac_sha1 self salt
                   key_size))
  /\ KeyGenerator._secret
       (snd (KeyGenerator.generate_key pbkdf2_hmac_sha1 self salt key_size))
     = KeyGenerator._secret self
  /\ KeyGenerator._iterations
       (snd (KeyGenerator.generate_key pbkdf2_hmac_sha1 self salt key_size))
     = KeyGenerator._iterations self.
Proof.
  intros Hsound. unfold KeyGenerator.generate_key.
  destruct (KeyGenerator._key_cache self) as [cache|] eqn:Ec;
    [|simpl; auto].
  destruct (KeyGenerator.cache_get cache
              (KeyGenerator.cache_key salt key_size)) as [key|] eqn:Eg.
  - simpl. repeat split; try assumption.
    apply cache_get_in in Eg.
    destruct (Hsound cache _ _ Ec Eg) as (salt' & size' & Hk & Hd).
    apply cache_key_inj in Hk. destruct Hk as [-> ->]. now rewrite Hd.
  - destruct (derive self salt key_size) as [key|] eqn:Ed; simpl;
      [|auto].
    repeat split. intros cache' k v Hc Hin. simpl in Hc.
    injection Hc as <-. apply cache_set_in in Hin.
    destruct Hin as [Hin|Hin].
    + destruct (Hsound cache _ _ Ec Hin) as (salt' & size' & Hk & Hd).
      exists salt', size'. split; [exact Hk|].
      rewrite <- Hd. now apply derive_same.
    + injection Hin as -> ->. exists salt, key_size.
      split; [reflexivity|]. rewrite <- Ed. now apply derive_same.
Qed.

Lemma generate_keys_derive queries : forall self,
  sound self ->
  KeyGenerator.generate_keys pbkdf2_hmac_sha1 self queries
  = map (fun q => derive self (fst q) (snd q)) queries.
Proof.
  induction queries as [|[salt key_size] rest IH]; intros self Hsound;
    simpl; [reflexivity|].
  destruct (generate_key_step self salt key_size Hsound)
    as (Hr & Hsound' & Hsec & Hit).
  destruct (KeyGenerator.generate_key pbkdf2_hmac_sha1 self salt key_size)
    as [r self']. simpl in *. subst r. f_equal.
  rewrite (IH self' Hsound'). apply map_ext. intros q.
  now apply derive_same.
Qed.

(** X16. The cache of a key generator does not show in what it returns:
    for every secret, iteration count and list of calls, the calls on a
    generator with a cache return, one by one, what the same calls
    return on a generator without one, and that is what
    [_generate_key] derives for the salt and size of each call. Two
    different (salt, size) never share a cache key, and a failed
    derivation is not cached. *)
Theorem generate_key_cache_transparent secret iterations queries :
  KeyGenerator.generate_keys pbkdf2_hmac_sha1
    (KeyGenerator.__init__ secret iterations true) queries
  = KeyGenerator.generate_keys pbkdf2_hmac_sha1
      (KeyGenerator.__init__ secret iterations false) queries
  /\ KeyGenerator.generate_keys pbkdf2_hmac_sha1
       (KeyGenerator.__init__ secret iterations true) queries
     = map (fun q =>
              KeyGenerator._generate_key pbkdf2_hmac_sha1
                (KeyGenerator.__init__ secret iterations false)
                (fst q) (snd q))
           queries.
Proof.
  assert (H1 : sound (KeyGenerator.__init__ secret iterations true)).
  { intros cache k v Hc Hin. simpl in Hc. injection Hc as <-.
    destruct Hin. }
  assert (H2 : sound (KeyGenerator.__init__ secret iterations false)).
  { intros cache k v Hc. discriminate. }
  rewrite (generate_keys_derive queries _ H1).
  rewrite (generate_keys_derive queries _ H2).
  split; apply map_ext; intros q; now apply derive_same.
Qed.

End KeyGeneratorCache.

(** * activesupport.message_verifier *)

(** ** Splitting at "--" *)

Lemma split_loop_step c c' rest part :
  MessageVerifier.split_loop (c :: c' :: rest) part
  = if (c =? 45) && (c' =? 45)
    then rev part :: MessageVerifier.split_loop rest []
    else MessageVerifier.split_loop (c' :: rest) (c :: part).
Proof. reflexivity. Qed.

Lemma split_loop_nonempty s : forall part,
  MessageVerifier.split_loop s part <> [].
Proof.
  induction s as [|c s IH]; intros part; [discriminate|].
  destruct s as [|c' rest]; [discriminate|].
  rewrite split_loop_step.
  destruct ((c =? 45) && (c' =? 45)); [discriminate|apply IH].
Qed.

Lemma split_loop_join n : forall s part,
  (length s <= n)%nat ->
  join_dashes (MessageVerifier.split_loop s part) = rev part ++ s.
Proof.
  induction n as [|n IH]; intros s part Hlen.
  - destruct s; [|simpl in Hlen; lia]. simpl. now rewrite app_nil_r.
  - destruct s as [|c [|c' rest]].
    + simpl. now rewrite app_nil_r.
    + reflexivity.
    + rewrite split_loop_step.
      destruct ((c =? 45) && (c' =? 45)) eqn:E.
      * apply andb_true_iff in E. destruct E as [E1 E2].
        apply Z.eqb_eq in E1, E2. subst.
        cbn [join_dashes].
        destruct (MessageVerifier.split_loop rest []) eqn:Es;
          [now apply split_loop_nonempty in Es|].
        rewrite <- Es. rewrite IH by (simpl in Hlen; lia). reflexivity.
      * rewrite IH by (simpl in *; lia). simpl.
        now rewrite <- app_assoc.
Qed.

Lemma split_join s : join_dashes (MessageVerifier.split s) = s.
Proof. exact (split_loop_join (length s) s [] (le_n _)). Qed.

Lemma split_loop_free b : forall part,
  dash_free b -> MessageVerifier.split_loop b part = [rev part ++ b].
Proof.
  induction b as [|c b IH]; intros part Hb.
  - simpl. now rewrite app_nil_r.
  - inversion Hb as [|? ? Hc Hb']; subst.
    destruct b as [|c' b'].
    + reflexivity.
    + rewrite split_loop_step.
      destruct (c =? 45) eqn:E; [apply Z.eqb_eq in E; contradiction|].
      simpl andb. rewrite IH by assumption. simpl.
      now rewrite <- app_assoc.
Qed.

Lemma split_loop_first a : forall part b,
  dash_free a ->
  MessageVerifier.split_loop (a ++ 45 :: 45 :: b) part
  = (rev part ++ a) :: MessageVerifier.split_loop b [].
Proof.
  induction a as [|c a IH]; intros part b Ha.
  - simpl. now rewrite app_nil_r.
  - inversion Ha as [|? ? Hc Ha']; subst.
    assert (Hrest : exists c' rest, a ++ 45 :: 45 :: b = c' :: rest)
      by (destruct a; simpl; eauto).
    destruct Hrest as (c' & rest & Hrest).
    change ((c :: a) ++ 45 :: 45 :: b) with (c :: (a ++ 45 :: 45 :: b)).
    rewrite Hrest, split_loop_step.
    destruct (c =? 45) eqn:E; [apply Z.eqb_eq in E; contradiction|].
    simpl andb. rewrite <- Hrest, IH by assumption. simpl.
    now rewrite <- app_assoc.
Qed.

Lemma hex_dash_free data : dash_free (MessageVerifier.hex data).
Proof.
  unfold dash_free, MessageVerifier.hex.
  induction data as [|b data IH]; simpl; [constructor|].
  pose proof (byte_val_range b) as Hb.
  assert (Hd : forall d, 0 <= d < 16 -> MessageVerifier.hex_digit d <> 45).
  { intros d Hd. unfold MessageVerifier.hex_digit.
    destruct (d <? 10) eqn:E; lia. }
  constructor; [apply Hd; split;
                  [apply Z.div_pos; lia|apply Z.div_lt_upper_bound; lia]|].
  constructor; [apply Hd; apply Z.mod_pos_bound; lia|exact IH].
Qed.

Section MessageVerifierProperties.

Variable hmac_sha256 : list byte -> list byte -> list byte.
Variable b64encode : list byte -> list byte.
Variable b64decode : list byte -> option (list byte).
Variable json_dumps : MessageVerifier.json -> pystr.
Variable json_loads : pystr -> option MessageVerifier.json.
Variable Value : Type.
Variable str : Value -> pystr.

Local Abbreviation verify :=
  (MessageVerifier.verify hmac_sha256 b64decode json_loads).
Local Abbreviation generate :=
  (MessageVerifier.generate hmac_sha256 b64encode json_dumps Value str).
Local Abbreviation from_json :=
  (MessageVerifier.from_json b64decode json_loads).
Local Abbreviation _decode_string := (MessageVerifier._decode_string b64decode).
Local Abbreviation digest_of :=
  (fun secret bs => MessageVerifier.hex (hmac_sha256 secret bs)).

Lemma split_two data digest :
  dash_free data -> dash_free digest ->
  MessageVerifier.split (data ++ [45; 45] ++ digest) = [data; digest].
Proof.
  intros Hd Hg. unfold MessageVerifier.split. simpl app.
  rewrite split_loop_first by assumption.
  now rewrite split_loop_free by assumption.
Qed.

(** ** Messages that are turned down *)

(** X17. [verify] returns [None], and raises nothing, for a message
    with no '-' in it (the empty message too), for a message of three
    parts between two "--", and for a message [data--digest] whose
    digest is not the hexadecimal HMAC of [data] under the secret: in
    that case nothing of [data] is decoded. *)
Theorem verify_turns_down secret purpose :
  (forall signed_message,
      dash_free signed_message ->
      verify secret signed_message purpose = MessageVerifier.Ok None)
  /\ (forall a b c,
         dash_free a -> dash_free b ->
         verify secret (a ++ [45; 45] ++ b ++ [45; 45] ++ c) purpose
         = MessageVerifier.Ok None)
  /\ (forall data digest data_bytes,
         dash_free data -> dash_free digest ->
         encode_utf8 data = Some data_bytes ->
         digest <> digest_of secret data_bytes ->
         verify secret (data ++ [45; 45] ++ digest) purpose
         = MessageVerifier.Ok None).
Proof.
  repeat match goal with |- _ /\ _ => split end.
  - intros sm Hfree. unfold MessageVerifier.verify, MessageVerifier.split.
    now rewrite split_loop_free by assumption.
  - intros a b c Ha Hb.
    unfold MessageVerifier.verify, MessageVerifier.split. simpl app.
    rewrite split_loop_first by assumption.
    change (b ++ 45 :: 45 :: c) with (b ++ 45 :: 45 :: c).
    rewrite split_loop_first by assumption.
    destruct (MessageVerifier.split_loop c []) eqn:E;
      [now apply split_loop_nonempty in E|reflexivity].
  - intros data digest data_bytes Hd Hg Henc Hne.
    unfold MessageVerifier.verify. rewrite split_two by assumption.
    unfold MessageVerifier._generate_digest_string,
      MessageVerifier._generate_digest_bytes. rewrite Henc.
    destruct (str_eqb digest (MessageVerifier.hex
                                (hmac_sha256 secret data_bytes))) eqn:E;
      [|reflexivity].
    apply str_eqb_eq in E. contradiction.
Qed.

(** ** What a returned message was signed with *)

(** X18. When [verify] returns a message, the signed message is
    [data--digest] where the digest is the hexadecimal HMAC-SHA256 of
    the UTF-8 bytes of [data] under the secret of the verifier, and the
    message and the purpose are those of the metadata decoded from
    [data]: no message is returned for another signature or another
    purpose. *)
Theorem verify_sound secret signed_message purpose m :
  verify secret signed_message purpose = MessageVerifier.Ok (Some m) ->
  exists data data_bytes text metadata,
    signed_message = data ++ [45; 45] ++ digest_of secret data_bytes
    /\ encode_utf8 data = Some data_bytes
    /\ _decode_string data = MessageVerifier.Ok text
    /\ from_json text = MessageVerifier.Ok metadata
    /\ MessageVerifier.purpose metadata = MessageVerifier.JString purpose
    /\ MessageVerifier.message metadata = m.
Proof.
  unfold MessageVerifier.verify. intros H.
  pose proof (split_join signed_message) as Hjoin.
  destruct (MessageVerifier.split signed_message)
    as [|data [|digest [|]]]; try discriminate.
  simpl in Hjoin.
  unfold MessageVerifier._generate_digest_string,
    MessageVerifier._generate_digest_bytes in H.
  destruct (encode_utf8 data) as [data_bytes|] eqn:Henc; [|discriminate].
  destruct (str_eqb digest (MessageVerifier.hex
                              (hmac_sha256 secret data_bytes))) eqn:E;
    [|discriminate].
  apply str_eqb_eq in E. subst digest. simpl negb in H. cbv iota in H.
  destruct (MessageVerifier._decode_string b64decode data)
    as [text|] eqn:Hdec; [|discriminate].
  unfold MessageVerifier.Metadata_verify in H.
  destruct (MessageVerifier.from_json b64decode json_loads text)
    as [metadata|] eqn:Hjson; [|discriminate].
  injection H as H. unfold MessageVerifier.verify_purpose in H.
  destruct (MessageVerifier.purpose metadata) eqn:Hp; try discriminate.
  destruct (str_eqb s purpose) eqn:Es; [|discriminate].
  apply str_eqb_eq in Es. subst s. injection H as <-.
  exists data, data_bytes, text, metadata. repeat split; auto.
Qed.

End MessageVerifierProperties.

(** ** UTF-8, there and back *)

Ltac div_mod := Z.div_mod_to_equations; lia.

Ltac decide_tests :=
  repeat (match goal with
          | |- context [?x <? ?y] => destruct (Z.ltb_spec x y); try lia
          | |- context [?x <=? ?y] => destruct (Z.leb_spec x y); try lia
          | |- context [?x =? ?y] => destruct (Z.eqb_spec x y); try lia
          end; cbn [andb]).

Lemma byte_val_byte_of z : 0 <= z < 256 -> byte_val (byte_of z) = z.
Proof.
  intros Hz. unfold byte_val, byte_of.
  destruct (Byte.of_N (Z.to_N z)) as [b|] eqn:E.
  - apply Byte.to_of_N in E. rewrite E. lia.
  - apply Byte.of_N_None_iff in E. lia.
Qed.

Lemma byte_of_byte_val b : byte_of (byte_val b) = b.
Proof.
  unfold byte_val, byte_of. now rewrite N2Z.id, Byte.of_to_N.
Qed.

Lemma decode_utf8_1 b0 t :
  byte_val b0 < 128 ->
  decode_utf8 (b0 :: t) = option_map (cons (byte_val b0)) (decode_utf8 t).
Proof. intros H. cbn [decode_utf8]. now decide_tests. Qed.

Lemma decode_utf8_2 b0 b1 t :
  194 <= byte_val b0 <= 223 -> 128 <= byte_val b1 <= 191 ->
  decode_utf8 (b0 :: b1 :: t)
  = option_map (cons ((byte_val b0 - 192) * 64 + (byte_val b1 - 128)))
               (decode_utf8 t).
Proof.
  intros H0 H1. cbn [decode_utf8]. unfold is_continuation.
  now decide_tests.
Qed.

Lemma decode_utf8_3 b0 b1 b2 t :
  224 <= byte_val b0 <= 239 ->
  (if byte_val b0 =? 224 then 160 else 128) <= byte_val b1
  <= (if byte_val b0 =? 237 then 159 else 191) ->
  128 <= byte_val b2 <= 191 ->
  decode_utf8 (b0 :: b1 :: b2 :: t)
  = option_map (cons ((byte_val b0 - 224) * 4096
                      + (byte_val b1 - 128) * 64 + (byte_val b2 - 128)))
               (decode_utf8 t).
Proof.
  intros H0 H1 H2. cbn [decode_utf8]. unfold is_continuation.
  destruct (byte_val b0 <? 128) eqn:E0; [lia|].
  destruct ((194 <=? byte_val b0) && (byte_val b0 <=? 223)) eqn:E1; [lia|].
  destruct ((224 <=? byte_val b0) && (byte_val b0 <=? 239)) eqn:E2; [|lia].
  destruct (byte_val b0 =? 224), (byte_val b0 =? 237);
    now decide_tests.
Qed.

Lemma decode_utf8_4 b0 b1 b2 b3 t :
  240 <= byte_val b0 <= 244 ->
  (if byte_val b0 =? 240 then 144 else 128) <= byte_val b1
  <= (if byte_val b0 =? 244 then 143 else 191) ->
  128 <= byte_val b2 <= 191 -> 128 <= byte_val b3 <= 191 ->
  decode_utf8 (b0 :: b1 :: b2 :: b3 :: t)
  = option_map (cons ((byte_val b0 - 240) * 262144
                      + (byte_val b1 - 128) * 4096
                      + (byte_val b2 - 128) * 64 + (byte_val b3 - 128)))
               (decode_utf8 t).
Proof.
  intros H0 H1 H2 H3. cbn [decode_utf8]. unfold is_continuation.
  destruct (byte_val b0 <? 128) eqn:E0; [lia|].
  destruct ((194 <=? byte_val b0) && (byte_val b0 <=? 223)) eqn:E1; [lia|].
  destruct ((224 <=? byte_val b0) && (byte_val b0 <=? 239)) eqn:E2; [lia|].
  destruct ((240 <=? byte_val b0) && (byte_val b0 <=? 244)) eqn:E3; [|lia].
  destruct (byte_val b0 =? 240), (byte_val b0 =? 244);
    now decide_tests.
Qed.

Lemma some_eq {A} (a b : A) : Some a = Some b -> a = b.
Proof. congruence. Qed.

Lemma encode_code_point_decode cp bs more :
  encode_code_point cp = Some bs ->
  decode_utf8 (bs ++ more) = option_map (cons cp) (decode_utf8 more).
Proof.
  unfold encode_code_point. intros H.
  destruct (Z.ltb_spec cp 0); [discriminate|].
  destruct (Z.ltb_spec cp 128).
  { apply some_eq in H; subst bs. cbn [app].
    rewrite decode_utf8_1; rewrite byte_val_byte_of; (reflexivity || lia). }
  destruct (Z.ltb_spec cp 2048).
  { apply some_eq in H; subst bs. cbn [app].
    rewrite decode_utf8_2; rewrite ?byte_val_byte_of; try div_mod.
    f_equal. f_equal. div_mod. }
  destruct (Z.ltb_spec cp 65536).
  { destruct ((55296 <=? cp) && (cp <=? 57343)) eqn:Es; [discriminate|].
    apply some_eq in H; subst bs. cbn [app].
    assert (cp < 55296 \/ 57343 < cp) as Hs by lia.
    rewrite decode_utf8_3; rewrite ?byte_val_byte_of; try div_mod.
    - f_equal. f_equal. div_mod.
    - destruct (Z.eqb_spec (224 + cp / 4096) 224),
        (Z.eqb_spec (224 + cp / 4096) 237); div_mod. }
  destruct (Z.ltb_spec cp 1114112); [|discriminate].
  apply some_eq in H; subst bs. cbn [app].
  rewrite decode_utf8_4; rewrite ?byte_val_byte_of; try div_mod.
  - f_equal. f_equal. div_mod.
  - destruct (Z.eqb_spec (240 + cp / 262144) 240),
      (Z.eqb_spec (240 + cp / 262144) 244); div_mod.
Qed.

(** What was encoded decodes to the same text. *)
Lemma encode_then_decode s bs :
  encode_utf8 s = Some bs -> decode_utf8 bs = Some s.
Proof.
  revert bs. induction s as [|cp rest IH]; intros bs H.
  - injection H as <-. reflexivity.
  - cbn [encode_utf8] in H.
    destruct (encode_code_point cp) as [first|] eqn:Ecp; [|discriminate].
    destruct (encode_utf8 rest) as [more|] eqn:Er; [|discriminate].
    injection H as <-.
    rewrite (encode_code_point_decode _ _ more Ecp).
    now rewrite (IH more eq_refl).
Qed.

Lemma byte_of_eq z b : z = byte_val b -> byte_of z = b.
Proof. intros ->. apply byte_of_byte_val. Qed.

Lemma encode_of_1 b0 :
  byte_val b0 < 128 -> encode_code_point (byte_val b0) = Some [b0].
Proof.
  intros H. pose proof (byte_val_range b0). unfold encode_code_point.
  decide_tests. now rewrite byte_of_byte_val.
Qed.

Lemma encode_of_2 b0 b1 :
  194 <= byte_val b0 <= 223 -> 128 <= byte_val b1 <= 191 ->
  encode_code_point ((byte_val b0 - 192) * 64 + (byte_val b1 - 128))
  = Some [b0; b1].
Proof.
  intros H0 H1. unfold encode_code_point.
  destruct (Z.ltb_spec ((byte_val b0 - 192) * 64 + (byte_val b1 - 128)) 0);
    [lia|].
  destruct (Z.ltb_spec ((byte_val b0 - 192) * 64 + (byte_val b1 - 128)) 128);
    [lia|].
  destruct (Z.ltb_spec ((byte_val b0 - 192) * 64 + (byte_val b1 - 128)) 2048);
    [|lia].
  repeat f_equal; apply byte_of_eq; div_mod.
Qed.

Lemma encode_of_3 b0 b1 b2 :
  224 <= byte_val b0 <= 239 ->
  (if byte_val b0 =? 224 then 160 else 128) <= byte_val b1
  <= (if byte_val b0 =? 237 then 159 else 191) ->
  128 <= byte_val b2 <= 191 ->
  encode_code_point ((byte_val b0 - 224) * 4096
                     + (byte_val b1 - 128) * 64 + (byte_val b2 - 128))
  = Some [b0; b1; b2].
Proof.
  intros H0 H1 H2. unfold encode_code_point.
  set (cp := (byte_val b0 - 224) * 4096
             + (byte_val b1 - 128) * 64 + (byte_val b2 - 128)).
  assert (2048 <= cp < 65536 /\ (cp < 55296 \/ 57343 < cp)) as [Hr Hs].
  { subst cp. destruct (Z.eqb_spec (byte_val b0) 224),
      (Z.eqb_spec (byte_val b0) 237); lia. }
  assert (128 <= byte_val b1 < 192) as Hb1.
  { destruct (byte_val b0 =? 224), (byte_val b0 =? 237); lia. }
  destruct (Z.ltb_spec cp 0); [lia|].
  destruct (Z.ltb_spec cp 128); [lia|].
  destruct (Z.ltb_spec cp 2048); [lia|].
  destruct (Z.ltb_spec cp 65536); [|lia].
  destruct (Z.leb_spec 55296 cp), (Z.leb_spec cp 57343); cbn [andb];
    try lia; repeat f_equal; apply byte_of_eq; subst cp; div_mod.
Qed.

Lemma encode_of_4 b0 b1 b2 b3 :
  240 <= byte_val b0 <= 244 ->
  (if byte_val b0 =? 240 then 144 else 128) <= byte_val b1
  <= (if byte_val b0 =? 244 then 143 else 191) ->
  128 <= byte_val b2 <= 191 -> 128 <= byte_val b3 <= 191 ->
  encode_code_point ((byte_val b0 - 240) * 262144
                     + (byte_val b1 - 128) * 4096
                     + (byte_val b2 - 128) * 64 + (byte_val b3 - 128))
  = Some [b0; b1; b2; b3].
Proof.
  intros H0 H1 H2 H3. unfold encode_code_point.
  set (cp := (byte_val b0 - 240) * 262144 + (byte_val b1 - 128) * 4096
             + (byte_val b2 - 128) * 64 + (byte_val b3 - 128)).
  assert (65536 <= cp < 1114112) as Hr.
  { subst cp. destruct (Z.eqb_spec (byte_val b0) 240),
      (Z.eqb_spec (byte_val b0) 244); lia. }
  assert (128 <= byte_val b1 < 192) as Hb1.
  { destruct (byte_val b0 =? 240), (byte_val b0 =? 244); lia. }
  destruct (Z.ltb_spec cp 0); [lia|].
  destruct (Z.ltb_spec cp 128); [lia|].
  destruct (Z.ltb_spec cp 2048); [lia|].
  destruct (Z.ltb_spec cp 65536); [lia|].
  destruct (Z.ltb_spec cp 1114112); [|lia].
  repeat f_equal; apply byte_of_eq; subst cp; div_mod.
Qed.

Lemma option_map_some {A B} (f : A -> B) o y :
  option_map f o = Some y -> exists x, o = Some x /\ y = f x.
Proof.
  destruct o as [x|]; [|discriminate]. cbn [option_map]. intros H.
  exists x. split; congruence.
Qed.

Lemma encode_utf8_cons cp rest bs more :
  encode_code_point cp = Some bs -> encode_utf8 rest = Some more ->
  encode_utf8 (cp :: rest) = Some (bs ++ more).
Proof. intros H1 H2. cbn [encode_utf8]. now rewrite H1, H2. Qed.

Lemma decode_then_encode_upto n :
  forall bs s, (length bs <= n)%nat ->
               decode_utf8 bs = Some s -> encode_utf8 s = Some bs.
Proof.
  induction n as [|n IH]; intros bs s Hn H.
  - destruct bs; [|simpl in Hn; lia]. now injection H as <-.
  - destruct bs as [|b0 t0]; [now injection H as <-|].
    cbn [decode_utf8] in H. cbv zeta in H. cbn [length] in Hn.
    destruct (Z.ltb_spec (byte_val b0) 128) as [H0|H0].
    { apply option_map_some in H as (rest & Hd & ->).
      apply (encode_utf8_cons _ _ [b0] t0); [now apply encode_of_1|].
      apply IH; [lia|assumption]. }
    destruct ((194 <=? byte_val b0) && (byte_val b0 <=? 223)) eqn:E2.
    { apply andb_true_iff in E2 as [L U]. apply Z.leb_le in L, U.
      destruct t0 as [|b1 t1]; [discriminate|].
      destruct (is_continuation (byte_val b1)) eqn:E1; [|discriminate].
      apply andb_true_iff in E1 as [L1 U1]. apply Z.leb_le in L1, U1.
      apply option_map_some in H as (rest & Hd & ->).
      apply (encode_utf8_cons _ _ [b0; b1] t1);
        [now apply encode_of_2|].
      apply IH; [cbn [length] in Hn; lia|assumption]. }
    destruct ((224 <=? byte_val b0) && (byte_val b0 <=? 239)) eqn:E3.
    { apply andb_true_iff in E3 as [L U]. apply Z.leb_le in L, U.
      destruct t0 as [|b1 [|b2 t2]]; try discriminate.
      match type of H with (if ?c then _ else _) = _ =>
        destruct c eqn:E1; [|discriminate] end.
      apply andb_true_iff in E1 as [E1 E2'].
      apply andb_true_iff in E1 as [L1 U1]. apply Z.leb_le in L1, U1.
      apply andb_true_iff in E2' as [L2 U2]. apply Z.leb_le in L2, U2.
      apply option_map_some in H as (rest & Hd & ->).
      apply (encode_utf8_cons _ _ [b0; b1; b2] t2);
        [now apply encode_of_3|].
      apply IH; [cbn [length] in Hn; lia|assumption]. }
    destruct ((240 <=? byte_val b0) && (byte_val b0 <=? 244)) eqn:E4;
      [|discriminate].
    apply andb_true_iff in E4 as [L U]. apply Z.leb_le in L, U.
    destruct t0 as [|b1 [|b2 [|b3 t3]]]; try discriminate.
    match type of H with (if ?c then _ else _) = _ =>
      destruct c eqn:E1; [|discriminate] end.
    apply andb_true_iff in E1 as [E1 E3'].
    apply andb_true_iff in E1 as [E1 E2'].
    apply andb_true_iff in E1 as [L1 U1]. apply Z.leb_le in L1, U1.
    apply andb_true_iff in E2' as [L2 U2]. apply Z.leb_le in L2, U2.
    apply andb_true_iff in E3' as [L3 U3]. apply Z.leb_le in L3, U3.
    apply option_map_some in H as (rest & Hd & ->).
    apply (encode_utf8_cons _ _ [b0; b1; b2; b3] t3);
      [now apply encode_of_4|].
    apply IH; [cbn [length] in Hn; lia|assumption].
Qed.

(** What was decoded encodes to the same bytes: the decoder accepts one
    form only of each text. *)
Lemma decode_then_encode bs s :
  decode_utf8 bs = Some s -> encode_utf8 s = Some bs.
Proof. apply (decode_then_encode_upto (length bs)). lia. Qed.

(** A decoded text has a '-' only where the bytes have one. *)
Lemma decode_dash_free bs s :
  decode_utf8 bs = Some s -> ~ In x2d bs -> dash_free s.
Proof.
  intros H. apply decode_then_encode in H. revert bs H.
  induction s as [|cp rest IH]; intros bs H Hin; [constructor|].
  cbn [encode_utf8] in H.
  destruct (encode_code_point cp) as [first|] eqn:Ecp; [|discriminate].
  destruct (encode_utf8 rest) as [more|] eqn:Er; [|discriminate].
  apply some_eq in H. subst bs. constructor.
  - intros ->. apply some_eq in Ecp. subst first. apply Hin. now left.
  - apply (IH more eq_refl). intros Hm. apply Hin, in_or_app. now right.
Qed.

Lemma str_eqb_refl a : str_eqb a a = true.
Proof. now apply str_eqb_eq. Qed.

Lemma str_eqb_neq a b : a <> b -> str_eqb a b = false.
Proof.
  intros H. destruct (str_eqb a b) eqn:E; [|reflexivity].
  now apply str_eqb_eq in E.
Qed.

(** ** Signing, then verifying *)

Section MessageVerifierRoundTrip.

Variable hmac_sha256 : list byte -> list byte -> list byte.
Variable b64encode : list byte -> list byte.
Variable b64decode : list byte -> option (list byte).
Variable json_dumps : MessageVerifier.json -> pystr.
Variable json_loads : pystr -> option MessageVerifier.json.
Variable Value : Type.
Variable str : Value -> pystr.

Local Abbreviation verify :=
  (MessageVerifier.verify hmac_sha256 b64decode json_loads).
Local Abbreviation generate :=
  (MessageVerifier.generate hmac_sha256 b64encode json_dumps Value str).
Local Abbreviation from_json :=
  (MessageVerifier.from_json b64decode json_loads).
Local Abbreviation _encode_string := (MessageVerifier._encode_string b64encode).
Local Abbreviation _decode_string := (MessageVerifier._decode_string b64decode).
Local Abbreviation _encode_bytes := (MessageVerifier._encode_bytes b64encode).
Local Abbreviation _decode_bytes := (MessageVerifier._decode_bytes b64decode).

Lemma encode_string_inv s e :
  _encode_string s = MessageVerifier.Ok e ->
  exists bs, encode_utf8 s = Some bs
             /\ decode_utf8 (b64encode bs) = Some e
             /\ encode_utf8 e = Some (b64encode bs).
Proof.
  unfold MessageVerifier._encode_string, MessageVerifier._encode_bytes.
  destruct (encode_utf8 s) as [bs|]; [|discriminate].
  destruct (decode_utf8 (b64encode bs)) as [e'|] eqn:E; [|discriminate].
  intros [= <-]. exists bs. repeat split; auto.
  now apply decode_then_encode.
Qed.

Lemma decode_encoded s e bs :
  b64decode (b64encode bs) = Some bs ->
  encode_utf8 s = Some bs -> encode_utf8 e = Some (b64encode bs) ->
  _decode_string e = MessageVerifier.Ok s.
Proof.
  intros Hb Hs He.
  unfold MessageVerifier._decode_string, MessageVerifier._decode_bytes.
  now rewrite He, Hb, (encode_then_decode _ _ Hs).
Qed.

(** X19. The four helpers on base64 text: [_encode_bytes] and
    [_encode_string] return text without '-', and [_decode_bytes] and
    [_decode_string] give back what they encoded, when [b64decode]
    inverts [b64encode] and no byte of a base64 encoding is '-'. A text
    with a surrogate in it is not encoded: [_encode_string] raises
    [UnicodeEncodeError]. *)
Theorem encode_decode_round_trip :
  (forall bs, b64decode (b64encode bs) = Some bs) ->
  (forall bs, ~ In x2d (b64encode bs)) ->
  (forall data e,
      _encode_bytes data = MessageVerifier.Ok e ->
      dash_free e
      /\ forall text, decode_utf8 data = Some text ->
                      _decode_string e = MessageVerifier.Ok text)
  /\ (forall s e,
         _encode_string s = MessageVerifier.Ok e ->
         dash_free e /\ _decode_string e = MessageVerifier.Ok s)
  /\ (forall s, encode_utf8 s = None ->
                _encode_string s
                = MessageVerifier.Raise MessageVerifier.UnicodeEncodeError).
Proof.
  intros Hinv Hdash. repeat match goal with |- _ /\ _ => split end.
  - intros data e H. unfold MessageVerifier._encode_bytes in H.
    destruct (decode_utf8 (b64encode data)) as [e'|] eqn:E; [|discriminate].
    injection H as <-. split; [now apply (decode_dash_free _ _ E)|].
    intros text Ht. apply (decode_encoded _ _ data); auto.
    + now apply decode_then_encode.
    + now apply decode_then_encode.
  - intros s e H. apply encode_string_inv in H as (bs & Hs & Hd & He).
    split; [now apply (decode_dash_free _ _ Hd)|].
    now apply (decode_encoded _ _ bs).
  - intros s H. unfold MessageVerifier._encode_string. now rewrite H.
Qed.

(** X20. A message that [generate] returns is verified with the
    purpose that [json.loads] reads back from what [json.dumps] wrote:
    for it [verify] returns [str(value)], for every other purpose
    [None]. Where JSON gives the purpose back as it was written, this
    is the round trip of [generate] and [verify]; a purpose that JSON
    reads back otherwise (two surrogates written as two escapes are read
    as one character) is not verified with the purpose it was signed
    with. Of base64 it is taken that [b64decode] inverts [b64encode]
    and that no byte of an encoding is '-'. *)
Theorem generate_then_verify secret value purpose signed_message
  encoded purpose_read :
  (forall bs, b64decode (b64encode bs) = Some bs) ->
  (forall bs, ~ In x2d (b64encode bs)) ->
  _encode_string (str value) = MessageVerifier.Ok encoded ->
  json_loads (json_dumps (written_metadata encoded purpose))
  = Some (written_metadata encoded purpose_read) ->
  generate secret value purpose = MessageVerifier.Ok signed_message ->
  verify secret signed_message purpose_read
  = MessageVerifier.Ok (Some (str value))
  /\ forall purpose', purpose' <> purpose_read ->
                      verify secret signed_message purpose'
                      = MessageVerifier.Ok None.
Proof.
  intros Hinv Hdash E1 Hjson H.
  unfold MessageVerifier.generate, MessageVerifier.to_json,
    MessageVerifier.wrap, MessageVerifier._serialize in H.
  cbn [MessageVerifier.message MessageVerifier.purpose] in H.
  rewrite E1 in H.
  change (json_dumps _) with (json_dumps (written_metadata encoded purpose))
    in H.
  set (text := json_dumps (written_metadata encoded purpose)) in *.
  destruct (_encode_string text) as [data|] eqn:E2; [|discriminate].
  apply encode_string_inv in E1 as (mb & Hm1 & Hm2 & Hm3).
  apply encode_string_inv in E2 as (tb & Ht1 & Ht2 & Ht3).
  unfold MessageVerifier._generate_digest_string in H. rewrite Ht3 in H.
  injection H as <-.
  assert (forall purpose',
             verify secret
               (data ++ [45; 45]
                ++ MessageVerifier._generate_digest_bytes
                     hmac_sha256 secret (b64encode tb)) purpose'
             = MessageVerifier.Ok
                 (if str_eqb purpose_read purpose'
                  then Some (str value) else None))
    as Hv.
  { intros purpose'. unfold MessageVerifier.verify.
    rewrite (split_two data)
      by (apply (decode_dash_free _ _ Ht2), Hdash || apply hex_dash_free).
    unfold MessageVerifier._generate_digest_string. rewrite Ht3.
    rewrite str_eqb_refl. cbn [negb].
    rewrite (decode_encoded text data tb) by auto.
    unfold MessageVerifier.Metadata_verify, MessageVerifier.from_json,
      MessageVerifier.from_json_body.
    subst text. rewrite Hjson.
    change (MessageVerifier.getitem (written_metadata encoded purpose_read)
              MessageVerifier.k_rails)
      with (MessageVerifier.Ok
              (MessageVerifier.JObject
              [(MessageVerifier.k_message, MessageVerifier.JString encoded);
               (MessageVerifier.k_exp, MessageVerifier.JNull);
               (MessageVerifier.k_pur,
                MessageVerifier.JString purpose_read)])).
    cbv iota.
    change (MessageVerifier.getitem _ MessageVerifier.k_message)
      with (MessageVerifier.Ok (MessageVerifier.JString encoded)).
    cbv iota. unfold MessageVerifier._decode_string_any.
    rewrite (decode_encoded (str value) encoded mb) by auto.
    change (MessageVerifier.getitem _ MessageVerifier.k_pur)
      with (MessageVerifier.Ok (MessageVerifier.JString purpose_read)).
    reflexivity. }
  split.
  - rewrite Hv. now rewrite str_eqb_refl.
  - intros purpose' Hne. rewrite Hv. rewrite str_eqb_neq; congruence.
Qed.

End MessageVerifierRoundTrip.

(** ** What is raised *)

Section MessageVerifierErrors.

Variable hmac_sha256 : list byte -> list byte -> list byte.
Variable b64decode : list byte -> option (list byte).
Variable json_loads : pystr -> option MessageVerifier.json.

Local Abbreviation verify :=
  (MessageVerifier.verify hmac_sha256 b64decode json_loads).
Local Abbreviation from_json :=
  (MessageVerifier.from_json b64decode json_loads).
Local Abbreviation _decode_string := (MessageVerifier._decode_string b64decode).
Local Abbreviation digest_of :=
  (fun secret bs => MessageVerifier.hex (hmac_sha256 secret bs)).

Lemma getitem_missing members key :
  (forall k v, In (k, v) members -> k <> key) ->
  MessageVerifier.getitem (MessageVerifier.JObject members) key
  = MessageVerifier.Raise MessageVerifier.KeyError.
Proof.
  intros H. unfold MessageVerifier.getitem.
  destruct (find (fun kv => str_eqb (fst kv) key) members) as [[k v]|] eqn:E;
    [|reflexivity].
  apply find_some in E as [Hin Hk]. apply str_eqb_eq in Hk.
  now apply H in Hin.
Qed.

Lemma getitem_not_object j key :
  (forall members, j <> MessageVerifier.JObject members) ->
  MessageVerifier.getitem j key
  = MessageVerifier.Raise MessageVerifier.TypeError.
Proof.
  intros H. destruct j; try reflexivity. now destruct (H members).
Qed.

Lemma from_json_converts data :
  from_json data <> MessageVerifier.Raise MessageVerifier.KeyError
  /\ from_json data <> MessageVerifier.Raise MessageVerifier.JSONDecodeError.
Proof.
  unfold MessageVerifier.from_json.
  destruct (MessageVerifier.from_json_body b64decode json_loads data)
    as [m|[]]; split; discriminate.
Qed.

(** X21. [Metadata.from_json] lets neither [KeyError] nor
    [JSONDecodeError] out: a text that is no JSON, and a JSON object
    without "_rails", give the [RuntimeError]. The other failures are
    not caught: JSON that is no object gives [TypeError], and a
    "message" that is no string gives [AttributeError]. *)
Theorem from_json_raises data :
  (from_json data <> MessageVerifier.Raise MessageVerifier.KeyError
   /\ from_json data <> MessageVerifier.Raise MessageVerifier.JSONDecodeError)
  /\ (json_loads data = None ->
      from_json data = MessageVerifier.Raise MessageVerifier.RuntimeError)
  /\ (forall members,
         json_loads data = Some (MessageVerifier.JObject members) ->
         (forall k v, In (k, v) members -> k <> MessageVerifier.k_rails) ->
         from_json data = MessageVerifier.Raise MessageVerifier.RuntimeError)
  /\ (forall j,
         json_loads data = Some j ->
         (forall members, j <> MessageVerifier.JObject members) ->
         from_json data = MessageVerifier.Raise MessageVerifier.TypeError)
  /\ (forall j rails_data encoded,
         json_loads data = Some j ->
         MessageVerifier.getitem j MessageVerifier.k_rails
         = MessageVerifier.Ok rails_data ->
         MessageVerifier.getitem rails_data MessageVerifier.k_message
         = MessageVerifier.Ok encoded ->
         (forall s, encoded <> MessageVerifier.JString s) ->
         from_json data
         = MessageVerifier.Raise MessageVerifier.AttributeError).
Proof.
  split; [apply from_json_converts|].
  unfold MessageVerifier.from_json, MessageVerifier.from_json_body.
  repeat match goal with |- _ /\ _ => split end.
  - now intros ->.
  - intros members -> H. now rewrite getitem_missing.
  - intros j -> H. now rewrite getitem_not_object.
  - intros j rails_data encoded -> -> -> H.
    destruct encoded; try reflexivity. now destruct (H s).
Qed.

(** X22. A message with the right digest is decoded, and [verify] then
    raises what the decoding raises instead of returning [None]:
    [binascii.Error] for data that is no base64, [UnicodeDecodeError]
    for bytes that are no UTF-8, and whatever [Metadata.from_json]
    raises, which is never [KeyError] or [JSONDecodeError]. *)
Theorem verify_signed_raises secret data data_bytes purpose :
  dash_free data -> encode_utf8 data = Some data_bytes ->
  let signed_message := data ++ [45; 45] ++ digest_of secret data_bytes in
  (b64decode data_bytes = None ->
   verify secret signed_message purpose
   = MessageVerifier.Raise MessageVerifier.BinasciiError)
  /\ (forall bs,
         b64decode data_bytes = Some bs -> decode_utf8 bs = None ->
         verify secret signed_message purpose
         = MessageVerifier.Raise MessageVerifier.UnicodeDecodeError)
  /\ (forall text e,
         _decode_string data = MessageVerifier.Ok text ->
         from_json text = MessageVerifier.Raise e ->
         verify secret signed_message purpose = MessageVerifier.Raise e
         /\ e <> MessageVerifier.KeyError
         /\ e <> MessageVerifier.JSONDecodeError).
Proof.
  intros Hd Henc signed_message.
  assert (verify secret signed_message purpose
          = match _decode_string data with
            | MessageVerifier.Raise e => MessageVerifier.Raise e
            | MessageVerifier.Ok text =>
                MessageVerifier.Metadata_verify b64decode json_loads
                  text purpose
            end) as Hv.
  { unfold MessageVerifier.verify. subst signed_message.
    rewrite split_two by (assumption || apply hex_dash_free).
    unfold MessageVerifier._generate_digest_string,
      MessageVerifier._generate_digest_bytes.
    rewrite Henc. now rewrite str_eqb_refl. }
  rewrite Hv. repeat match goal with |- _ /\ _ => split end.
  - intros Hb. unfold MessageVerifier._decode_string,
      MessageVerifier._decode_bytes. now rewrite Henc, Hb.
  - intros bs Hb Hu. unfold MessageVerifier._decode_string,
      MessageVerifier._decode_bytes. now rewrite Henc, Hb, Hu.
  - intros text e Ht He. rewrite Ht.
    unfold MessageVerifier.Metadata_verify. rewrite He.
    split; [reflexivity|].
    split; intros ->;
      [now apply (proj1 (from_json_converts text))
      |now apply (proj2 (from_json_converts text))].
Qed.

End MessageVerifierErrors.

(** ** The stand-ins meet what is asked of the libraries *)

Lemma b16_inverse bs : Stub.b16decode (Stub.b16encode bs) = Some bs.
Proof.
  induction bs as [|b bs IH]; [reflexivity|].
  change (Stub.b16encode (b :: bs))
    with (byte_of (65 + byte_val b / 16)
          :: byte_of (65 + byte_val b mod 16) :: Stub.b16encode bs).
  cbn [Stub.b16decode]. rewrite IH. cbn [option_map].
  pose proof (byte_val_range b) as Hb.
  rewrite !byte_val_byte_of by div_mod.
  do 2 f_equal. apply byte_of_eq. div_mod.
Qed.

Lemma b16_no_dash bs : ~ In x2d (Stub.b16encode bs).
Proof.
  unfold Stub.b16encode. intros H.
  apply in_flat_map in H as (b & _ & H).
  pose proof (byte_val_range b) as Hb.
  destruct H as [H|[H|[]]]; apply (f_equal byte_val) in H;
    rewrite byte_val_byte_of in H by div_mod;
    change (byte_val x2d) with 45 in H; div_mod.
Qed.

Ltac no_dash :=
  unfold dash_free; repeat (apply Forall_cons; [discriminate|]);
  apply Forall_nil.

Lemma verify_turns_down_witness :
  MessageVerifier.verify Stub.hmac Stub.b16decode Stub.loads [x6b]
    [104; 105] [112] = MessageVerifier.Ok None
  /\ MessageVerifier.verify Stub.hmac Stub.b16decode Stub.loads [x6b]
       [97; 45; 45; 98; 45; 45; 99] [112] = MessageVerifier.Ok None
  /\ MessageVerifier.verify Stub.hmac Stub.b16decode Stub.loads [x6b]
       [97; 45; 45; 122; 122] [112] = MessageVerifier.Ok None.
Proof.
  destruct (verify_turns_down Stub.hmac Stub.b16decode Stub.loads
              [x6b] [112]) as (H1 & H2 & H3).
  split; [apply (H1 [104; 105]); no_dash|].
  split; [apply (H2 [97] [98] [99]); no_dash|].
  apply (H3 [97] [122; 122] [x61]); try no_dash; [reflexivity|].
  vm_compute. discriminate.
Defined.

Lemma verify_sound_witness :
  exists data data_bytes text metadata,
    [65; 69; 69; 72; 69; 74; 69; 72; 69; 75; 72; 65; 45; 45; 54; 98; 52;
     49; 52; 53; 52; 53; 52; 56; 52; 53; 52; 97; 52; 53; 52; 56; 52; 53;
     52; 98; 52; 56; 52; 49]
    = data ++ [45; 45] ++ MessageVerifier.hex (Stub.hmac [x6b] data_bytes)
    /\ encode_utf8 data = Some data_bytes
    /\ MessageVerifier._decode_string Stub.b16decode data
       = MessageVerifier.Ok text
    /\ MessageVerifier.from_json Stub.b16decode Stub.loads text
       = MessageVerifier.Ok metadata
    /\ MessageVerifier.purpose metadata = MessageVerifier.JString [112]
    /\ MessageVerifier.message metadata = [104; 105].
Proof.
  apply (verify_sound Stub.hmac Stub.b16decode Stub.loads [x6b]).
  vm_compute. reflexivity.
Defined.

Lemma encode_decode_round_trip_witness :
  dash_free [71; 73; 71; 74]
  /\ MessageVerifier._decode_string Stub.b16decode [71; 73; 71; 74]
     = MessageVerifier.Ok [104; 105].
Proof.
  apply (proj1 (proj2 (encode_decode_round_trip
                         Stub.b16encode Stub.b16decode
                         b16_inverse b16_no_dash)) [104; 105]).
  vm_compute. reflexivity.
Defined.

Lemma generate_then_verify_witness :
  MessageVerifier.verify Stub.hmac Stub.b16decode Stub.loads [x6b]
    [65; 69; 69; 72; 69; 74; 69; 72; 69; 75; 72; 65; 45; 45; 54; 98; 52;
     49; 52; 53; 52; 53; 52; 56; 52; 53; 52; 97; 52; 53; 52; 56; 52; 53;
     52; 98; 52; 56; 52; 49] [112]
  = MessageVerifier.Ok (Some [104; 105]).
Proof.
  apply (proj1 (generate_then_verify
                  Stub.hmac Stub.b16encode Stub.b16decode
                  Stub.dumps Stub.loads unit (fun _ => [104; 105])
                  [x6b] tt [112] _ [71; 73; 71; 74] [112]
                  b16_inverse b16_no_dash eq_refl eq_refl
                  ltac:(vm_compute; reflexivity))).
Defined.

Lemma from_json_raises_witness :
  MessageVerifier.from_json Stub.b16decode Stub.loads []
  = MessageVerifier.Raise MessageVerifier.RuntimeError
  /\ MessageVerifier.from_json Stub.b16decode
       (fun _ => Some (MessageVerifier.JArray [])) [91; 93]
     = MessageVerifier.Raise MessageVerifier.TypeError.
Proof.
  split.
  - apply (proj1 (proj2 (from_json_raises Stub.b16decode Stub.loads []))).
    reflexivity.
  - apply (proj1 (proj2 (proj2 (proj2
             (from_json_raises Stub.b16decode
                (fun _ => Some (MessageVerifier.JArray [])) [91; 93]))))
             (MessageVerifier.JArray [])); [reflexivity|discriminate].
Defined.

Lemma verify_signed_raises_witness :
  MessageVerifier.verify Stub.hmac Stub.b16decode Stub.loads [x6b]
    ([65] ++ [45; 45] ++ MessageVerifier.hex (Stub.hmac [x6b] [x41])) [112]
  = MessageVerifier.Raise MessageVerifier.BinasciiError.
Proof.
  apply (proj1 (verify_signed_raises Stub.hmac Stub.b16decode Stub.loads
                  [x6b] [65] [x41] [112] ltac:(no_dash) eq_refl)).
  reflexivity.
Defined.

(** ** Negative counts *)

Lemma py_slice_back {A} (l : list A) start stop :
  0 <= stop <= start -> py_slice l start stop = [].
Proof.
  intros H. unfold py_slice, slice_bound.
  destruct (start <? 0) eqn:E1; [lia|].
  destruct (stop <? 0) eqn:E2; [lia|].
  replace (Z.to_nat (Z.min stop (len l) - Z.min start (len l))) with O by lia.
  reflexivity.
Qed.

Lemma py_slice_from_end {A} (l : list A) start stop :
  0 <= start <= len l -> stop < 0 ->
  py_slice l start stop
  = firstn (Z.to_nat (len l + stop - start)) (skipn (Z.to_nat start) l).
Proof.
  intros Hs Hn. unfold py_slice, slice_bound.
  destruct (start <? 0) eqn:E1; [lia|].
  destruct (stop <? 0) eqn:E2; [|lia].
  rewrite Z.min_l by lia. f_equal. lia.
Qed.

Lemma read_bytes_back self count :
  count < 0 -> 0 <= _position self + count ->
  _position self <= len (_data self) ->
  _read_bytes count self = Return [] (advance count self).
Proof.
  intros Hc Hp Hl. unfold _read_bytes.
  destruct (_position self + count >? len (_data self)) eqn:E; [lia|].
  rewrite py_slice_back by lia. reflexivity.
Qed.

(** X23. [_read_bytes] with a negative count, the cursor inside the
    buffer: it never raises, and it moves the cursor back by the count.
    While the cursor stays at 0 or after, no byte is returned; when it
    goes below 0 the slice ends at an index counted from the end of the
    buffer, and the [len(data) + count] bytes from the cursor on are
    returned, so a negative count can return bytes. *)
Theorem read_bytes_negative_count self count :
  count < 0 -> 0 <= _position self <= len (_data self) ->
  exists data_bytes,
    _read_bytes count self = Return data_bytes (advance count self)
    /\ (0 <= _position self + count -> data_bytes = [])
    /\ (_position self + count < 0 ->
        data_bytes
        = firstn (Z.to_nat (len (_data self) + count))
                 (skipn (Z.to_nat (_position self)) (_data self))).
Proof.
  intros Hc Hp. unfold _read_bytes.
  destruct (_position self + count >? len (_data self)) eqn:E; [lia|].
  eexists. split; [reflexivity|]. split; intros H.
  - apply py_slice_back. lia.
  - rewrite py_slice_from_end by lia. do 2 f_equal. lia.
Qed.

Lemma read_bytes_negative_count_witness :
  exists data_bytes,
    _read_bytes (-1) (mkMarshal [x04; x08; x30] 0 [])
    = Return data_bytes (advance (-1) (mkMarshal [x04; x08; x30] 0 []))
    /\ (0 <= 0 + -1 -> data_bytes = [])
    /\ (0 + -1 < 0 -> data_bytes = [x04; x08]).
Proof.
  apply (read_bytes_negative_count (mkMarshal [x04; x08; x30] 0 []) (-1)).
  - lia.
  - unfold len. simpl. lia.
Defined.

(** ** A class name that moves the cursor back *)

Lemma read_class_symbol_back self c payload rest :
  holds_at (_data self) (_position self) (x3a :: c :: payload ++ rest) ->
  length payload = payload_length (signed c) ->
  packed_fixnum (signed c) payload = - (3 + len payload) ->
  0 < _position self ->
  read_class_symbol self
  = Return colon {| _data := _data self;
                    _position := _position self - 1;
                    _symbols := _symbols self ++ [colon] |}.
Proof.
  intros H Hlen Hsize Hp.
  pose proof (holds_at_bound _ _ _ H) as Hb.
  rewrite !len_cons, len_app in Hb. pose proof (len_nonneg rest).
  pose proof (len_nonneg payload).
  unfold read_class_symbol, bind.
  rewrite (read_byte_at self x3a _ H).
  change (RubyTypeM.from_byte (signed x3a)) with (Some SYMBOL). cbv iota.
  apply holds_at_cons in H. destruct H as [_ H].
  apply holds_at_advance in H.
  change (c :: payload ++ rest) with ((c :: payload) ++ rest) in H.
  apply holds_at_app in H. destruct H as [Hint _].
  unfold _read_symbol, bind.
  rewrite (read_int_at _ c payload Hint Hlen). rewrite Hsize.
  destruct (Z.eqb_spec (- (3 + len payload)) 0) as [E|_]; [lia|].
  rewrite advance_advance.
  rewrite read_bytes_back by (cbn [advance _position _data]; lia).
  unfold decode, ret. cbn [decode_utf8]. unfold symbols_append.
  rewrite advance_advance. cbn [advance _position _data _symbols].
  rewrite app_nil_r. do 2 f_equal. lia.
Qed.

Lemma read_cycle depth : forall self c payload rest,
  holds_at (_data self) (_position self) (x55 :: x3a :: c :: payload ++ rest) ->
  length payload = payload_length (signed c) ->
  packed_fixnum (signed c) payload = - (3 + len payload) ->
  _read depth self = Raise RecursionError.
Proof.
  induction depth as [|depth IH]; intros self c payload rest H Hlen Hsize;
    [reflexivity|].
  pose proof (holds_at_nonneg _ _ _ H) as Hp.
  cbn [_read]. unfold read_body, bind.
  rewrite (read_byte_at self x55 _ H).
  change (RubyTypeM.from_byte (signed x55)) with (Some USR_MARSHAL). cbv iota.
  unfold _read_usr_marshal, bind.
  pose proof H as H'. apply holds_at_cons in H'. destruct H' as [_ H'].
  apply holds_at_advance in H'.
  rewrite (read_class_symbol_back (advance 1 self) c payload rest H' Hlen Hsize)
    by (cbn [advance _position]; lia).
  cbn [advance _position _data _symbols].
  rewrite (IH _ c payload rest); [reflexivity| |assumption|assumption].
  cbn [_position _data].
  now replace (_position self + 1 - 1) with (_position self) by lia.
Qed.

(** X24. A USR_MARSHAL whose class name is a symbol with the negative
    length that takes the cursor back to the 'U' is read again and
    again: for every limit on the nesting, [_read] at the 'U' ends with
    [RecursionError], whatever else the buffer holds and whatever the
    symbol table; so does [load] on a buffer that starts with the
    header and these bytes. The shortest such value is 'U' ':' 0xF8. *)
Theorem read_usr_marshal_cycle c payload :
  length payload = payload_length (signed c) ->
  packed_fixnum (signed c) payload = - (3 + len payload) ->
  (forall depth self rest,
      holds_at (_data self) (_position self)
               (x55 :: x3a :: c :: payload ++ rest) ->
      _read depth self = Raise RecursionError)
  /\ (forall depth rest,
         load depth (x04 :: x08 :: x55 :: x3a :: c :: payload ++ rest)
         = Error RecursionError).
Proof.
  intros Hlen Hsize. split.
  - intros depth self rest H. now apply (read_cycle depth self c payload rest).
  - intros depth rest. unfold load, _load, bind, __init__.
    rewrite (read_byte_at _ x04 [])
      by (exists [], (x08 :: x55 :: x3a :: c :: payload ++ rest); now split).
    change (signed x04 =? 4) with true. cbv iota beta.
    rewrite (read_byte_at _ x08 [])
      by (exists [x04], (x55 :: x3a :: c :: payload ++ rest); now split).
    change (signed x08 =? 8) with true. cbv iota beta.
    rewrite (read_cycle depth _ c payload rest); auto.
    exists [x04; x08], []. now rewrite app_nil_r.
Qed.

Lemma read_usr_marshal_cycle_witness :
  load 1000 (x04 :: x08 :: x55 :: x3a :: xf8 :: [] ++ [])
  = Error RecursionError.
Proof.
  apply (proj2 (read_usr_marshal_cycle xf8 [] eq_refl eq_refl) 1000%nat []).
Defined.
